(** * Blender3d-Scripts: the mathematics of the procedural scripts

    Shallow embedding of the numeric core of the scripts
    [SierpinskiPyramid.py], [Mandelbulb.py], [KleinBottle.py],
    [animations/solarsystemorbitsim.py], [animations/basicanimations.py]
    and [animations/proceduralwalk.py], together with a small model of the
    host scene that the scripts drive.

    Numbers: Python floats are idealised as the real numbers of the Standard
    Library, so rounding and NaN are outside the model.  The range of the
    floats is modelled where leaving it raises an exception: a power beyond
    the largest float raises [OverflowError], and the sine or cosine of a
    product beyond it, an infinity in the script, raises [ValueError].
    Where a script truncates or compares a rounded value, the rounding is
    a parameter of the model.  Python integers are [Z]. *)

From Stdlib Require Import String.
From Stdlib Require Import Reals Lra Lia ZArith List Bool.
From Stdlib Require Import DecimalString.
From Stdlib Require DecimalPos DecimalZ Sorting.Sorted Sorting.Permutation.
From Equations Require Import Equations.
From stdpp Require gmap strings.
Import ListNotations.

Local Open Scope R_scope.

(** ** Python results: a value or a raised exception *)

Inductive PyExn : Type :=
| ZeroDivisionError
| ValueError
| TypeError
| IndexError
| OverflowError
| RuntimeError.

Inductive result (A : Type) : Type :=
| Ok (a : A)
| Raise (e : PyExn).

Arguments Ok {A} a.
Arguments Raise {A} e.

Definition bind {A B : Type} (m : result A) (k : A -> result B) : result B :=
  match m with
  | Ok a => k a
  | Raise e => Raise e
  end.

Declare Scope py_scope.
Delimit Scope py_scope with py.
Notation "x <- m ;; k" := (bind m (fun x => k))
  (at level 100, m at next level, right associativity) : py_scope.

(** ** Float comparisons, as booleans *)

Definition fgt (a b : R) : bool := if Rgt_dec a b then true else false.
Definition flt (a b : R) : bool := if Rlt_dec a b then true else false.
Definition feq (a b : R) : bool := if Req_dec_T a b then true else false.

(** Python's [min(a, b)] keeps [a] unless [b < a]; [max(a, b)] keeps [a]
    unless [b > a]. *)
Definition py_min (a b : R) : R := if flt b a then b else a.
Definition py_max (a b : R) : R := if fgt b a then b else a.

(** ** The [math] module and float operators, with their exceptions *)

(** The largest finite float, [sys.float_info.max]. *)
Definition float_max : R := (2 - / 2 ^ 52) * 2 ^ 1023.

Module math.

Definition pi : R := PI.
Definition sin (x : R) : R := Rtrigo_def.sin x.
Definition cos (x : R) : R := Rtrigo_def.cos x.

(** [math.sqrt].  The scripts modelled here apply it to the constants
    [2.0/3.0] and [3.0] only, where its [ValueError] for a negative argument
    cannot occur. *)
Definition sqrt (x : R) : R := R_sqrt.sqrt x.

(** [math.acos] raises [ValueError] outside [-1, 1]. *)
Definition acos (x : R) : result R :=
  if flt x (-1) || fgt x 1 then Raise ValueError else Ok (Ratan.acos x).

(** [math.log] raises [ValueError] unless its argument is positive. *)
Definition log (x : R) : result R :=
  if fgt x 0 then Ok (ln x) else Raise ValueError.

(** [math.atan2(y, x)]: the angle of the point [(x, y)], in (-pi, pi]. *)
Definition atan2 (y x : R) : R :=
  if fgt x 0 then atan (y / x)
  else if flt x 0 then
    (if flt y 0 then atan (y / x) - PI else atan (y / x) + PI)
  else if fgt y 0 then PI / 2
  else if flt y 0 then - (PI / 2)
  else 0.

(** [math.sin] and [math.cos] of a float product.  A product whose exact
    value is beyond the largest float is an infinity in the script, and
    both functions raise [ValueError] on an infinite argument. *)
Definition sin_of (x : R) : result R :=
  if fgt (Rabs x) float_max then Raise ValueError else Ok (sin x).

Definition cos_of (x : R) : result R :=
  if fgt (Rabs x) float_max then Raise ValueError else Ok (cos x).

End math.

(** [a / b] on floats raises [ZeroDivisionError] when [b] is zero. *)
Definition fdiv (a b : R) : result R :=
  if feq b 0 then Raise ZeroDivisionError else Ok (a / b).

(** A float result beyond the largest float: the operators that report it
    raise [OverflowError]. *)
Definition in_range (v : R) : result R :=
  if fgt (Rabs v) float_max then Raise OverflowError else Ok v.

(** [a ** b] on floats.  A positive base is the real power.  A zero base
    raises [ZeroDivisionError] for a negative exponent.  A negative base
    with a non-integral exponent gives a complex number, which no float
    operation of the scripts accepts: it is modelled as [TypeError].  A
    result beyond the largest float raises [OverflowError]; a result too
    small for the floats is no error. *)
Definition fpow (a b : R) : result R :=
  if fgt a 0 then in_range (Rpower a b)
  else if feq a 0 then
    (if fgt b 0 then Ok 0
     else if feq b 0 then Ok 1
     else Raise ZeroDivisionError)
  else if feq (IZR (Int_part b)) b then in_range (powerRZ a (Int_part b))
  else Raise TypeError.

(** ** [mathutils.Vector], as a value *)

Record Vector : Type := mkVector { vx : R; vy : R; vz : R }.

Definition vadd (a b : Vector) : Vector :=
  mkVector (vx a + vx b) (vy a + vy b) (vz a + vz b).

Definition vscale (k : R) (a : Vector) : Vector :=
  mkVector (k * vx a) (k * vy a) (k * vz a).

(** [Vector.length]: computed by the host from the sum of squares, it has no
    error case. *)
Definition vlength (a : Vector) : R :=
  R_sqrt.sqrt (vx a * vx a + vy a * vy a + vz a * vz a).

(** Euclidean distance between two points. *)
Definition vdist (a b : Vector) : R :=
  R_sqrt.sqrt ((vx a - vx b) * (vx a - vx b)
               + (vy a - vy b) * (vy a - vy b)
               + (vz a - vz b) * (vz a - vz b)).

(** * SierpinskiPyramid.py *)

(** [tetrahedron_vertices(center, scale)]: apex first, then the three base
    vertices at 0, 120 and 240 degrees. *)
Definition tetrahedron_vertices (center : Vector) (scale : R) : list Vector :=
  let h := scale * math.sqrt (2 / 3) in
  let r := scale * math.sqrt 3 / 3 in
  let v0 := vadd center (mkVector 0 0 h) in
  let v1 := vadd center (mkVector (r * math.cos 0) (r * math.sin 0) 0) in
  let v2 := vadd center (mkVector (r * math.cos (2 * math.pi / 3))
                                  (r * math.sin (2 * math.pi / 3)) 0) in
  let v3 := vadd center (mkVector (r * math.cos (4 * math.pi / 3))
                                  (r * math.sin (4 * math.pi / 3)) 0) in
  [v0; v1; v2; v3].

(** A host object holding a mesh: its name, vertices and faces (each face a
    list of vertex indices). *)
Record Object : Type := mkObject {
  obj_name : string;
  obj_verts : list Vector;
  obj_faces : list (list nat)
}.

(** [create_single_tetrahedron(center, scale, name)]: four vertices, four
    triangles. *)
Definition create_single_tetrahedron (center : Vector) (scale : R)
    (name : string) : Object :=
  let verts := tetrahedron_vertices center scale in
  mkObject name verts
           [[0; 1; 2]; [0; 2; 3]; [0; 3; 1]; [1; 3; 2]]%nat.

(** Decimal rendering of an integer, as in an f-string. *)
Definition str_of_Z (z : Z) : string := NilZero.string_of_int (Z.to_int z).

(** The name [f"Tetra_L{depth}_N{total_count}"]. *)
Definition tetra_name (depth total_count : Z) : string :=
  ("Tetra_L" ++ str_of_Z depth ++ "_N" ++ str_of_Z total_count)%string.

(** [sierpinski_recursive], the closure of [create_sierpinski_pyramid].
    The captured [hollow] flag is a parameter; the [nonlocal total_count]
    is threaded through: the function takes the counter and returns the
    objects with the new counter.  The [for vert in verts] loop extends
    [objects] with each recursive result. *)
Equations? sierpinski_recursive (hollow : bool) (center : Vector) (scale : R)
    (depth max_depth : Z) (total_count : Z) : list Object * Z
    by wf (Z.to_nat (max_depth - depth)) lt :=
  sierpinski_recursive hollow center scale depth max_depth total_count
    with Z_ge_dec depth max_depth := {
    | left _ =>
        let obj :=
          create_single_tetrahedron center scale
                                    (tetra_name depth total_count) in
        ([obj], (total_count + 1)%Z)
    | right Hlt =>
        if hollow && (depth <? max_depth - 1)%Z then
          let verts := tetrahedron_vertices center scale in
          let new_scale := scale / 2 in
          fold_left
            (fun (st : list Object * Z) (vert : Vector) =>
               let r := sierpinski_recursive hollow vert new_scale
                                             (depth + 1)%Z max_depth
                                             (snd st) in
               (fst st ++ fst r, snd r))
            verts ([], total_count)
        else
          let verts := tetrahedron_vertices center scale in
          let new_scale := scale / 2 in
          fold_left
            (fun (st : list Object * Z) (vert : Vector) =>
               let r := sierpinski_recursive hollow vert new_scale
                                             (depth + 1)%Z max_depth
                                             (snd st) in
               (fst st ++ fst r, snd r))
            verts ([], total_count)
    }.
Proof. all: lia. Qed.

(** [create_sierpinski_pyramid(base_center, size, iterations, hollow)]. *)
Definition create_sierpinski_pyramid (base_center : Vector) (size : R)
    (iterations : Z) (hollow : bool) : list Object :=
  fst (sierpinski_recursive hollow base_center size 0%Z iterations 0%Z).

(** The subdivision rule in the words of the specification: a tetrahedron
    of center [c] and scale [k] is replaced by four tetrahedra of scale
    [k / 2] centered at the vertices of [tetrahedron_vertices c k]. *)
Definition spec_subdivide (t : Vector * R) : list (Vector * R) :=
  map (fun v => (v, snd t / 2)) (tetrahedron_vertices (fst t) (snd t)).

(** The tetrahedra after [n] rounds of the rule, starting from one. *)
Definition spec_leaves (n : nat) (c : Vector) (s : R) : list (Vector * R) :=
  Nat.iter n (flat_map spec_subdivide) [(c, s)].

(** The objects the script creates for a list of (center, scale) pairs at
    recursion level [lvl], numbered from [cnt]. *)
Fixpoint build_leaves (lvl cnt : Z) (ts : list (Vector * R)) : list Object :=
  match ts with
  | [] => []
  | t :: ts' =>
      create_single_tetrahedron (fst t) (snd t) (tetra_name lvl cnt)
        :: build_leaves lvl (cnt + 1)%Z ts'
  end.

(** Depth-first enumeration of the leaves, in the order of the recursive
    calls. *)
Fixpoint dfs_leaves (n : nat) (c : Vector) (k : R) : list (Vector * R) :=
  match n with
  | O => [(c, k)]
  | S n' => flat_map (fun v => dfs_leaves n' v (k / 2))
                     (tetrahedron_vertices c k)
  end.

(** An object is created with center [c] and scale [k] when it is the
    result of [create_single_tetrahedron c k] under some name. *)
Definition created_with (o : Object) (t : Vector * R) : Prop :=
  exists name, o = create_single_tetrahedron (fst t) (snd t) name.

(** * Loops with [break] and [return] *)

(** What one pass of a loop body does next. *)
Inductive flow (S A : Type) : Type :=
| Next (s : S)
| Break (s : S)
| Return (a : A).

Arguments Next {S A} s.
Arguments Break {S A} s.
Arguments Return {S A} a.

(** How a loop ended: its sequence ran out, it executed [break], the
    enclosing function returned from inside it, or a pass raised. *)
Inductive loop_end (S A : Type) : Type :=
| Exhausted (s : S)
| Broke (s : S)
| Returned (a : A)
| Raised (e : PyExn).

Arguments Exhausted {S A} s.
Arguments Broke {S A} s.
Arguments Returned {S A} a.
Arguments Raised {S A} e.

(** [for i in xs: body].  Besides the way the loop ended, the result
    records the state at the entry of every pass that was started, the
    pass that raised included: the number of passes is the length of that
    trace. *)
Fixpoint for_each {I S A : Type} (xs : list I)
    (body : I -> S -> result (flow S A)) (s : S)
  : list S * loop_end S A :=
  match xs with
  | [] => ([], Exhausted s)
  | i :: xs' =>
      match body i s with
      | Ok (Next s') =>
          let out := for_each xs' body s' in (s :: fst out, snd out)
      | Ok (Break s') => ([s], Broke s')
      | Ok (Return a) => ([s], Returned a)
      | Raise e => ([s], Raised e)
      end
  end.

(** [range(n)]: empty when [n <= 0]. *)
Definition py_range (n : Z) : list Z :=
  map Z.of_nat (seq 0 (Z.to_nat n)).

(** [range(a, b)]. *)
Definition py_range2 (a b : Z) : list Z :=
  map (fun i => (a + Z.of_nat i)%Z) (seq 0 (Z.to_nat (b - a))).

(** * Mandelbulb.py *)

(** The local variables of [mandelbulb_distance] that live across passes. *)
Record MState : Type := mkMState { st_z : Vector; st_dr : R; st_r : R }.

Local Open Scope py_scope.

(** One pass of the loop of [mandelbulb_distance]. *)
Definition mandelbulb_pass (pos : Vector) (power bailout : R)
    (i : Z) (st : MState) : result (flow MState R) :=
  let z := st_z st in
  let dr := st_dr st in
  let r := vlength z in
  if fgt r bailout then Ok (Break (mkMState z dr r))
  else if flt r 0.0001 then Ok (Return 0)
  else
    q <- fdiv (vz z) r ;;
    theta <- math.acos (py_max (-1) (py_min 1 q)) ;;
    let phi := math.atan2 (vy z) (vx z) in
    zr <- fpow r power ;;
    let theta := theta * power in
    let phi := phi * power in
    sin_theta <- math.sin_of theta ;;
    cos_phi <- math.cos_of phi ;;
    sin_phi <- math.sin_of phi ;;
    cos_theta <- math.cos_of theta ;;
    let z := vscale zr (mkVector (sin_theta * cos_phi)
                                 (sin_theta * sin_phi)
                                 cos_theta) in
    let z := vadd z pos in
    p <- fpow r (power - 1) ;;
    let dr := p * power * dr + 1 in
    Ok (Next (mkMState z dr r)).

(** The loop [for i in range(iterations)], from [z = pos.copy()],
    [dr = 1.0], [r = 0.0]. *)
Definition mandelbulb_loop (pos : Vector) (power : R) (iterations : Z)
    (bailout : R) : list MState * loop_end MState R :=
  for_each (py_range iterations) (mandelbulb_pass pos power bailout)
           (mkMState pos 1 0).

(** The statements after the loop, on the final [r] and [dr]. *)
Definition mandelbulb_estimate (r dr : R) : result R :=
  if fgt r 0.0001 && fgt dr 0 then
    l <- math.log (py_max r 0.0001) ;;
    fdiv (0.5 * l * r) dr
  else Ok 0.

(** [mandelbulb_distance(pos, power, iterations, bailout)]. *)
Definition mandelbulb_distance (pos : Vector) (power : R) (iterations : Z)
    (bailout : R) : result R :=
  match snd (mandelbulb_loop pos power iterations bailout) with
  | Returned v => Ok v
  | Raised e => Raise e
  | Exhausted st | Broke st => mandelbulb_estimate (st_r st) (st_dr st)
  end.
(** A run of [for i in xs: body] from the state [s], pass by pass: the
    states at the entry of the passes and the way the loop ended. *)
Inductive loop_run {I S A : Type} (body : I -> S -> result (flow S A))
  : list I -> S -> list S -> loop_end S A -> Prop :=
| run_exhausted (s : S) :
    loop_run body [] s [] (Exhausted s)
| run_break (i : I) (xs : list I) (s s' : S) :
    body i s = Ok (Break s') ->
    loop_run body (i :: xs) s [s] (Broke s')
| run_return (i : I) (xs : list I) (s : S) (a : A) :
    body i s = Ok (Return a) ->
    loop_run body (i :: xs) s [s] (Returned a)
| run_raise (i : I) (xs : list I) (s : S) (e : PyExn) :
    body i s = Raise e ->
    loop_run body (i :: xs) s [s] (Raised e)
| run_next (i : I) (xs : list I) (s s' : S) (tr : list S)
           (e : loop_end S A) :
    body i s = Ok (Next s') ->
    loop_run body xs s' tr e ->
    loop_run body (i :: xs) s (s :: tr) e.


(** * KleinBottle.py *)

(** Python's [int / int] (true division) and [int % int]. *)
Definition int_truediv (a b : Z) : result R :=
  if (b =? 0)%Z then Raise ZeroDivisionError else Ok (IZR a / IZR b).

Definition int_mod (a b : Z) : result Z :=
  if (b =? 0)%Z then Raise ZeroDivisionError else Ok (a mod b)%Z.

(** [l[i]] on a list: negative indices count from the end. *)
Definition py_index {A : Type} (l : list A) (i : Z) : result A :=
  let n := Z.of_nat (length l) in
  let k := if (i <? 0)%Z then (n + i)%Z else i in
  if ((k <? 0) || (n <=? k))%Z then Raise IndexError
  else match nth_error l (Z.to_nat k) with
       | Some a => Ok a
       | None => Raise IndexError
       end.

(** A loop without [break]: the body updates the state or raises. *)
Fixpoint for_fold {I S : Type} (xs : list I) (body : I -> S -> result S)
    (s : S) : result S :=
  match xs with
  | [] => Ok s
  | i :: xs' => s' <- body i s ;; for_fold xs' body s'
  end.

(** The parametrisation that the script labels figure-8 (the assignments
    to [r], [x], [y], [z]). *)
Definition klein_xyz (u v : R) : R * R * R :=
  let r := 4 * (1 - math.cos u / 2) in
  if flt u math.pi then
    let x := 6 * math.cos u * (1 + math.sin u) + r * math.cos (v + math.pi) in
    let y := 16 * math.sin u in
    let z := r * math.sin (v + math.pi) in
    (x, y, z)
  else
    let x := 6 * math.cos u * (1 + math.sin u)
             + r * math.cos u * math.cos v in
    let y := 16 * math.sin u in
    let z := r * math.sin u * math.sin v in
    (x, y, z).

(** The position given to [bm.verts.new]: [Vector((x * scale, z * scale,
    -y * scale * 0.9))] followed by [pos.z += 1.2]. *)
Definition klein_position (u v : R) : Vector :=
  let '(x, y, z) := klein_xyz u v in
  let scale := 0.08 in
  let pos := mkVector (x * scale) (z * scale) (- y * scale * 0.9) in
  mkVector (vx pos) (vy pos) (vz pos + 1.2).

(** The mesh under construction: vertices in creation order, faces as lists
    of vertex indices. *)
Record BMesh : Type := mkBMesh {
  bm_verts : list Vector;
  bm_faces : list (list nat)
}.

(** [bm.verts.new(pos)]: the new vertex is identified by its index. *)
Definition verts_new (bm : BMesh) (pos : Vector) : BMesh * nat :=
  (mkBMesh (bm_verts bm ++ [pos]) (bm_faces bm), length (bm_verts bm)).

(** The inner loop [for j in range(v_steps)] of the vertex pass: the state
    is the mesh and the [row] being filled. *)
Definition klein_row_pass (u : R) (v_steps : Z) (j : Z)
    (st : BMesh * list nat) : result (BMesh * list nat) :=
  q <- int_truediv j v_steps ;;
  let v := q * 2 * math.pi in
  let pos := klein_position u v in
  let '(bm, vert) := verts_new (fst st) pos in
  Ok (bm, snd st ++ [vert]).

(** The outer loop [for i in range(u_steps)]: the state is the mesh and the
    list [verts] of rows. *)
Definition klein_grid_pass (u_steps v_steps : Z) (i : Z)
    (st : BMesh * list (list nat)) : result (BMesh * list (list nat)) :=
  q <- int_truediv i u_steps ;;
  let u := q * 2 * math.pi in
  out <- for_fold (py_range v_steps) (klein_row_pass u v_steps)
                  (fst st, []) ;;
  Ok (fst out, snd st ++ [snd out]).

Definition klein_vertices (u_steps v_steps : Z)
  : result (BMesh * list (list nat)) :=
  for_fold (py_range u_steps) (klein_grid_pass u_steps v_steps)
           (mkBMesh [] [], []).

(** One attempt of the face pass, as recorded in the trace of the loop. *)
Record FaceStep : Type := mkFaceStep {
  fs_before : BMesh;
  fs_quad : list nat;
  fs_raised : option PyExn;
  fs_after : BMesh
}.

Section KleinFaces.

(** The host operation [bm.faces.new(verts)]: the mesh after the call, and
    the exception it raised, if any. *)
Variable faces_new : BMesh -> list nat -> BMesh * option PyExn.

(** [try: bm.faces.new(quad)  except: pass]: whatever the call raised
    is dropped, the mesh is the one the call left, and the attempt is
    appended to the trace. *)
Definition try_faces_new (st : BMesh * list FaceStep) (quad : list nat)
  : BMesh * list FaceStep :=
  let '(bm', exn) := faces_new (fst st) quad in
  (bm', snd st ++ [mkFaceStep (fst st) quad exn bm']).

(** The body of the face loop: the lookups in [verts], then the guarded
    [bm.faces.new([v1, v2, v3, v4])]. *)
Definition klein_face_pass (u_steps v_steps : Z) (verts : list (list nat))
    (i j : Z) (st : BMesh * list FaceStep)
  : result (BMesh * list FaceStep) :=
  row <- py_index verts i ;;
  v1 <- py_index row j ;;
  i1 <- int_mod (i + 1) u_steps ;;
  row1 <- py_index verts i1 ;;
  v2 <- py_index row1 j ;;
  j1 <- int_mod (j + 1) v_steps ;;
  v3 <- py_index row1 j1 ;;
  v4 <- py_index row j1 ;;
  Ok (try_faces_new st [v1; v2; v3; v4]).

Definition klein_faces (u_steps v_steps : Z) (verts : list (list nat))
    (bm : BMesh) : result (BMesh * list FaceStep) :=
  for_fold (py_range u_steps)
           (fun i st =>
              for_fold (py_range v_steps)
                       (klein_face_pass u_steps v_steps verts i) st)
           (bm, []).

(** [create_klein_bottle_mesh(u_steps, v_steps)], up to [bm.to_mesh]: the
    mesh, and the trace of the face pass. *)
Definition create_klein_bottle_mesh (u_steps v_steps : Z)
  : result (BMesh * list FaceStep) :=
  g <- klein_vertices u_steps v_steps ;;
  klein_faces u_steps v_steps (snd g) (fst g).

End KleinFaces.

(** A model of the host's [bm.faces.new]: it raises [ValueError], leaving
    the mesh as it is, when a vertex occurs twice in the face or when a face
    on the same vertices exists already. *)
Definition same_verts (f g : list nat) : bool :=
  forallb (fun a => existsb (Nat.eqb a) g) f
  && forallb (fun a => existsb (Nat.eqb a) f) g.

Fixpoint has_dup (f : list nat) : bool :=
  match f with
  | [] => false
  | a :: f' => existsb (Nat.eqb a) f' || has_dup f'
  end.

Definition bmesh_faces_new (bm : BMesh) (f : list nat)
  : BMesh * option PyExn :=
  if has_dup f || existsb (same_verts f) (bm_faces bm)
  then (bm, Some ValueError)
  else (mkBMesh (bm_verts bm) (bm_faces bm ++ [f]), None).








(** The grid parameter [(i / steps) * 2 * math.pi]. *)
Definition grid_angle (i steps : Z) : R := IZR i / IZR steps * 2 * math.pi.

(** Row [i] of the vertex grid, in creation order. *)
Definition klein_row (u_steps v_steps : Z) (i : Z) : list Vector :=
  map (fun j => klein_position (grid_angle i u_steps) (grid_angle j v_steps))
      (py_range v_steps).

(** The candidate quad of grid cell [(i, j)] on a [U] by [V] grid whose
    vertex [(i, j)] has index [i * V + j]. *)
Definition grid_quad (U V i j : nat) : list nat :=
  [ i * V + j;
    (S i mod U) * V + j;
    (S i mod U) * V + S j mod V;
    i * V + S j mod V ]%nat.

Definition grid_quads (U V : nat) : list (list nat) :=
  flat_map (fun i => map (grid_quad U V i) (seq 0 V)) (seq 0 U).

(** Consecutive steps of a trace start where the previous one ended. *)
Fixpoint chained (start : BMesh) (steps : list FaceStep) (final : BMesh)
  : Prop :=
  match steps with
  | [] => final = start
  | s :: rest => fs_before s = start /\ chained (fs_after s) rest final
  end.

(** * animations/solarsystemorbitsim.py *)

Module Orbit.

Import stdpp.base stdpp.gmap.
Local Open Scope R_scope.

(** The animated properties of a host object and its keyframes: for each
    data path, the value recorded at each frame. *)
Record Planet : Type := mkPlanet {
  location : R * R * R;
  rotation_euler : R * R * R;
  location_keys : gmap Z (R * R * R);
  rotation_z_keys : gmap Z R
}.

(** [planet.location = value]. *)
Definition set_location (value : R * R * R) (p : Planet) : Planet :=
  mkPlanet value (rotation_euler p) (location_keys p) (rotation_z_keys p).

(** [planet.rotation_euler.z = value]. *)
Definition set_rotation_z (value : R) (p : Planet) : Planet :=
  let '(rx, ry, _) := rotation_euler p in
  mkPlanet (location p) (rx, ry, value) (location_keys p)
           (rotation_z_keys p).

(** [planet.keyframe_insert(data_path="location", frame=frame)]: records
    the current location at [frame], replacing a key already there. *)
Definition keyframe_insert_location (frame : Z) (p : Planet) : Planet :=
  mkPlanet (location p) (rotation_euler p)
           (<[frame := location p]> (location_keys p))
           (rotation_z_keys p).

(** [planet.keyframe_insert(data_path="rotation_euler", frame=frame,
    index=2)]: records the current z rotation at [frame]. *)
Definition keyframe_insert_rotation_z (frame : Z) (p : Planet) : Planet :=
  mkPlanet (location p) (rotation_euler p) (location_keys p)
           (<[frame := snd (rotation_euler p)]> (rotation_z_keys p)).

(** The body of the loop of [animate_orbit]. *)
Definition animate_orbit_pass (orbit_distance orbit_speed : R) (frames : Z)
    (frame : Z) (planet : Planet) : result Planet :=
  bind (int_truediv frame frames) (fun q =>
    let angle := q * orbit_speed * 2 * math.pi in
    let x := math.cos angle * orbit_distance in
    let y := math.sin angle * orbit_distance in
    let planet := set_location (x, y, 0) planet in
    let planet := keyframe_insert_location frame planet in
    let planet := set_rotation_z angle planet in
    let planet := keyframe_insert_rotation_z frame planet in
    Ok planet).

(** [animate_orbit(planet, orbit_distance, orbit_speed, frames)]. *)
Definition animate_orbit (planet : Planet) (orbit_distance orbit_speed : R)
    (frames : Z) : result Planet :=
  for_fold (py_range2 1 (frames + 1))
           (animate_orbit_pass orbit_distance orbit_speed frames) planet.

End Orbit.

(** * The host scene and the opening of each script *)

Module Host.

Inductive ObjType : Type := MESH | CAMERA | LIGHT | ARMATURE | CURVE | EMPTY.

Inductive Mode : Type := OBJECT | EDIT | POSE.

Definition ObjType_eqb (a b : ObjType) : bool :=
  match a, b with
  | MESH, MESH | CAMERA, CAMERA | LIGHT, LIGHT
  | ARMATURE, ARMATURE | CURVE, CURVE | EMPTY, EMPTY => true
  | _, _ => false
  end.

Definition Mode_eqb (a b : Mode) : bool :=
  match a, b with
  | OBJECT, OBJECT | EDIT, EDIT | POSE, POSE => true
  | _, _ => false
  end.

(** An object of [bpy.data.objects]: its unique name, its type, whether it
    is selected, its animation data (the keyed frames) when it has any, and
    the names of its pose bones.  Every object is taken to be in the view
    layer, visible and selectable, so that [select_set] accepts it and
    [delete] removes it when it is selected. *)
Record SObj : Type := mkSObj {
  so_name : string;
  so_type : ObjType;
  so_selected : bool;
  so_animation_data : option (list Z);
  so_bones : list string
}.

(** The host state the scripts touch before they start to build:
    [bpy.context.mode], the objects, the materials and the name of the
    active object.  In the host a mode other than object mode is the mode
    of the active object. *)
Record Scene : Type := mkScene {
  sc_mode : Mode;
  sc_objects : list SObj;
  sc_materials : list string;
  sc_active : option string
}.

(** The first thing a script builds. *)
Inductive Action : Type :=
| CreateGeometry
| InsertKeyframe (target : string).

Definition find_object (name : string) (sc : Scene) : option SObj :=
  find (fun o => String.eqb (so_name o) name) (sc_objects sc).

(** [bpy.context.active_object]. *)
Definition active_object (sc : Scene) : option SObj :=
  match sc_active sc with
  | Some name => find_object name sc
  | None => None
  end.

Definition map_objects (f : SObj -> SObj) (sc : Scene) : Scene :=
  mkScene (sc_mode sc) (map f (sc_objects sc)) (sc_materials sc)
          (sc_active sc).

(** [bpy.ops.object.mode_set(mode=m)].  The operator works on the active
    object: without one its poll fails and the call raises [RuntimeError];
    a mode that the type of the active object does not have is refused
    with [TypeError] (pose mode exists for armatures only). *)
Definition has_mode (t : ObjType) (m : Mode) : bool :=
  match m, t with
  | OBJECT, _ => true
  | EDIT, (MESH | CURVE | ARMATURE) => true
  | POSE, ARMATURE => true
  | _, _ => false
  end.

Definition mode_set (m : Mode) (sc : Scene) : result Scene :=
  match active_object sc with
  | None => Raise RuntimeError
  | Some o =>
      if has_mode (so_type o) m
      then Ok (mkScene m (sc_objects sc) (sc_materials sc) (sc_active sc))
      else Raise TypeError
  end.

Definition with_selected (b : bool) (o : SObj) : SObj :=
  mkSObj (so_name o) (so_type o) b (so_animation_data o) (so_bones o).

(** [bpy.ops.object.select_all(action='SELECT')] for [true],
    [action='DESELECT'] for [false].  The poll of the operator fails
    outside object mode, and the call raises [RuntimeError]. *)
Definition select_all (b : bool) (sc : Scene) : result Scene :=
  if Mode_eqb (sc_mode sc) OBJECT
  then Ok (map_objects (with_selected b) sc)
  else Raise RuntimeError.

(** [for obj in bpy.data.objects: if keep(obj): obj.select_set(True)]. *)
Definition select_where (keep : SObj -> bool) (sc : Scene) : Scene :=
  map_objects (fun o => if keep o then with_selected true o else o) sc.

(** [bpy.context.selected_objects]. *)
Definition selected_objects (sc : Scene) : list SObj :=
  filter so_selected (sc_objects sc).

(** [bpy.ops.object.delete()]: the selected objects leave the scene.  The
    poll is that of [select_all]. *)
Definition delete (sc : Scene) : result Scene :=
  if Mode_eqb (sc_mode sc) OBJECT
  then Ok (mkScene (sc_mode sc)
                   (filter (fun o => negb (so_selected o)) (sc_objects sc))
                   (sc_materials sc)
                   (match active_object sc with
                    | Some o => if so_selected o then None else sc_active sc
                    | None => None
                    end))
  else Raise RuntimeError.

(** [for mat in bpy.data.materials: bpy.data.materials.remove(mat)]. *)
Definition remove_materials (sc : Scene) : Scene :=
  mkScene (sc_mode sc) (sc_objects sc) [] (sc_active sc).


(** [if bpy.context.mode != 'OBJECT':
    bpy.ops.object.mode_set(mode='OBJECT')]. *)
Definition ensure_object_mode (sc : Scene) : result Scene :=
  if Mode_eqb (sc_mode sc) OBJECT then Ok sc else mode_set OBJECT sc.

Definition is_mesh (o : SObj) : bool := ObjType_eqb (so_type o) MESH.

(** Each [*_start] runs a script from its first line up to its first
    creation of geometry or insertion of a keyframe, and returns the scene
    at that point with the action that comes next, [None] when the script
    ends without building anything; it raises when a host operator on the
    way refuses the context, and the script stops there. *)

(** KleinBottle.py: lines 6-17, then [create_klein_bottle_mesh]. *)
Definition KleinBottle_start (sc : Scene) : result (Scene * option Action) :=
  sc <- ensure_object_mode sc ;;
  sc <- select_all false sc ;;
  let sc := select_where (fun _ => true) sc in
  sc <- delete sc ;;
  let sc := remove_materials sc in
  Ok (sc, Some CreateGeometry).

(** Mandelbulb.py: lines 6-15, then [create_mandelbulb]. *)
Definition Mandelbulb_start (sc : Scene) : result (Scene * option Action) :=
  sc <- ensure_object_mode sc ;;
  sc <- select_all false sc ;;
  let sc := select_where is_mesh sc in
  sc <- match selected_objects sc with
        | [] => Ok sc
        | _ => delete sc
        end ;;
  Ok (sc, Some CreateGeometry).


(** spacelight.py: lines 8-9, then [create_organic_base]. *)
Definition spacelight_start (sc : Scene) : result (Scene * option Action) :=
  sc <- select_all true sc ;;
  sc <- delete sc ;;
  Ok (sc, Some CreateGeometry).











(** A scene with a cube and a camera. *)
Definition default_scene : Scene :=
  mkScene OBJECT
          [mkSObj "Cube" MESH true None [];
           mkSObj "Camera" CAMERA false None []]
          ["Material"%string] (Some "Cube"%string).


Definition object_names (sc : Scene) : list string :=
  map so_name (sc_objects sc).


End Host.

(** * [mathutils.Vector] objects by reference

    The value-level functions above treat a [Vector] as a value.  In the
    scripts a [Vector] is a mutable object: [z += pos] updates [z] in
    place, and a caller sees every change made to an object it passed in.
    This module runs [tetrahedron_vertices] and [mandelbulb_distance] on a
    store of [Vector] objects. *)

Module Ref.

Definition loc : Type := nat.

(** The store: the contents of every object, and the next free
    reference. *)
Record Heap : Type := mkHeap { cell : loc -> Vector; next : loc }.

(** A computation on the store that may raise. *)
Definition HM (A : Type) : Type := Heap -> result (A * Heap).

Definition ret {A : Type} (a : A) : HM A := fun h => Ok (a, h).

Definition hbind {A B : Type} (m : HM A) (k : A -> HM B) : HM B :=
  fun h =>
    match m h with
    | Ok (a, h') => k a h'
    | Raise e => Raise e
    end.

Definition lift {A : Type} (r : result A) : HM A :=
  fun h =>
    match r with
    | Ok a => Ok (a, h)
    | Raise e => Raise e
    end.

Declare Scope heap_scope.
Delimit Scope heap_scope with heap.
Notation "x <~ m ;; k" := (hbind m (fun x => k))
  (at level 100, m at next level, right associativity) : heap_scope.
Local Open Scope heap_scope.

Definition update (f : loc -> Vector) (l : loc) (v : Vector)
  : loc -> Vector :=
  fun l' => if Nat.eqb l' l then v else f l'.

(** [Vector((x, y, z))]: a new object. *)
Definition new_vector (v : Vector) : HM loc :=
  fun h => Ok (next h, mkHeap (update (cell h) (next h) v) (S (next h))).

Definition read (l : loc) : HM Vector := fun h => Ok (cell h l, h).

Definition write (l : loc) (v : Vector) : HM unit :=
  fun h => Ok (tt, mkHeap (update (cell h) l v) (next h)).

(** [a.copy()]. *)
Definition copy (a : loc) : HM loc := va <~ read a ;; new_vector va.

(** [a + b]: a new object. *)
Definition add (a b : loc) : HM loc :=
  va <~ read a ;; vb <~ read b ;; new_vector (vadd va vb).

(** [k * a]: a new object. *)
Definition rmul (k : R) (a : loc) : HM loc :=
  va <~ read a ;; new_vector (vscale k va).

(** [a += b]: [a] is updated in place. *)
Definition iadd (a b : loc) : HM loc :=
  va <~ read a ;; vb <~ read b ;; _ <~ write a (vadd va vb) ;; ret a.

(** [tetrahedron_vertices(center, scale)]. *)
Definition tetrahedron_vertices (center : loc) (scale : R) : HM (list loc) :=
  let h := scale * math.sqrt (2 / 3) in
  let r := scale * math.sqrt 3 / 3 in
  t0 <~ new_vector (mkVector 0 0 h) ;;
  v0 <~ add center t0 ;;
  t1 <~ new_vector (mkVector (r * math.cos 0) (r * math.sin 0) 0) ;;
  v1 <~ add center t1 ;;
  t2 <~ new_vector (mkVector (r * math.cos (2 * math.pi / 3))
                             (r * math.sin (2 * math.pi / 3)) 0) ;;
  v2 <~ add center t2 ;;
  t3 <~ new_vector (mkVector (r * math.cos (4 * math.pi / 3))
                             (r * math.sin (4 * math.pi / 3)) 0) ;;
  v3 <~ add center t3 ;;
  ret [v0; v1; v2; v3].

(** The loop variables of [mandelbulb_distance]: [z] is a reference. *)
Record RState : Type := mkRState { rs_z : loc; rs_dr : R; rs_r : R }.

(** One pass of the loop of [mandelbulb_distance]. *)
Definition mandelbulb_pass (pos : loc) (power bailout : R) (i : Z)
    (st : RState) : HM (flow RState R) :=
  let z := rs_z st in
  let dr := rs_dr st in
  zv <~ read z ;;
  let r := vlength zv in
  if fgt r bailout then ret (Break (mkRState z dr r))
  else if flt r 0.0001 then ret (Return 0)
  else
    q <~ lift (fdiv (vz zv) r) ;;
    theta <~ lift (math.acos (py_max (-1) (py_min 1 q))) ;;
    let phi := math.atan2 (vy zv) (vx zv) in
    zr <~ lift (fpow r power) ;;
    let theta := theta * power in
    let phi := phi * power in
    sin_theta <~ lift (math.sin_of theta) ;;
    cos_phi <~ lift (math.cos_of phi) ;;
    sin_phi <~ lift (math.sin_of phi) ;;
    cos_theta <~ lift (math.cos_of theta) ;;
    t <~ new_vector (mkVector (sin_theta * cos_phi)
                              (sin_theta * sin_phi)
                              cos_theta) ;;
    z <~ rmul zr t ;;
    z <~ iadd z pos ;;
    p <~ lift (fpow r (power - 1)) ;;
    let dr := p * power * dr + 1 in
    ret (Next (mkRState z dr r)).

(** [for i in xs: body] on the store.  An exception leaves the loop
    through the store monad, so the loop itself never ends as [Raised]. *)
Fixpoint for_each {I S A : Type} (xs : list I)
    (body : I -> S -> HM (flow S A)) (s : S) : HM (loop_end S A) :=
  match xs with
  | [] => ret (Exhausted s)
  | i :: xs' =>
      f <~ body i s ;;
      match f with
      | Next s' => for_each xs' body s'
      | Break s' => ret (Broke s')
      | Return a => ret (Returned a)
      end
  end.

(** [mandelbulb_distance(pos, power, iterations, bailout)]. *)
Definition mandelbulb_distance (pos : loc) (power : R) (iterations : Z)
    (bailout : R) : HM R :=
  z <~ copy pos ;;
  out <~ for_each (py_range iterations) (mandelbulb_pass pos power bailout)
                  (mkRState z 1 0) ;;
  match out with
  | Returned v => ret v
  | Raised e => lift (Raise e)
  | Exhausted st | Broke st =>
      lift (mandelbulb_estimate (rs_r st) (rs_dr st))
  end.

(** [h'] has all the objects of [h], with the same contents. *)
Definition extends (h h' : Heap) : Prop :=
  (next h <= next h')%nat
  /\ forall l, (l < next h)%nat -> cell h' l = cell h l.

(** A reference-level loop state stands for a value-level one. *)
Definition sim_state (h : Heap) (rs : RState) (st : MState) : Prop :=
  (rs_z rs < next h)%nat
  /\ cell h (rs_z rs) = st_z st
  /\ rs_dr rs = st_dr st
  /\ rs_r rs = st_r st.

(** The two levels agree on how a loop ended. *)
Definition sim_end (e' : loop_end RState R) (e : loop_end MState R) : Prop :=
  match e', e with
  | Exhausted rs, Exhausted st | Broke rs, Broke st =>
      rs_dr rs = st_dr st /\ rs_r rs = st_r st
  | Returned a, Returned b => a = b
  | _, _ => False
  end.

(** A store with a single object. *)
Definition single (v : Vector) : Heap := mkHeap (fun _ => v) 1%nat.

End Ref.

(** * Mandelbulb.py: the vertex pass of [create_mandelbulb] *)

(** [v / k] on a [Vector]: raises [ZeroDivisionError] when [k] is zero. *)
Definition vdiv (a : Vector) (k : R) : result Vector :=
  if feq k 0 then Raise ZeroDivisionError
  else Ok (mkVector (vx a / k) (vy a / k) (vz a / k)).

(** The body of [for vert in bm.verts]: the vertex coordinate [co] is moved
    along [normal] by the scaled distance estimate at [co / scale]. *)
Definition displace_vertex (scale power : R) (vert : Vector * Vector)
  : result (Vector * Vector) :=
  let '(co, normal) := vert in
  pos <- vdiv co scale ;;
  dist <- mandelbulb_distance pos power 12 2 ;;
  let displacement := - dist * scale * 0.3 in
  Ok (vadd co (vscale displacement normal), normal).

(** The whole loop, on the (coordinate, normal) pairs of the mesh. *)
Fixpoint displace_vertices (scale power : R) (verts : list (Vector * Vector))
  : result (list (Vector * Vector)) :=
  match verts with
  | [] => Ok []
  | vert :: rest =>
      v' <- displace_vertex scale power vert ;;
      rest' <- displace_vertices scale power rest ;;
      Ok (v' :: rest')
  end.

(** * SierpinskiPyramid.py: the mesh of one tetrahedron *)

Definition vsub (a b : Vector) : Vector :=
  mkVector (vx a - vx b) (vy a - vy b) (vz a - vz b).

Definition vdot (a b : Vector) : R :=
  vx a * vx b + vy a * vy b + vz a * vz b.

Definition vcross (a b : Vector) : Vector :=
  mkVector (vy a * vz b - vz a * vy b)
           (vz a * vx b - vx a * vz b)
           (vx a * vy b - vy a * vx b).

(** The mean of a list of points. *)
Definition centroid (ps : list Vector) : Vector :=
  let n := INR (length ps) in
  mkVector (fold_right (fun p s => vx p + s) 0 ps / n)
           (fold_right (fun p s => vy p + s) 0 ps / n)
           (fold_right (fun p s => vz p + s) 0 ps / n).

(** The directed edges of a face, in its winding order. *)
Definition face_edges (f : list nat) : list (nat * nat) :=
  match f with
  | [] => []
  | a :: rest => combine f (rest ++ [a])
  end.

Definition edge_eqb (e1 e2 : nat * nat) : bool :=
  Nat.eqb (fst e1) (fst e2) && Nat.eqb (snd e1) (snd e2).

Definition count_edge (e : nat * nat) (es : list (nat * nat)) : nat :=
  length (filter (edge_eqb e) es).

(** A closed, consistently wound surface: every directed edge occurs once,
    and so does its reverse. *)
Definition closed_surface (faces : list (list nat)) : bool :=
  let es := flat_map face_edges faces in
  forallb (fun e => Nat.eqb (count_edge e es) 1
                    && Nat.eqb (count_edge (snd e, fst e) es) 1) es.

(** The winding of a triangle points away from the point [g]: its normal
    [(b - a) x (c - a)] has a positive component along [a - g]. *)
Definition faces_away (verts : list Vector) (g : Vector) (f : list nat)
  : Prop :=
  match map (fun i => nth_error verts i) f with
  | [Some a; Some b; Some c] =>
      vdot (vcross (vsub b a) (vsub c a)) (vsub a g) > 0
  | _ => False
  end.

(** * SierpinskiPyramid.py: gradient materials *)

(** A material as [create_gradient_materials] sets it up: its name and the
    RGB part of the base color (alpha is [1.0]; metallic, roughness and
    specular are the constants [0.6], [0.3], [0.5]). *)
Record Material : Type := mkMaterial {
  mat_name : string;
  mat_color : R * R * R
}.

(** [tuple(color_start[j] * (1 - t) + color_end[j] * t for j in range(3))]. *)
Definition mix_color (color_start color_end : R * R * R) (t : R)
  : R * R * R :=
  let '(r0, g0, b0) := color_start in
  let '(r1, g1, b1) := color_end in
  (r0 * (1 - t) + r1 * t, g0 * (1 - t) + g1 * t, b0 * (1 - t) + b1 * t).

(** The body of the loop of [create_gradient_materials]. *)
Definition gradient_pass (count : Z) (color_start color_end : R * R * R)
    (i : Z) (materials : list Material) : result (list Material) :=
  t <- int_truediv i (Z.max (count - 1) 1) ;;
  let color := mix_color color_start color_end t in
  let mat := mkMaterial ("Sierpinski_Mat_" ++ str_of_Z i)%string color in
  Ok (materials ++ [mat]).

(** [create_gradient_materials(count, color_start, color_end)]. *)
Definition create_gradient_materials (count : Z)
    (color_start color_end : R * R * R) : result (list Material) :=
  for_fold (py_range count) (gradient_pass count color_start color_end) [].

(** A component of the mixed color lies between the two ends. *)
Definition between (a b x : R) : Prop := Rmin a b <= x <= Rmax a b.

Definition color_between (c0 c1 c : R * R * R) : Prop :=
  between (fst (fst c0)) (fst (fst c1)) (fst (fst c))
  /\ between (snd (fst c0)) (snd (fst c1)) (snd (fst c))
  /\ between (snd c0) (snd c1) (snd c).

(** The material made for index [i]. *)
Definition gradient_material (count : Z) (c0 c1 : R * R * R) (i : Z)
  : Material :=
  mkMaterial ("Sierpinski_Mat_" ++ str_of_Z i)%string
             (mix_color c0 c1 (IZR i / IZR (Z.max (count - 1) 1))).

(** [int(x)] on a float: truncation towards zero. *)
Definition py_int (x : R) : Z :=
  if flt x 0 then (- Int_part (- x))%Z else Int_part x.

Section Sorted.

Context {A : Type}.
Variable key : A -> R.

(** [sorted(xs, key=key)]: ascending and stable; an element goes after
    the elements whose key is not greater. *)
Fixpoint insert_by (x : A) (l : list A) : list A :=
  match l with
  | [] => [x]
  | y :: l' =>
      if flt (key x) (key y) then x :: y :: l'
      else y :: insert_by x l'
  end.

Definition py_sorted (l : list A) : list A :=
  fold_left (fun acc x => insert_by x acc) l [].

End Sorted.

Section AssignMaterials.

(** The host attribute [o.location.z]. *)
Variable location_z : Object -> R.

(** Rounding to the nearest float.  The script takes the integer part of
    a rounded product of a rounded quotient, and where the exact product
    is a whole number the rounded one can fall just below it: the
    rounding is kept as a parameter, and the theorems state what they
    assume of it. *)
Variable rnd : R -> R.

(** The index the code computes for rank [i] among [n] objects and [m]
    materials: [min(int((i / n) * m), m - 1)]. *)
Definition material_index (n m i : Z) : Z :=
  Z.min (py_int (rnd (rnd (IZR i / IZR n) * IZR m))) (m - 1).

(** The body of the loop of [assign_materials_by_depth]: the material
    chosen for the object of rank [i]. *)
Definition assign_pass (n : Z) (materials : list Material)
    (i : Z) (obj : Object) : result (Object * Material) :=
  q <- int_truediv i n ;;
  let mat_index :=
    py_int (rnd (rnd q * IZR (Z.of_nat (length materials)))) in
  let mat_index := Z.min mat_index (Z.of_nat (length materials) - 1) in
  mat <- py_index materials mat_index ;;
  Ok (obj, mat).

(** [for i, obj in enumerate(sorted_objs)], from index [i]. *)
Fixpoint assign_from (n : Z) (materials : list Material) (i : Z)
    (objs : list Object) : result (list (Object * Material)) :=
  match objs with
  | [] => Ok []
  | obj :: rest =>
      a <- assign_pass n materials i obj ;;
      rest' <- assign_from n materials (i + 1)%Z rest ;;
      Ok (a :: rest')
  end.

(** [assign_materials_by_depth(objects, materials)]: each object with
    the material it ends up with in slot 0. *)
Definition assign_materials_by_depth (objects : list Object)
    (materials : list Material) : result (list (Object * Material)) :=
  let sorted_objs := py_sorted location_z objects in
  assign_from (Z.of_nat (length sorted_objs)) materials 0%Z sorted_objs.

End AssignMaterials.

(** Python's [enumerate]. *)
Definition enumerate {A : Type} (l : list A) : list (Z * A) :=
  combine (map Z.of_nat (seq 0 (length l))) l.

(** * solarsystemorbitsim.py: the orbit path *)

(** The body of [for i, point in enumerate(spline.points)] in
    [create_orbit_path]: the new [point.co]. *)
Definition orbit_path_point (orbit_distance : R) (segments : Z) (i : Z)
  : result (R * R * R * R) :=
  q <- int_truediv i segments ;;
  let angle := q * 2 * math.pi in
  let x := math.cos angle * orbit_distance in
  let y := math.sin angle * orbit_distance in
  Ok (x, y, 0, 1).

Fixpoint orbit_path_points (orbit_distance : R) (segments : Z)
    (indices : list Z) : result (list (R * R * R * R)) :=
  match indices with
  | [] => Ok []
  | i :: rest =>
      co <- orbit_path_point orbit_distance segments i ;;
      cos' <- orbit_path_points orbit_distance segments rest ;;
      Ok (co :: cos')
  end.

(** [create_orbit_path(orbit_distance, segments)], for [segments >= 0]: the
    control points of the spline.  A new spline has one point and
    [spline.points.add(segments)] appends [segments] more, so the loop
    visits the indices [0 .. segments]. *)
Definition create_orbit_path (orbit_distance : R) (segments : Z)
  : result (list (R * R * R * R)) :=
  orbit_path_points orbit_distance segments (py_range (1 + segments)).

(** [range(a, b, step)] for a positive step. *)
Definition py_range3 (a b step : Z) : list Z :=
  map (fun k => (a + step * Z.of_nat k)%Z)
      (seq 0 (Z.to_nat ((b - a + step - 1) / step))).

(** * Keyframed objects and bones: basicanimations.py, proceduralwalk.py *)

Module Anim.

Import stdpp.base stdpp.gmap stdpp.strings.
Local Open Scope R_scope.

(** The animated properties the scripts key. *)
Inductive Path : Type := Location | RotationEuler | Scale.

Definition Path_eqb (a b : Path) : bool :=
  match a, b with
  | Location, Location | RotationEuler, RotationEuler | Scale, Scale => true
  | _, _ => false
  end.

(** An object or a pose bone: the current values of its properties and its
    animation curves, one per property and array index, each a map from
    frame to keyed value. *)
Record Target : Type := mkTarget {
  location : R * R * R;
  rotation_euler : R * R * R;
  scale : R * R * R;
  keys : Path -> nat -> gmap Z R
}.

Definition component (i : nat) (t : R * R * R) : R :=
  match i with
  | O => fst (fst t)
  | S O => snd (fst t)
  | _ => snd t
  end.

Definition property (p : Path) (tg : Target) : R * R * R :=
  match p with
  | Location => location tg
  | RotationEuler => rotation_euler tg
  | Scale => scale tg
  end.

Definition set_location (v : R * R * R) (tg : Target) : Target :=
  mkTarget v (rotation_euler tg) (scale tg) (keys tg).


Definition set_scale (v : R * R * R) (tg : Target) : Target :=
  mkTarget (location tg) (rotation_euler tg) v (keys tg).

(** [t.location.x = v], [.y], [.z]. *)
Definition set_location_x (v : R) (tg : Target) : Target :=
  set_location (v, snd (fst (location tg)), snd (location tg)) tg.
Definition set_location_y (v : R) (tg : Target) : Target :=
  set_location (fst (fst (location tg)), v, snd (location tg)) tg.
Definition set_location_z (v : R) (tg : Target) : Target :=
  set_location (fst (fst (location tg)), snd (fst (location tg)), v) tg.


(** Keying one array index of a property at a frame: the current value is
    recorded, replacing a key already at that frame. *)
Definition key_channel (p : Path) (i : nat) (frame : Z) (tg : Target)
  : Target :=
  mkTarget (location tg) (rotation_euler tg) (scale tg)
           (fun p' i' =>
              if Path_eqb p' p && Nat.eqb i' i
              then <[frame := component i (property p tg)]> (keys tg p' i')
              else keys tg p' i').

(** [t.keyframe_insert(data_path=p, frame=frame, index=index)]; without
    [index] all three array indices are keyed. *)
Definition keyframe_insert (p : Path) (frame : Z) (index : option nat)
    (tg : Target) : Target :=
  match index with
  | Some i => key_channel p i frame tg
  | None =>
      key_channel p 2 frame (key_channel p 1 frame (key_channel p 0 frame tg))
  end.


(** ** basicanimations.py *)

(** [animate_scale_pulse(obj, duration)]. *)
Definition animate_scale_pulse (obj : Target) (duration : Z) : Target :=
  let original_scale := scale obj in
  let obj := keyframe_insert Scale 1 None obj in
  let obj :=
    set_scale (fst (fst original_scale) * 1.5,
               snd (fst original_scale) * 1.5,
               snd original_scale * 1.5) obj in
  let obj := keyframe_insert Scale (duration / 2) None obj in
  let obj := set_scale original_scale obj in
  keyframe_insert Scale duration None obj.

(** [animate_bounce(obj, duration)]. *)
Definition animate_bounce (obj : Target) (duration : Z) : Target :=
  let original_z := snd (location obj) in
  let obj := keyframe_insert Location 1 (Some 2%nat) obj in
  let obj := set_location_z (original_z + 2) obj in
  let obj := keyframe_insert Location (duration / 2) None obj in
  let obj := set_location_z original_z obj in
  keyframe_insert Location duration None obj.

(** The body of the loop of [animate_wave]. *)
Definition animate_wave_pass (original_z : R) (offset duration : Z)
    (frame : Z) (obj : Target) : result Target :=
  bind (int_truediv (frame + offset) duration) (fun q =>
    let phase := q * math.pi * 4 in
    let obj := set_location_z (original_z + math.sin phase * 1.5) obj in
    Ok (keyframe_insert Location frame (Some 2%nat) obj)).

(** [animate_wave(obj, duration, index)]. *)
Definition animate_wave (obj : Target) (duration index : Z) : result Target :=
  let original_z := snd (location obj) in
  let offset := (index * 10)%Z in
  for_fold (py_range3 1 (duration + 1) 5)
           (animate_wave_pass original_z offset duration) obj.

(** The body of the loop of [animate_orbit]. *)
Definition animate_orbit_pass (radius : R) (offset duration : Z)
    (frame : Z) (obj : Target) : result Target :=
  bind (int_truediv frame duration) (fun q =>
    let angle := (q * 360 + IZR offset) * math.pi / 180 in
    let obj := set_location_x (math.cos angle * radius) obj in
    let obj := set_location_y (math.sin angle * radius) obj in
    let obj := keyframe_insert Location frame (Some 0%nat) obj in
    Ok (keyframe_insert Location frame (Some 1%nat) obj)).

(** The radius [animate_orbit] settles on. *)
Definition orbit_radius (obj : Target) : R :=
  let original_loc := location obj in
  let radius :=
    math.sqrt (fst (fst original_loc) * fst (fst original_loc)
               + snd (fst original_loc) * snd (fst original_loc)) in
  if flt radius 0.1 then 3 else radius.

(** [animate_orbit(obj, duration, index)]. *)
Definition animate_orbit (obj : Target) (duration index : Z)
  : result Target :=
  let radius := orbit_radius obj in
  let offset := ((index * 60) mod 360)%Z in
  for_fold (py_range3 1 (duration + 1) 2)
           (animate_orbit_pass radius offset duration) obj.

(** ** proceduralwalk.py *)

Definition HIP_SWAY : R := 0.1.




(** The body of the loop of [animate_hip]; [use_object] tells whether the
    target is the armature object (no hip bone) or the hip bone. *)
Definition animate_hip_pass (use_object : bool) (frames : Z) (frame : Z)
    (target : Target) : result Target :=
  bind (int_truediv (frame - 1) frames) (fun t =>
    let angle := t * 2 * math.pi in
    let bob := Rabs (math.sin (angle * 2)) * 0.05 in
    let sway := math.sin angle * HIP_SWAY in
    if use_object then
      let original_z := snd (location target) in
      let target := set_location_z (original_z + bob) target in
      let target := set_location_x sway target in
      Ok (keyframe_insert Location frame None target)
    else
      let target := set_location_z bob target in
      let target := set_location_x sway target in
      Ok (keyframe_insert Location frame None target)).

(** The loop of [animate_hip] on its target. *)
Definition animate_hip_target (use_object : bool) (frames : Z)
    (target : Target) : result Target :=
  for_fold (py_range2 1 (frames + 1)) (animate_hip_pass use_object frames)
           target.

End Anim.

(** * Properties *)

(** ** Sierpinski recursion *)

Section SierpinskiUnfold.

Variables (hollow : bool) (center : Vector) (scale : R).
Variables (depth max_depth total_count : Z).

(** The step of the [for vert in verts] loop. *)
Let step (st : list Object * Z) (vert : Vector) : list Object * Z :=
  let r := sierpinski_recursive hollow vert (scale / 2) (depth + 1)%Z
                                max_depth (snd st) in
  (fst st ++ fst r, snd r).

Lemma sierpinski_recursive_leaf :
  (depth >= max_depth)%Z ->
  sierpinski_recursive hollow center scale depth max_depth total_count =
  ([create_single_tetrahedron center scale (tetra_name depth total_count)],
   (total_count + 1)%Z).
Proof.
  intros Hge. rewrite sierpinski_recursive_equation_1.
  destruct (Z_ge_dec depth max_depth) as [g | g]; [reflexivity | contradiction].
Qed.

Lemma sierpinski_recursive_node :
  (depth < max_depth)%Z ->
  sierpinski_recursive hollow center scale depth max_depth total_count =
  fold_left step (tetrahedron_vertices center scale) ([], total_count).
Proof.
  intros Hlt. rewrite sierpinski_recursive_equation_1.
  destruct (Z_ge_dec depth max_depth) as [g | g]; [lia |].
  simpl. destruct (hollow && (depth <? max_depth - 1)%Z); reflexivity.
Qed.

End SierpinskiUnfold.

Lemma build_leaves_app (lvl : Z) (a b : list (Vector * R)) :
  forall cnt,
    build_leaves lvl cnt (a ++ b) =
    build_leaves lvl cnt a ++ build_leaves lvl (cnt + Z.of_nat (length a)) b.
Proof.
  induction a as [| t a IH]; intros cnt.
  - simpl. now rewrite Z.add_0_r.
  - cbn [app build_leaves length]. rewrite IH. cbn [app].
    do 3 f_equal. lia.
Qed.

Lemma build_leaves_length (lvl : Z) (ts : list (Vector * R)) :
  forall cnt, length (build_leaves lvl cnt ts) = length ts.
Proof. induction ts; intros; simpl; auto. Qed.

Lemma build_leaves_created (lvl : Z) (ts : list (Vector * R)) :
  forall cnt, Forall2 created_with (build_leaves lvl cnt ts) ts.
Proof.
  induction ts as [| t ts IH]; intros cnt; simpl; constructor; auto.
  now exists (tetra_name lvl cnt).
Qed.

(** The loop over the vertices, given what each recursive call returns. *)
Lemma fold_calls (lvl : Z) (f : Vector -> Z -> list Object * Z)
    (g : Vector -> list (Vector * R)) :
  (forall v cnt,
      f v cnt = (build_leaves lvl cnt (g v),
                 (cnt + Z.of_nat (length (g v)))%Z)) ->
  forall verts acc cnt,
    fold_left (fun st v => let r := f v (snd st) in (fst st ++ fst r, snd r))
              verts (acc, cnt) =
    (acc ++ build_leaves lvl cnt (flat_map g verts),
     (cnt + Z.of_nat (length (flat_map g verts)))%Z).
Proof.
  intros Hf. induction verts as [| v verts IH]; intros acc cnt.
  - simpl. now rewrite app_nil_r, Z.add_0_r.
  - cbn [fold_left flat_map]. cbv zeta. rewrite Hf. cbn [fst snd].
    rewrite IH, build_leaves_app, length_app, <- app_assoc.
    f_equal. lia.
Qed.

(** What [sierpinski_recursive] returns, [n] levels above the leaves. *)
Lemma sierpinski_recursive_spec (hollow : bool) (max_depth : Z) (n : nat) :
  forall center scale depth total_count,
    (depth + Z.of_nat n = max_depth)%Z ->
    sierpinski_recursive hollow center scale depth max_depth total_count =
    (build_leaves max_depth total_count (dfs_leaves n center scale),
     (total_count + Z.of_nat (length (dfs_leaves n center scale)))%Z).
Proof.
  induction n as [| n IH]; intros center scale depth total_count Hd.
  - rewrite sierpinski_recursive_leaf by lia.
    replace depth with max_depth by lia. reflexivity.
  - rewrite sierpinski_recursive_node by lia.
    cbn [dfs_leaves].
    rewrite (fold_calls max_depth
               (fun v c => sierpinski_recursive hollow v (scale / 2)
                                                (depth + 1)%Z max_depth c)
               (fun v => dfs_leaves n v (scale / 2))).
    + reflexivity.
    + intros v cnt. apply IH. lia.
Qed.

Lemma tetrahedron_vertices_length (c : Vector) (k : R) :
  length (tetrahedron_vertices c k) = 4%nat.
Proof. reflexivity. Qed.

Lemma dfs_leaves_length (n : nat) :
  forall c k, length (dfs_leaves n c k) = (4 ^ n)%nat.
Proof.
  induction n as [| n IH]; intros c k; [reflexivity |].
  cbn [dfs_leaves]. unfold tetrahedron_vertices. cbn [flat_map].
  rewrite !length_app, !IH. simpl. lia.
Qed.

Lemma dfs_leaves_scale (n : nat) :
  forall c k, Forall (fun t => snd t = k / 2 ^ n) (dfs_leaves n c k).
Proof.
  induction n as [| n IH]; intros c k.
  - simpl. constructor; [simpl; field | constructor].
  - cbn [dfs_leaves]. apply Forall_flat_map. apply Forall_forall.
    intros v _. eapply Forall_impl; [| apply IH].
    intros t Ht. cbv beta in Ht. rewrite Ht. simpl. field.
    apply pow_nonzero. lra.
Qed.

Lemma iter_subdivide_app (n : nat) :
  forall a b,
    Nat.iter n (flat_map spec_subdivide) (a ++ b) =
    Nat.iter n (flat_map spec_subdivide) a ++
    Nat.iter n (flat_map spec_subdivide) b.
Proof.
  induction n as [| n IH]; intros a b; [reflexivity |].
  rewrite !Nat.iter_succ_r, flat_map_app. apply IH.
Qed.

Lemma iter_subdivide_flat (n : nat) (l : list (Vector * R)) :
  Nat.iter n (flat_map spec_subdivide) l =
  flat_map (fun t => Nat.iter n (flat_map spec_subdivide) [t]) l.
Proof.
  induction l as [| t l IH].
  - simpl. induction n; [reflexivity | now rewrite Nat.iter_succ_r].
  - change (t :: l) with ([t] ++ l). rewrite iter_subdivide_app, IH.
    reflexivity.
Qed.

(** The depth-first order of the recursion is the order of the rule applied
    level by level. *)
Lemma dfs_leaves_spec (n : nat) :
  forall c k, dfs_leaves n c k = spec_leaves n c k.
Proof.
  unfold spec_leaves.
  induction n as [| n IH]; intros c k; [reflexivity |].
  rewrite Nat.iter_succ_r. cbn [flat_map]. rewrite app_nil_r.
  rewrite iter_subdivide_flat. unfold spec_subdivide at 2. cbn [fst snd].
  rewrite flat_map_concat_map, map_map, <- flat_map_concat_map.
  cbn [dfs_leaves]. apply flat_map_ext. intros v. apply IH.
Qed.

(** C1: for a recursion depth [n >= 0], [create_sierpinski_pyramid] creates
    exactly [4^n] tetrahedra; they are, in order, the tetrahedra that [n]
    rounds of the subdivision rule produce from the base tetrahedron, each
    created with scale [size / 2^n].  It holds for every base size, in
    particular for every positive one. *)
Theorem create_sierpinski_pyramid_leaves (base_center : Vector) (size : R)
    (iterations : Z) (hollow : bool) :
  (0 <= iterations)%Z -> size > 0 ->
  let objs := create_sierpinski_pyramid base_center size iterations hollow in
  let leaves := spec_leaves (Z.to_nat iterations) base_center size in
  Z.of_nat (length objs) = (4 ^ iterations)%Z
  /\ Forall2 created_with objs leaves
  /\ Forall (fun t => snd t = size / 2 ^ Z.to_nat iterations) leaves.
Proof.
  intros Hn _ objs leaves. subst objs leaves.
  unfold create_sierpinski_pyramid.
  rewrite (sierpinski_recursive_spec hollow iterations (Z.to_nat iterations))
    by lia.
  cbn [fst]. rewrite <- dfs_leaves_spec. repeat split.
  - rewrite build_leaves_length, dfs_leaves_length.
    rewrite Nat2Z.inj_pow. f_equal. lia.
  - apply build_leaves_created.
  - apply dfs_leaves_scale.
Qed.

Lemma create_sierpinski_pyramid_leaves_witness :
  let objs := create_sierpinski_pyramid (mkVector 0 0 0) 4 5 false in
  let leaves := spec_leaves (Z.to_nat 5) (mkVector 0 0 0) 4 in
  Z.of_nat (length objs) = (4 ^ 5)%Z
  /\ Forall2 created_with objs leaves
  /\ Forall (fun t => snd t = 4 / 2 ^ Z.to_nat 5) leaves.
Proof.
  apply (create_sierpinski_pyramid_leaves (mkVector 0 0 0) 4 5 false);
    [lia | lra].
Defined.

(** The [hollow] flag does not change what a call returns. *)
Lemma sierpinski_recursive_hollow (max_depth : Z) (n : nat) :
  forall center scale depth total_count,
    Z.to_nat (max_depth - depth) = n ->
    sierpinski_recursive true center scale depth max_depth total_count =
    sierpinski_recursive false center scale depth max_depth total_count.
Proof.
  induction n as [| n IH]; intros center scale depth total_count Hn.
  - rewrite !sierpinski_recursive_leaf by lia. reflexivity.
  - rewrite !sierpinski_recursive_node by lia.
    generalize (@nil Object, total_count).
    induction (tetrahedron_vertices center scale) as [| v vs IHv];
      intros st; [reflexivity |].
    cbn [fold_left]. rewrite IH by lia. apply IHv.
Qed.

(** C9: [create_sierpinski_pyramid] called with [hollow=True] returns the
    same list of tetrahedra (same centers, scales, names and order) as with
    [hollow=False], for every base center, size and iteration count. *)
Theorem create_sierpinski_pyramid_hollow (base_center : Vector) (size : R)
    (iterations : Z) :
  create_sierpinski_pyramid base_center size iterations true =
  create_sierpinski_pyramid base_center size iterations false.
Proof.
  unfold create_sierpinski_pyramid.
  now rewrite (sierpinski_recursive_hollow iterations
                 (Z.to_nat (iterations - 0))).
Qed.

(** ** The tetrahedron *)

Lemma sqrt3_sq : R_sqrt.sqrt 3 * R_sqrt.sqrt 3 = 3.
Proof. apply sqrt_def. lra. Qed.

Lemma sqrt23_sq : R_sqrt.sqrt (2 / 3) * R_sqrt.sqrt (2 / 3) = 2 / 3.
Proof. apply sqrt_def. lra. Qed.

Lemma cos_2pi3 : math.cos (2 * math.pi / 3) = - (1 / 2).
Proof.
  unfold math.cos, math.pi.
  replace (2 * PI / 3) with (2 * (PI / 3)) by field.
  rewrite cos_2PI3. lra.
Qed.

Lemma sin_2pi3 : math.sin (2 * math.pi / 3) = R_sqrt.sqrt 3 / 2.
Proof.
  unfold math.sin, math.pi.
  replace (2 * PI / 3) with (2 * (PI / 3)) by field.
  apply sin_2PI3.
Qed.

Lemma cos_4pi3 : math.cos (4 * math.pi / 3) = - (1 / 2).
Proof.
  unfold math.cos, math.pi.
  replace (4 * PI / 3) with (PI / 3 + PI) by field.
  rewrite neg_cos, cos_PI3. lra.
Qed.

Lemma sin_4pi3 : math.sin (4 * math.pi / 3) = - (R_sqrt.sqrt 3 / 2).
Proof.
  unfold math.sin, math.pi.
  replace (4 * PI / 3) with (PI / 3 + PI) by field.
  rewrite neg_sin, sin_PI3. lra.
Qed.

(** The vertices in closed form. *)
Lemma tetrahedron_vertices_closed (c : Vector) (s : R) :
  tetrahedron_vertices c s =
  [ mkVector (vx c + 0) (vy c + 0) (vz c + s * R_sqrt.sqrt (2 / 3));
    mkVector (vx c + s * R_sqrt.sqrt 3 / 3 * 1)
             (vy c + s * R_sqrt.sqrt 3 / 3 * 0) (vz c + 0);
    mkVector (vx c + s * R_sqrt.sqrt 3 / 3 * - (1 / 2))
             (vy c + s * R_sqrt.sqrt 3 / 3 * (R_sqrt.sqrt 3 / 2)) (vz c + 0);
    mkVector (vx c + s * R_sqrt.sqrt 3 / 3 * - (1 / 2))
             (vy c + s * R_sqrt.sqrt 3 / 3 * - (R_sqrt.sqrt 3 / 2))
             (vz c + 0) ].
Proof.
  unfold tetrahedron_vertices, vadd, math.sqrt. cbn [vx vy vz].
  rewrite cos_2pi3, sin_2pi3, cos_4pi3, sin_4pi3.
  unfold math.cos, math.sin. rewrite cos_0, sin_0. reflexivity.
Qed.

(** A square root of a perfect square. *)
Lemma sqrt_is (x y : R) : 0 <= y -> y * y = x -> R_sqrt.sqrt x = y.
Proof.
  intros Hy E. apply sqrt_lem_1; [rewrite <- E; nra | exact Hy | exact E].
Qed.

(** C10: for a positive scale [s], [tetrahedron_vertices c s] returns four
    points whose six pairwise distances all equal [s]; the three base
    vertices have the height of [c], and the apex is straight above [c], at
    height [s * sqrt (2/3)]. *)
Theorem tetrahedron_vertices_regular (c : Vector) (s : R) :
  s > 0 ->
  exists v0 v1 v2 v3,
    tetrahedron_vertices c s = [v0; v1; v2; v3]
    /\ vdist v0 v1 = s /\ vdist v0 v2 = s /\ vdist v0 v3 = s
    /\ vdist v1 v2 = s /\ vdist v1 v3 = s /\ vdist v2 v3 = s
    /\ vz v1 = vz c /\ vz v2 = vz c /\ vz v3 = vz c
    /\ vx v0 = vx c /\ vy v0 = vy c
    /\ vz v0 = vz c + s * R_sqrt.sqrt (2 / 3).
Proof.
  intros Hs. rewrite tetrahedron_vertices_closed.
  do 4 eexists. split; [reflexivity |].
  pose proof sqrt3_sq as Ha. pose proof sqrt23_sq as Hb.
  set (a := R_sqrt.sqrt 3) in *. set (b := R_sqrt.sqrt (2 / 3)) in *.
  unfold vdist. cbn [vx vy vz].
  assert (Ha2 : s * s * (a * a) = 3 * (s * s)) by (rewrite Ha; ring).
  assert (Ha4 : s * s * (a * a * a * a) = 9 * (s * s))
    by (replace (a * a * a * a) with ((a * a) * (a * a)) by ring;
        rewrite Ha; ring).
  assert (Hb2 : s * s * (b * b) = 2 / 3 * (s * s)) by (rewrite Hb; ring).
  repeat split; try lra; apply sqrt_is; lra.
Qed.

Lemma tetrahedron_vertices_regular_witness :
  exists v0 v1 v2 v3,
    tetrahedron_vertices (mkVector 0 0 0) 4 = [v0; v1; v2; v3]
    /\ vdist v0 v1 = 4 /\ vdist v0 v2 = 4 /\ vdist v0 v3 = 4
    /\ vdist v1 v2 = 4 /\ vdist v1 v3 = 4 /\ vdist v2 v3 = 4
    /\ vz v1 = vz (mkVector 0 0 0) /\ vz v2 = vz (mkVector 0 0 0)
    /\ vz v3 = vz (mkVector 0 0 0)
    /\ vx v0 = vx (mkVector 0 0 0) /\ vy v0 = vy (mkVector 0 0 0)
    /\ vz v0 = vz (mkVector 0 0 0) + 4 * R_sqrt.sqrt (2 / 3).
Proof. apply (tetrahedron_vertices_regular (mkVector 0 0 0) 4). lra. Defined.

(** ** Mandelbulb distance estimate *)

Lemma fgt_true (a b : R) : a > b -> fgt a b = true.
Proof.
  intros H. unfold fgt.
  destruct (Rgt_dec a b); [reflexivity | contradiction].
Qed.

Lemma fgt_false (a b : R) : a <= b -> fgt a b = false.
Proof.
  intros H. unfold fgt. destruct (Rgt_dec a b); [lra | reflexivity].
Qed.

Lemma flt_true (a b : R) : a < b -> flt a b = true.
Proof.
  intros H. unfold flt.
  destruct (Rlt_dec a b); [reflexivity | contradiction].
Qed.

Lemma flt_false (a b : R) : b <= a -> flt a b = false.
Proof.
  intros H. unfold flt. destruct (Rlt_dec a b); [lra | reflexivity].
Qed.

Lemma feq_false (a b : R) : a <> b -> feq a b = false.
Proof.
  intros H. unfold feq.
  destruct (Req_dec_T a b); [contradiction | reflexivity].
Qed.

(** The clamp [max(-1.0, min(1.0, q))] lands in [-1, 1]. *)
Lemma clamp_range (q : R) : -1 <= py_max (-1) (py_min 1 q) <= 1.
Proof.
  unfold py_max, py_min, fgt, flt.
  destruct (Rlt_dec q 1); destruct (Rgt_dec _ (-1)); lra.
Qed.

Lemma acos_clamp (q : R) :
  math.acos (py_max (-1) (py_min 1 q)) =
  Ok (Ratan.acos (py_max (-1) (py_min 1 q))).
Proof.
  pose proof (clamp_range q) as [H1 H2]. unfold math.acos.
  rewrite flt_false, fgt_false by lra. reflexivity.
Qed.

Lemma vlength_x (x : R) : 0 <= x -> vlength (mkVector x 0 0) = x.
Proof.
  intros Hx. unfold vlength. cbn [vx vy vz]. apply sqrt_is; [exact Hx | ring].
Qed.

(** *** The range of the floats *)

Lemma float_max_lower : 2 ^ 1023 <= float_max.
Proof.
  unfold float_max.
  assert (HA : 0 < 2 ^ 1023) by (apply pow_lt; lra).
  assert (HB : 0 < / 2 ^ 52 <= 1).
  { assert (H1 : 1 <= 2 ^ 52) by (apply pow_R1_Rle; lra).
    split; [apply Rinv_0_lt_compat; lra |].
    rewrite <- Rinv_1. apply Rinv_le_contravar; lra. }
  set (A := 2 ^ 1023) in *. set (B := / 2 ^ 52) in *. nra.
Qed.

Lemma float_max_upper : float_max < 2 ^ 1024.
Proof.
  unfold float_max. rewrite <- (tech_pow_Rmult 2 1023).
  assert (HA : 0 < 2 ^ 1023) by (apply pow_lt; lra).
  assert (HB : 0 < / 2 ^ 52).
  { apply Rinv_0_lt_compat. apply pow_lt. lra. }
  set (A := 2 ^ 1023) in *. set (B := / 2 ^ 52) in *. nra.
Qed.

Lemma float_max_pos : 0 < float_max.
Proof.
  apply Rlt_le_trans with (2 ^ 1023); [apply pow_lt; lra |].
  apply float_max_lower.
Qed.

Lemma in_range_ok (v : R) : Rabs v <= float_max -> in_range v = Ok v.
Proof. intros H. unfold in_range. now rewrite fgt_false. Qed.

Lemma in_range_overflow (v : R) :
  Rabs v > float_max -> in_range v = Raise OverflowError.
Proof. intros H. unfold in_range. now rewrite fgt_true. Qed.

Lemma Rpower_pos (x y : R) : 0 < Rpower x y.
Proof. unfold Rpower. apply exp_pos. Qed.

Lemma fpow_positive (r p : R) :
  0 < r ->
  (Rpower r p <= float_max /\ fpow r p = Ok (Rpower r p))
  \/ (Rpower r p > float_max /\ fpow r p = Raise OverflowError).
Proof.
  intros Hr. unfold fpow. rewrite fgt_true by lra.
  assert (Hp := Rpower_pos r p).
  destruct (Rle_dec (Rpower r p) float_max) as [H | H].
  - left. split; [exact H |]. apply in_range_ok.
    rewrite Rabs_right by lra. exact H.
  - right. split; [lra |]. apply in_range_overflow.
    rewrite Rabs_right by lra. lra.
Qed.

Lemma sin_of_cases (x : R) :
  (Rabs x <= float_max /\ math.sin_of x = Ok (Rtrigo_def.sin x))
  \/ (Rabs x > float_max /\ math.sin_of x = Raise ValueError).
Proof.
  unfold math.sin_of. destruct (Rle_dec (Rabs x) float_max) as [H | H].
  - left. now rewrite fgt_false.
  - right. rewrite fgt_true by lra. split; [lra | reflexivity].
Qed.

Lemma cos_of_cases (x : R) :
  (Rabs x <= float_max /\ math.cos_of x = Ok (Rtrigo_def.cos x))
  \/ (Rabs x > float_max /\ math.cos_of x = Raise ValueError).
Proof.
  unfold math.cos_of. destruct (Rle_dec (Rabs x) float_max) as [H | H].
  - left. now rewrite fgt_false.
  - right. rewrite fgt_true by lra. split; [lra | reflexivity].
Qed.

(** One pass, by cases on the radius.  Past the two tests on the radius
    the division and the [acos] are defined; the pass goes on to the next
    one unless a power leaves the range of the floats or an angle does. *)
Lemma mandelbulb_pass_cases (pos : Vector) (power bailout : R) (i : Z)
    (st : MState) :
  let z := st_z st in
  let r := vlength z in
  let theta := Ratan.acos (py_max (-1) (py_min 1 (vz z / r))) * power in
  let phi := math.atan2 (vy z) (vx z) * power in
  (r > bailout /\
   mandelbulb_pass pos power bailout i st =
   Ok (Break (mkMState z (st_dr st) r)))
  \/ (r <= bailout /\ r < 0.0001 /\
      mandelbulb_pass pos power bailout i st = Ok (Return 0))
  \/ (r <= bailout /\ 0.0001 <= r
      /\ fdiv (vz z) r = Ok (vz z / r)
      /\ math.acos (py_max (-1) (py_min 1 (vz z / r)))
         = Ok (Ratan.acos (py_max (-1) (py_min 1 (vz z / r))))
      /\ ((Rpower r power <= float_max
           /\ Rpower r (power - 1) <= float_max
           /\ Rabs theta <= float_max /\ Rabs phi <= float_max
           /\ exists st',
                mandelbulb_pass pos power bailout i st = Ok (Next st')
                /\ st_r st' = r
                /\ st_dr st' = Rpower r (power - 1) * power * st_dr st + 1)
          \/ ((Rpower r power > float_max
               \/ Rpower r (power - 1) > float_max)
              /\ mandelbulb_pass pos power bailout i st
                 = Raise OverflowError)
          \/ ((Rabs theta > float_max \/ Rabs phi > float_max)
              /\ mandelbulb_pass pos power bailout i st
                 = Raise ValueError))).
Proof.
  intros z r theta phi. unfold mandelbulb_pass. fold z. fold r.
  destruct (Rgt_dec r bailout) as [Hb | Hb].
  { left. rewrite fgt_true by assumption. auto. }
  right. rewrite fgt_false by lra.
  destruct (Rlt_dec r 0.0001) as [Hs | Hs].
  { left. rewrite flt_true by assumption. repeat split; auto; lra. }
  right. rewrite flt_false by lra.
  split; [lra |]. split; [lra |].
  assert (Hdiv : fdiv (vz z) r = Ok (vz z / r)).
  { unfold fdiv. now rewrite feq_false by lra. }
  split; [exact Hdiv |]. split; [apply acos_clamp |].
  rewrite Hdiv. cbn [bind]. rewrite acos_clamp. cbn [bind].
  fold theta. fold phi.
  destruct (fpow_positive r power ltac:(lra)) as [[Hz ->] | [Hz ->]];
    cbn [bind]; [| right; left; split; [left; exact Hz | reflexivity]].
  destruct (sin_of_cases theta) as [[Ht Es] | [Ht Es]]; rewrite Es;
    cbn [bind]; [| right; right; split; [left; exact Ht | reflexivity]].
  destruct (cos_of_cases phi) as [[Hp Ec] | [Hp Ec]]; rewrite Ec;
    cbn [bind]; [| right; right; split; [right; exact Hp | reflexivity]].
  destruct (sin_of_cases phi) as [[_ Es'] | [Hp' _]]; [| lra].
  rewrite Es'. cbn [bind].
  destruct (cos_of_cases theta) as [[_ Ec'] | [Ht' _]]; [| lra].
  rewrite Ec'. cbn [bind].
  destruct (fpow_positive r (power - 1) ltac:(lra)) as [[Hq ->] | [Hq ->]];
    cbn [bind]; [| right; left; split; [right; exact Hq | reflexivity]].
  left. repeat (split; [assumption |]).
  eexists. split; [reflexivity |]. split; reflexivity.
Qed.

(** *** Runs of a loop *)

Lemma for_each_run {I S A : Type} (body : I -> S -> result (flow S A))
    (xs : list I) :
  forall s,
    loop_run body xs s (fst (for_each xs body s)) (snd (for_each xs body s)).
Proof.
  induction xs as [| i xs IH]; intros s; cbn [for_each].
  - constructor.
  - destruct (body i s) as [[s' | s' | a] | e] eqn:E; cbn [fst snd].
    + now apply run_next with s'.
    + now constructor.
    + now constructor.
    + now constructor.
Qed.

Lemma loop_run_length {I S A : Type} (body : I -> S -> result (flow S A))
    (xs : list I) (s : S) (tr : list S) (e : loop_end S A) :
  loop_run body xs s tr e -> (length tr <= length xs)%nat.
Proof. induction 1; cbn [length]; lia. Qed.

Lemma loop_run_head {I S A : Type} (body : I -> S -> result (flow S A))
    (xs : list I) (s : S) (tr : list S) (e : loop_end S A) :
  loop_run body xs s tr e -> xs <> [] -> nth_error tr 0 = Some s.
Proof. induction 1; intros Hx; try reflexivity. now elim Hx. Qed.

Lemma loop_run_exhausted {I S A : Type} (body : I -> S -> result (flow S A))
    (xs : list I) (s : S) (tr : list S) (e : loop_end S A) :
  loop_run body xs s tr e ->
  forall s', e = Exhausted s' -> length tr = length xs.
Proof.
  induction 1; intros s0 E; try discriminate; cbn [length]; auto.
  now rewrite (IHloop_run s0 E).
Qed.

(** *** Runs of the loop of [mandelbulb_distance] *)

Section MandelbulbRun.

Variables (pos : Vector) (power bailout : R).

Lemma pass_break (i : Z) (st : MState) :
  vlength (st_z st) > bailout ->
  mandelbulb_pass pos power bailout i st
  = Ok (Break (mkMState (st_z st) (st_dr st) (vlength (st_z st)))).
Proof.
  intros Hr. unfold mandelbulb_pass. now rewrite fgt_true.
Qed.

Lemma pass_return (i : Z) (st : MState) :
  vlength (st_z st) <= bailout -> vlength (st_z st) < 0.0001 ->
  mandelbulb_pass pos power bailout i st = Ok (Return 0).
Proof.
  intros Hb Hr. unfold mandelbulb_pass.
  rewrite fgt_false by lra. now rewrite flt_true.
Qed.

Lemma pass_next_radius (i : Z) (st st' : MState) :
  mandelbulb_pass pos power bailout i st = Ok (Next st') ->
  0.0001 <= vlength (st_z st) <= bailout.
Proof.
  intros E.
  destruct (mandelbulb_pass_cases pos power bailout i st)
    as [[Hr E'] | [[Hb [Hr E']] | [Hb [Hr _]]]].
  - rewrite E in E'. discriminate.
  - rewrite E in E'. discriminate.
  - lra.
Qed.

Lemma pass_raise (i : Z) (st : MState) (e : PyExn) :
  mandelbulb_pass pos power bailout i st = Raise e ->
  0.0001 <= vlength (st_z st) <= bailout
  /\ (e = OverflowError \/ e = ValueError).
Proof.
  intros E.
  destruct (mandelbulb_pass_cases pos power bailout i st)
    as [[Hr E'] | [[Hb [Hr E']] | [Hb [Hr [_ [_ H]]]]]].
  - rewrite E in E'. discriminate.
  - rewrite E in E'. discriminate.
  - split; [lra |].
    destruct H as [[_ [_ [_ [_ [st' [E' _]]]]]] | [[_ E'] | [_ E']]];
      rewrite E in E'; [discriminate | |]; injection E' as ->; auto.
Qed.

(** The pass does not look at the loop index. *)
Lemma pass_index (i j : Z) (st : MState) :
  mandelbulb_pass pos power bailout i st
  = mandelbulb_pass pos power bailout j st.
Proof. reflexivity. Qed.

Variables (xs : list Z).

(** Consecutive entries of the trace are linked by a pass that went on. *)
Lemma run_chain (s : MState) (tr : list MState) (e : loop_end MState R) :
  loop_run (mandelbulb_pass pos power bailout) xs s tr e ->
  forall j st st' i,
    nth_error tr j = Some st -> nth_error tr (S j) = Some st' ->
    mandelbulb_pass pos power bailout i st = Ok (Next st').
Proof.
  induction 1 as [s | i0 xs' s s' E | i0 xs' s a E | i0 xs' s e E
                  | i0 xs' s s' tr e E Hrun IH]; intros j st st' i Hj Hj'.
  - destruct j; discriminate.
  - destruct j; [discriminate Hj' | destruct j; discriminate].
  - destruct j; [discriminate Hj' | destruct j; discriminate].
  - destruct j; [discriminate Hj' | destruct j; discriminate].
  - destruct j as [| j].
    + cbn in Hj. injection Hj as <-.
      change (nth_error tr 0 = Some st') in Hj'.
      assert (Hd : xs' <> []).
      { intros ->. inversion Hrun; subst. discriminate. }
      rewrite (loop_run_head _ _ _ _ _ Hrun Hd) in Hj'.
      injection Hj' as <-. rewrite (pass_index i i0). exact E.
    + apply (IH j st st' i); assumption.
Qed.

(** A pass that sees a radius above [bailout] is the last one, and ends
    the loop by [break]. *)
Lemma run_escape (s : MState) (tr : list MState) (e : loop_end MState R) :
  loop_run (mandelbulb_pass pos power bailout) xs s tr e ->
  forall j st,
    nth_error tr j = Some st ->
    vlength (st_z st) > bailout ->
    S j = length tr
    /\ e = Broke (mkMState (st_z st) (st_dr st) (vlength (st_z st))).
Proof.
  induction 1 as [s | i0 xs' s s' E | i0 xs' s a E | i0 xs' s e E
                  | i0 xs' s s' tr e E Hrun IH]; intros j st Hj Hr.
  - destruct j; discriminate.
  - destruct j as [| j]; [| destruct j; discriminate].
    injection Hj as <-. rewrite pass_break in E by assumption.
    injection E as <-. auto.
  - destruct j as [| j]; [| destruct j; discriminate].
    injection Hj as <-. rewrite pass_break in E by assumption. discriminate.
  - destruct j as [| j]; [| destruct j; discriminate].
    injection Hj as <-. rewrite pass_break in E by assumption. discriminate.
  - destruct j as [| j].
    + injection Hj as <-. rewrite pass_break in E by assumption.
      discriminate.
    + destruct (IH j st Hj Hr) as [Hl He]. cbn [length]. auto.
Qed.

(** A pass that sees a radius below [0.0001] is the last one, and
    returns [0]. *)
Lemma run_small (s : MState) (tr : list MState) (e : loop_end MState R) :
  loop_run (mandelbulb_pass pos power bailout) xs s tr e ->
  forall j st,
    nth_error tr j = Some st ->
    vlength (st_z st) <= bailout ->
    vlength (st_z st) < 0.0001 ->
    S j = length tr /\ e = Returned 0.
Proof.
  induction 1 as [s | i0 xs' s s' E | i0 xs' s a E | i0 xs' s e E
                  | i0 xs' s s' tr e E Hrun IH]; intros j st Hj Hb Hr.
  - destruct j; discriminate.
  - destruct j as [| j]; [| destruct j; discriminate].
    injection Hj as <-. rewrite pass_return in E by assumption.
    discriminate.
  - destruct j as [| j]; [| destruct j; discriminate].
    injection Hj as <-. rewrite pass_return in E by assumption.
    injection E as <-. auto.
  - destruct j as [| j]; [| destruct j; discriminate].
    injection Hj as <-. rewrite pass_return in E by assumption.
    discriminate.
  - destruct j as [| j].
    + injection Hj as <-. rewrite pass_return in E by assumption.
      discriminate.
    + destruct (IH j st Hj Hb Hr) as [Hl He]. cbn [length]. auto.
Qed.

(** Every pass before the last one saw a radius between [0.0001] and
    [bailout]. *)
Lemma run_before_last (s : MState) (tr : list MState)
    (e : loop_end MState R) :
  loop_run (mandelbulb_pass pos power bailout) xs s tr e ->
  forall j st,
    nth_error tr j = Some st ->
    (S j < length tr)%nat ->
    0.0001 <= vlength (st_z st) <= bailout.
Proof.
  induction 1 as [s | i0 xs' s s' E | i0 xs' s a E | i0 xs' s e E
                  | i0 xs' s s' tr e E Hrun IH]; intros j st Hj Hl;
    try (cbn [length] in Hl; lia).
  destruct j as [| j].
  - injection Hj as <-. apply (pass_next_radius i0 _ _ E).
  - apply (IH j st Hj). cbn [length] in Hl. lia.
Qed.

(** What the last pass did, by the way the loop ended. *)
Lemma run_last (s : MState) (tr : list MState) (e : loop_end MState R) :
  loop_run (mandelbulb_pass pos power bailout) xs s tr e ->
  match e with
  | Exhausted st' =>
      length tr = length xs
      /\ forall st, In st tr -> 0.0001 <= vlength (st_z st) <= bailout
  | Broke st' =>
      exists st, nth_error tr (pred (length tr)) = Some st
                 /\ vlength (st_z st) > bailout
                 /\ st' = mkMState (st_z st) (st_dr st) (vlength (st_z st))
  | Returned a =>
      exists st, nth_error tr (pred (length tr)) = Some st
                 /\ vlength (st_z st) < 0.0001 /\ a = 0
  | Raised ex =>
      exists st, nth_error tr (pred (length tr)) = Some st
                 /\ mandelbulb_pass pos power bailout 0%Z st = Raise ex
  end.
Proof.
  induction 1 as [s | i0 xs' s s' E | i0 xs' s a E | i0 xs' s e E
                  | i0 xs' s s' tr e E Hrun IH].
  - split; [reflexivity | intros st []].
  - exists s. split; [reflexivity |].
    destruct (mandelbulb_pass_cases pos power bailout i0 s)
      as [[Hr E'] | [[Hb [Hr E']] | [Hb [Hr [_ [_ H]]]]]].
    + rewrite E in E'. injection E' as ->. auto.
    + rewrite E in E'. discriminate.
    + destruct H as [[_ [_ [_ [_ [st' [E' _]]]]]] | [[_ E'] | [_ E']]];
        rewrite E in E'; discriminate.
  - exists s. split; [reflexivity |].
    destruct (mandelbulb_pass_cases pos power bailout i0 s)
      as [[Hr E'] | [[Hb [Hr E']] | [Hb [Hr [_ [_ H]]]]]].
    + rewrite E in E'. discriminate.
    + rewrite E in E'. injection E' as ->. auto.
    + destruct H as [[_ [_ [_ [_ [st' [E' _]]]]]] | [[_ E'] | [_ E']]];
        rewrite E in E'; discriminate.
  - exists s. split; [reflexivity | exact E].
  - assert (Hne : tr <> [] \/ tr = []) by (destruct tr; [right | left];
                                           congruence).
    destruct e as [st' | st' | a | ex].
    + destruct IH as [Hl Hall]. split; [cbn [length]; lia |].
      intros st [<- | Hin]; [apply (pass_next_radius i0 _ _ E) | auto].
    + destruct IH as [st [Hn Hr]]. exists st. split; [| exact Hr].
      destruct tr as [| s1 tr]; [discriminate Hn | exact Hn].
    + destruct IH as [st [Hn Hr]]. exists st. split; [| exact Hr].
      destruct tr as [| s1 tr]; [discriminate Hn | exact Hn].
    + destruct IH as [st [Hn Hr]]. exists st. split; [| exact Hr].
      destruct tr as [| s1 tr]; [discriminate Hn | exact Hn].
Qed.

End MandelbulbRun.

Lemma py_range_length (n : Z) : length (py_range n) = Z.to_nat n.
Proof. unfold py_range. now rewrite length_map, length_seq. Qed.

(** The statements after the loop never raise. *)
Lemma mandelbulb_estimate_cases (r dr : R) :
  (r > 0.0001 /\ dr > 0 /\
   mandelbulb_estimate r dr = Ok (0.5 * ln r * r / dr))
  \/ (~ (r > 0.0001 /\ dr > 0) /\ mandelbulb_estimate r dr = Ok 0).
Proof.
  unfold mandelbulb_estimate.
  destruct (Rgt_dec r 0.0001) as [Hr | Hr].
  - destruct (Rgt_dec dr 0) as [Hd | Hd].
    + left. rewrite !fgt_true by assumption. cbn [andb].
      unfold py_max. rewrite fgt_false by lra.
      unfold math.log. rewrite fgt_true by lra. cbn [bind].
      unfold fdiv. rewrite feq_false by lra. auto.
    + right. rewrite fgt_true by assumption.
      rewrite (fgt_false dr) by lra. cbn [andb]. split; [lra | auto].
  - right. rewrite fgt_false by lra. cbn [andb]. split; [lra | auto].
Qed.

(** The result of the function, by the way the loop ended. *)
Lemma mandelbulb_distance_ending (pos : Vector) (power : R) (k : Z)
    (bailout : R) :
  match snd (mandelbulb_loop pos power k bailout) with
  | Raised e => mandelbulb_distance pos power k bailout = Raise e
  | Returned a => mandelbulb_distance pos power k bailout = Ok a
  | Exhausted st | Broke st =>
      (st_r st > 0.0001 /\ st_dr st > 0
       /\ mandelbulb_distance pos power k bailout
          = Ok (0.5 * ln (st_r st) * st_r st / st_dr st))
      \/ (~ (st_r st > 0.0001 /\ st_dr st > 0)
          /\ mandelbulb_distance pos power k bailout = Ok 0)
  end.
Proof.
  unfold mandelbulb_distance.
  destruct (snd (mandelbulb_loop pos power k bailout)) as [st | st | a | e];
    try reflexivity; apply mandelbulb_estimate_cases.
Qed.

(** C4: for [k >= 0] iterations the loop of [mandelbulb_distance] ends
    after at most [k] passes, whether it ends normally or a pass raises.
    The trace is the run itself: for [k >= 1] the first pass starts from
    [z = pos], [dr = 1], and each further pass starts from the state the
    pass before it left.  A pass whose radius [|z|] exceeds [bailout] is
    the last pass and ends the loop by [break]; every pass before the last
    one saw a radius of at most [bailout], so the loop stops at the first
    radius above [bailout]; [break] happens in no other way; a loop that
    ran out of its range made all [k] passes; a start point outside the
    bailout radius breaks in the first pass; and the function then returns
    a value, unless a pass raised. *)
Theorem mandelbulb_loop_escape_time (pos : Vector) (power : R) (k : Z)
    (bailout : R) :
  (0 <= k)%Z ->
  let trace := fst (mandelbulb_loop pos power k bailout) in
  let ending := snd (mandelbulb_loop pos power k bailout) in
  (Z.of_nat (length trace) <= k)%Z
  /\ ((1 <= k)%Z -> nth_error trace 0 = Some (mkMState pos 1 0))
  /\ (forall j st st',
         nth_error trace j = Some st ->
         nth_error trace (S j) = Some st' ->
         mandelbulb_pass pos power bailout (Z.of_nat j) st = Ok (Next st'))
  /\ (forall j st,
         nth_error trace j = Some st ->
         vlength (st_z st) > bailout ->
         S j = length trace
         /\ ending = Broke (mkMState (st_z st) (st_dr st)
                                     (vlength (st_z st))))
  /\ (forall j st,
         nth_error trace j = Some st ->
         (S j < length trace)%nat ->
         vlength (st_z st) <= bailout)
  /\ (forall st',
         ending = Broke st' ->
         exists st, nth_error trace (pred (length trace)) = Some st
                    /\ vlength (st_z st) > bailout)
  /\ (forall st',
         ending = Exhausted st' ->
         Z.of_nat (length trace) = k
         /\ forall st, In st trace -> vlength (st_z st) <= bailout)
  /\ ((1 <= k)%Z -> vlength pos > bailout ->
      trace = [mkMState pos 1 0]
      /\ ending = Broke (mkMState pos 1 (vlength pos)))
  /\ match ending with
     | Raised e => mandelbulb_distance pos power k bailout = Raise e
     | _ => exists v, mandelbulb_distance pos power k bailout = Ok v
     end.
Proof.
  intros Hk trace ending.
  pose proof (for_each_run (mandelbulb_pass pos power bailout)
                           (py_range k) (mkMState pos 1 0)) as Hrun.
  change (loop_run (mandelbulb_pass pos power bailout) (py_range k)
                   (mkMState pos 1 0) trace ending) in Hrun.
  pose proof (loop_run_length _ _ _ _ _ Hrun) as Hlen.
  rewrite py_range_length in Hlen.
  assert (Hhead : (1 <= k)%Z -> nth_error trace 0 = Some (mkMState pos 1 0)).
  { intros Hk1. apply (loop_run_head _ _ _ _ _ Hrun).
    intros E. apply (f_equal (@length Z)) in E.
    rewrite py_range_length in E. cbn in E. lia. }
  split; [lia |]. split; [exact Hhead |].
  split; [intros j st st'; apply (run_chain _ _ _ _ _ _ _ Hrun) |].
  split; [apply (run_escape _ _ _ _ _ _ _ Hrun) |].
  split.
  { intros j st Hj Hl.
    apply (run_before_last _ _ _ _ _ _ _ Hrun j st Hj Hl). }
  split.
  { intros st' E. pose proof (run_last _ _ _ _ _ _ _ Hrun) as Hlast.
    rewrite E in Hlast. destruct Hlast as [st [Hn [Hr _]]]. eauto. }
  split.
  { intros st' E. pose proof (run_last _ _ _ _ _ _ _ Hrun) as Hlast.
    rewrite E in Hlast. destruct Hlast as [Hl Hall].
    rewrite py_range_length in Hl. split; [lia |].
    intros st Hin. apply (Hall st Hin). }
  split.
  { intros Hk1 Hr.
    destruct (run_escape _ _ _ _ _ _ _ Hrun 0%nat (mkMState pos 1 0)
                         (Hhead Hk1) Hr) as [Hone He].
    split; [| exact He].
    specialize (Hhead Hk1). destruct trace as [| s0 [| s1 tl]];
      [discriminate Hone | | discriminate Hone].
    cbn in Hhead. now injection Hhead as ->. }
  pose proof (mandelbulb_distance_ending pos power k bailout) as He.
  fold ending in He.
  destruct ending as [st | st | a | e]; try exact He;
    try (destruct He as [[_ [_ Ev]] | [_ Ev]]; eauto); eauto.
Qed.

(** A start point at distance 3, outside the bailout radius 2: the loop
    makes one pass and breaks. *)
Lemma mandelbulb_loop_escape_time_witness :
  (0 <= 15)%Z
  /\ vlength (mkVector 3 0 0) > 2
  /\ fst (mandelbulb_loop (mkVector 3 0 0) 8 15 2)
     = [mkMState (mkVector 3 0 0) 1 0]
  /\ snd (mandelbulb_loop (mkVector 3 0 0) 8 15 2)
     = Broke (mkMState (mkVector 3 0 0) 1 (vlength (mkVector 3 0 0)))
  /\ exists v, mandelbulb_distance (mkVector 3 0 0) 8 15 2 = Ok v.
Proof.
  assert (Hk : (0 <= 15)%Z) by lia.
  assert (Hr : vlength (mkVector 3 0 0) > 2)
    by (rewrite vlength_x by lra; lra).
  destruct (mandelbulb_loop_escape_time (mkVector 3 0 0) 8 15 2 Hk)
    as [_ [_ [_ [_ [_ [_ [_ [Hfirst Hres]]]]]]]].
  destruct (Hfirst ltac:(lia) Hr) as [Htr He].
  split; [exact Hk |]. split; [exact Hr |].
  split; [exact Htr |]. split; [exact He |].
  rewrite He in Hres. exact Hres.
Defined.

(** *** The guards of [mandelbulb_distance], and what they leave open *)

Lemma pow_100_200 : Rpower 100 200 > float_max.
Proof.
  assert (E : 200 = INR 200) by (rewrite INR_IZR_INZ; reflexivity).
  rewrite E, Rpower_pow by lra.
  assert (H1 : 2 ^ 1024 <= 2 ^ 1200) by (apply Rle_pow; [lra | lia]).
  assert (H2 : 2 ^ 1200 = (2 ^ 6) ^ 200)
    by (rewrite <- pow_mult; reflexivity).
  assert (H3 : (2 ^ 6) ^ 200 <= 100 ^ 200).
  { apply pow_incr. split; [apply pow_le; lra | simpl; lra]. }
  pose proof float_max_upper. lra.
Qed.

(** C8, as stated, fails: at the point [(100, 0, 0)] with power 200, one
    iteration and bailout 1000, the first pass evaluates [r ** power] with
    [r = 100], and [100.0 ** 200] is beyond the floats: the function
    raises [OverflowError] and returns no value. *)
Lemma mandelbulb_distance_overflow_counterexample :
  mandelbulb_distance (mkVector 100 0 0) 200 1 1000 = Raise OverflowError
  /\ ~ exists v, mandelbulb_distance (mkVector 100 0 0) 200 1 1000 = Ok v.
Proof.
  assert (E : mandelbulb_distance (mkVector 100 0 0) 200 1 1000
              = Raise OverflowError).
  { unfold mandelbulb_distance, mandelbulb_loop.
    change (py_range 1) with [0%Z]. cbn [for_each].
    unfold mandelbulb_pass. cbn [st_z st_dr].
    rewrite vlength_x by lra.
    rewrite fgt_false, flt_false by lra.
    unfold fdiv. rewrite feq_false by lra. cbn [bind].
    rewrite acos_clamp. cbn [bind].
    destruct (fpow_positive 100 200 ltac:(lra)) as [[H _] | [_ ->]].
    - pose proof pow_100_200. lra.
    - reflexivity. }
  split; [exact E |]. intros [v Ev]. rewrite E in Ev. discriminate.
Qed.

Lemma atan2_range (y x : R) : Rabs (math.atan2 y x) <= PI.
Proof.
  pose proof PI_RGT_0 as Hpi. unfold math.atan2, fgt, flt.
  pose proof (atan_bound (y / x)) as [Hl Hu].
  destruct (Rgt_dec x 0) as [Hx | Hx]; [apply Rabs_le; lra |].
  destruct (Rlt_dec x 0) as [Hx' | Hx'].
  - destruct (Rlt_dec y 0) as [Hy | Hy].
    + assert (H0 : 0 < y / x).
      { replace (y / x) with ((- y) * / (- x)) by (field; lra).
        apply Rmult_lt_0_compat; [lra |].
        apply Rinv_0_lt_compat. lra. }
      assert (Ha : 0 < atan (y / x)).
      { rewrite <- atan_0. apply atan_increasing. exact H0. }
      apply Rabs_le. lra.
    + assert (H0 : y / x <= 0).
      { replace (y / x) with (- (y * / (- x))) by (field; lra).
        assert (0 <= y * / (- x)); [| lra].
        apply Rmult_le_pos; [lra |].
        left. apply Rinv_0_lt_compat. lra. }
      assert (Ha : atan (y / x) <= 0).
      { rewrite <- atan_0. destruct H0 as [H0 | H0].
        - left. apply atan_increasing. exact H0.
        - rewrite H0. lra. }
      apply Rabs_le. lra.
  - destruct (Rgt_dec y 0); [apply Rabs_le; lra |].
    destruct (Rlt_dec y 0); [apply Rabs_le; lra |].
    rewrite Rabs_R0. lra.
Qed.

Lemma angle_product_bound (a power : R) :
  Rabs a <= PI -> 0 <= power <= 1000 -> Rabs (a * power) <= float_max.
Proof.
  intros Ha Hp. rewrite Rabs_mult. rewrite (Rabs_right power) by lra.
  pose proof PI_4 as H4. pose proof (Rabs_pos a) as H0.
  assert (H : Rabs a * power <= 4 * 1000) by nra.
  assert (Hm : 4 * 1000 <= 2 ^ 1023).
  { assert (H12 : 2 ^ 12 <= 2 ^ 1023) by (apply Rle_pow; [lra | lia]).
    assert (E12 : 2 ^ 12 = 4096) by (simpl; lra). lra. }
  pose proof float_max_lower. lra.
Qed.

Lemma Rpower_bound (r p : R) :
  0 < r <= 2 -> 0 <= p <= 1000 -> Rpower r p <= float_max.
Proof.
  intros [Hr0 Hr2] [Hp0 Hp1].
  assert (H1 : Rpower r p <= Rpower 2 p)
    by (apply Rle_Rpower_l; [lra | split; lra]).
  assert (H2 : Rpower 2 p <= Rpower 2 1000)
    by (apply Rle_Rpower; lra).
  assert (E : 1000 = INR 1000) by (rewrite INR_IZR_INZ; reflexivity).
  assert (H3 : Rpower 2 1000 = 2 ^ 1000).
  { rewrite E at 1. apply Rpower_pow. lra. }
  assert (H4 : 2 ^ 1000 <= 2 ^ 1023) by (apply Rle_pow; [lra | lia]).
  pose proof float_max_lower. lra.
Qed.

(** With a power between 1 and 1000 and a bailout of at most 2 no pass
    raises. *)
Lemma mandelbulb_pass_safe (pos : Vector) (power bailout : R) (i : Z)
    (st : MState) (e : PyExn) :
  1 <= power <= 1000 -> bailout <= 2 ->
  mandelbulb_pass pos power bailout i st <> Raise e.
Proof.
  intros Hp Hb E.
  destruct (mandelbulb_pass_cases pos power bailout i st)
    as [[Hr E'] | [[_ [Hr E']] | [Hb' [Hr [_ [_ H]]]]]].
  - rewrite E in E'. discriminate.
  - rewrite E in E'. discriminate.
  - set (r := vlength (st_z st)) in *.
    assert (P1 : Rpower r power <= float_max)
      by (apply Rpower_bound; lra).
    assert (P2 : Rpower r (power - 1) <= float_max)
      by (apply Rpower_bound; lra).
    assert (A1 : Rabs (Ratan.acos (py_max (-1) (py_min 1
                                     (vz (st_z st) / r))) * power)
                 <= float_max).
    { apply angle_product_bound; [| lra].
      pose proof (acos_bound (py_max (-1) (py_min 1 (vz (st_z st) / r)))).
      apply Rabs_le. pose proof PI_RGT_0. lra. }
    assert (A2 : Rabs (math.atan2 (vy (st_z st)) (vx (st_z st)) * power)
                 <= float_max).
    { apply angle_product_bound; [apply atan2_range | lra]. }
    destruct H as [[_ [_ [_ [_ [st' [E' _]]]]]] | [[H _] | [H _]]].
    + rewrite E in E'. discriminate.
    + destruct H; lra.
    + destruct H; lra.
Qed.

Lemma mandelbulb_distance_safe (pos : Vector) (power : R) (iterations : Z)
    (bailout : R) :
  1 <= power <= 1000 -> bailout <= 2 ->
  exists v, mandelbulb_distance pos power iterations bailout = Ok v.
Proof.
  intros Hp Hb.
  pose proof (for_each_run (mandelbulb_pass pos power bailout)
                           (py_range iterations) (mkMState pos 1 0)) as Hrun.
  pose proof (run_last _ _ _ _ _ _ _ Hrun) as Hlast.
  pose proof (mandelbulb_distance_ending pos power iterations bailout) as He.
  unfold mandelbulb_loop in He.
  destruct (snd (for_each (py_range iterations)
                          (mandelbulb_pass pos power bailout)
                          (mkMState pos 1 0))) as [st | st | a | e];
    try (destruct He as [[_ [_ Ev]] | [_ Ev]]; eauto); eauto.
  destruct Hlast as [st [_ Hraise]].
  now apply mandelbulb_pass_safe in Hraise.
Qed.

(** The function raises nothing but what a pass raises. *)
Lemma mandelbulb_distance_raise (pos : Vector) (power : R) (iterations : Z)
    (bailout : R) (e : PyExn) :
  mandelbulb_distance pos power iterations bailout = Raise e ->
  e = OverflowError \/ e = ValueError.
Proof.
  intros E.
  pose proof (for_each_run (mandelbulb_pass pos power bailout)
                           (py_range iterations) (mkMState pos 1 0)) as Hrun.
  pose proof (run_last _ _ _ _ _ _ _ Hrun) as Hlast.
  pose proof (mandelbulb_distance_ending pos power iterations bailout) as He.
  unfold mandelbulb_loop in He.
  destruct (snd (for_each (py_range iterations)
                          (mandelbulb_pass pos power bailout)
                          (mkMState pos 1 0))) as [st | st | a | e'].
  - destruct He as [[_ [_ Ev]] | [_ Ev]]; rewrite E in Ev; discriminate.
  - destruct He as [[_ [_ Ev]] | [_ Ev]]; rewrite E in Ev; discriminate.
  - rewrite E in He. discriminate.
  - rewrite E in He. injection He as ->.
    destruct Hlast as [st [_ Hraise]].
    apply (pass_raise _ _ _ _ _ _ Hraise).
Qed.

(** C8, amended: [mandelbulb_distance] evaluates no division by zero and
    no [acos] or [log] outside its domain.  Every pass either breaks on a
    radius above [bailout], returns [0] on a radius below [0.0001], or
    divides by a radius of at least [0.0001] and takes the [acos] of a
    clamped value; the statements after the loop give [0] unless
    [r > 0.0001] and [dr > 0], and raise in no case.  The function is not
    total: a pass raises [OverflowError] when [r ** power] or
    [r ** (power - 1.0)] is beyond the floats, and [ValueError] when an
    angle [theta * power] or [phi * power] is, and the function raises
    with it.  With a power between 1 and 1000 and a bailout of at most 2
    it returns a value on every input. *)
Theorem mandelbulb_distance_guards (pos : Vector) (power : R)
    (iterations : Z) (bailout : R) :
  let trace := fst (mandelbulb_loop pos power iterations bailout) in
  let ending := snd (mandelbulb_loop pos power iterations bailout) in
  (forall j st,
      nth_error trace j = Some st ->
      let z := st_z st in
      let r := vlength z in
      (r > bailout /\ S j = length trace)
      \/ (r <= bailout /\ r < 0.0001 /\ S j = length trace
          /\ ending = Returned 0
          /\ mandelbulb_distance pos power iterations bailout = Ok 0)
      \/ (0.0001 <= r <= bailout
          /\ fdiv (vz z) r = Ok (vz z / r)
          /\ math.acos (py_max (-1) (py_min 1 (vz z / r)))
             = Ok (Ratan.acos (py_max (-1) (py_min 1 (vz z / r))))))
  /\ (forall r dr,
         exists v, mandelbulb_estimate r dr = Ok v
                   /\ (~ (r > 0.0001 /\ dr > 0) -> v = 0))
  /\ match ending with
     | Returned a =>
         a = 0 /\ mandelbulb_distance pos power iterations bailout = Ok 0
     | Exhausted st | Broke st =>
         (st_r st > 0.0001 /\ st_dr st > 0
          /\ mandelbulb_distance pos power iterations bailout
             = Ok (0.5 * ln (st_r st) * st_r st / st_dr st))
         \/ (~ (st_r st > 0.0001 /\ st_dr st > 0)
             /\ mandelbulb_distance pos power iterations bailout = Ok 0)
     | Raised e =>
         mandelbulb_distance pos power iterations bailout = Raise e
         /\ exists st,
              nth_error trace (pred (length trace)) = Some st
              /\ 0.0001 <= vlength (st_z st) <= bailout
              /\ ((e = OverflowError
                   /\ (Rpower (vlength (st_z st)) power > float_max
                       \/ Rpower (vlength (st_z st)) (power - 1)
                          > float_max))
                  \/ (e = ValueError
                      /\ (Rabs (Ratan.acos
                                  (py_max (-1)
                                     (py_min 1 (vz (st_z st)
                                                / vlength (st_z st))))
                                * power) > float_max
                          \/ Rabs (math.atan2 (vy (st_z st)) (vx (st_z st))
                                   * power) > float_max)))
     end
  /\ (1 <= power <= 1000 -> bailout <= 2 ->
      exists v, mandelbulb_distance pos power iterations bailout = Ok v).
Proof.
  intros trace ending.
  pose proof (for_each_run (mandelbulb_pass pos power bailout)
                           (py_range iterations) (mkMState pos 1 0)) as Hrun.
  change (loop_run (mandelbulb_pass pos power bailout) (py_range iterations)
                   (mkMState pos 1 0) trace ending) in Hrun.
  pose proof (mandelbulb_distance_ending pos power iterations bailout) as He.
  fold ending in He.
  pose proof (run_last _ _ _ _ _ _ _ Hrun) as Hlast.
  split; [| split; [| split]].
  - intros j st Hj. cbv zeta.
    pose proof (mandelbulb_pass_cases pos power bailout 0 st) as Hc.
    cbv zeta in Hc.
    destruct Hc as [[Hr _] | [[Hb [Hr _]] | [Hb [Hr [Hd [Ha _]]]]]].
    + left. split; [exact Hr |].
      apply (run_escape _ _ _ _ _ _ _ Hrun j st Hj Hr).
    + right. left.
      destruct (run_small _ _ _ _ _ _ _ Hrun j st Hj Hb Hr) as [Hl Hend].
      split; [exact Hb |]. split; [exact Hr |]. split; [exact Hl |].
      split; [exact Hend |]. rewrite Hend in He. exact He.
    + right. right. split; [lra |]. split; assumption.
  - intros r dr.
    destruct (mandelbulb_estimate_cases r dr) as [[H1 [H2 E]] | [H E]];
      eexists; (split; [exact E |]); tauto.
  - destruct ending as [st | st | a | e]; try exact He.
    + destruct Hlast as [st [_ [_ ->]]]. split; [reflexivity | exact He].
    + split; [exact He |].
      destruct Hlast as [st [Hn Hraise]]. exists st. split; [exact Hn |].
      destruct (mandelbulb_pass_cases pos power bailout 0 st)
        as [[Hr E'] | [[_ [Hr E']] | [Hb' [Hr [_ [_ H]]]]]].
      * rewrite Hraise in E'. discriminate.
      * rewrite Hraise in E'. discriminate.
      * split; [lra |].
        destruct H as [[_ [_ [_ [_ [st' [E' _]]]]]] | [[H E'] | [H E']]];
          rewrite Hraise in E'; [discriminate | |]; injection E' as ->.
        -- left. split; [reflexivity | exact H].
        -- right. split; [reflexivity | exact H].
  - intros Hp Hb. now apply mandelbulb_distance_safe.
Qed.

(** ** Klein bottle: the vertex grid *)

Lemma int_truediv_ok (a b : Z) :
  b <> 0%Z -> int_truediv a b = Ok (IZR a / IZR b).
Proof.
  intros Hb. unfold int_truediv.
  destruct (Z.eqb_spec b 0); [contradiction | reflexivity].
Qed.

Lemma int_mod_ok (a b : Z) : b <> 0%Z -> int_mod a b = Ok (a mod b)%Z.
Proof.
  intros Hb. unfold int_mod.
  destruct (Z.eqb_spec b 0); [contradiction | reflexivity].
Qed.

Lemma py_index_ok {A : Type} (l : list A) (i : nat) (a : A) :
  nth_error l i = Some a -> py_index l (Z.of_nat i) = Ok a.
Proof.
  intros H. unfold py_index.
  assert (Hlt : (i < length l)%nat) by (apply nth_error_Some; congruence).
  destruct (Z.ltb_spec (Z.of_nat i) 0); [lia |].
  destruct (Z.ltb_spec (Z.of_nat i) 0); [lia |].
  destruct (Z.leb_spec (Z.of_nat (length l)) (Z.of_nat i)); [lia |].
  cbn [orb]. now rewrite Nat2Z.id, H.
Qed.

(** The inner vertex loop appends one vertex per index. *)
Lemma klein_row_loop (u : R) (v_steps : Z) (xs : list Z) :
  v_steps <> 0%Z ->
  forall bm row,
    for_fold xs (klein_row_pass u v_steps) (bm, row) =
    Ok (mkBMesh (bm_verts bm
                 ++ map (fun j => klein_position u (grid_angle j v_steps)) xs)
                (bm_faces bm),
        row ++ map (fun k => (length (bm_verts bm) + k)%nat)
                   (seq 0 (length xs))).
Proof.
  intros Hv. induction xs as [| j xs IH]; intros bm row.
  - cbn. rewrite !app_nil_r. now destruct bm.
  - cbn [for_fold]. unfold klein_row_pass at 1.
    rewrite int_truediv_ok by assumption. cbn [bind fst snd verts_new].
    rewrite IH. cbn [bm_verts bm_faces map length seq].
    rewrite <- !app_assoc. cbn [app]. do 3 f_equal.
    rewrite length_app. cbn [length].
    rewrite <- seq_shift, map_map. f_equal; [lia |].
    apply map_ext. intros k. lia.
Qed.

Lemma py_range_nil (n : Z) : (n <= 0)%Z -> py_range n = [].
Proof.
  intros H. unfold py_range. replace (Z.to_nat n) with 0%nat by lia.
  reflexivity.
Qed.

Lemma klein_row_loop_range (u : R) (v_steps : Z) (bm : BMesh) :
  for_fold (py_range v_steps) (klein_row_pass u v_steps) (bm, []) =
  Ok (mkBMesh (bm_verts bm
               ++ map (fun j => klein_position u (grid_angle j v_steps))
                      (py_range v_steps))
              (bm_faces bm),
      map (fun k => (length (bm_verts bm) + k)%nat)
          (seq 0 (Z.to_nat v_steps))).
Proof.
  destruct (Z_le_gt_dec v_steps 0) as [H | H].
  - rewrite py_range_nil by assumption.
    replace (Z.to_nat v_steps) with 0%nat by lia.
    cbn. rewrite app_nil_r. now destruct bm.
  - rewrite klein_row_loop by lia. now rewrite py_range_length.
Qed.

(** The outer vertex loop appends one row per index. *)
Lemma klein_grid_loop (u_steps v_steps : Z) (xs : list Z) :
  (xs <> [] -> u_steps <> 0%Z) ->
  forall bm verts,
    for_fold xs (klein_grid_pass u_steps v_steps) (bm, verts) =
    Ok (mkBMesh (bm_verts bm ++ flat_map (klein_row u_steps v_steps) xs)
                (bm_faces bm),
        verts
        ++ map (fun r =>
                  map (fun k => (length (bm_verts bm)
                                 + r * Z.to_nat v_steps + k)%nat)
                      (seq 0 (Z.to_nat v_steps)))
               (seq 0 (length xs))).
Proof.
  induction xs as [| i xs IH]; intros Hu bm verts.
  - cbn. rewrite !app_nil_r. now destruct bm.
  - cbn [for_fold]. unfold klein_grid_pass at 1.
    rewrite int_truediv_ok by (apply Hu; discriminate).
    cbn [bind fst snd]. rewrite klein_row_loop_range. cbn [bind fst snd].
    rewrite IH by (intros _; apply Hu; discriminate).
    cbn [bm_verts bm_faces flat_map length seq map].
    rewrite <- !app_assoc. cbn [app]. f_equal. f_equal. f_equal. f_equal.
    + apply map_ext. intros k. lia.
    + rewrite <- seq_shift, map_map. apply map_ext. intros r.
      apply map_ext. intros k.
      rewrite length_app, length_map, py_range_length. lia.
Qed.

(** The vertex pass: rows of [klein_row], numbered row by row. *)
Lemma klein_vertices_grid (u_steps v_steps : Z) :
  klein_vertices u_steps v_steps =
  Ok (mkBMesh (flat_map (klein_row u_steps v_steps) (py_range u_steps)) [],
      map (fun r => map (fun k => (r * Z.to_nat v_steps + k)%nat)
                        (seq 0 (Z.to_nat v_steps)))
          (seq 0 (Z.to_nat u_steps))).
Proof.
  unfold klein_vertices. rewrite klein_grid_loop.
  - cbn [bm_verts bm_faces app length]. now rewrite py_range_length.
  - intros Hne Hz. subst u_steps. now apply Hne.
Qed.


Lemma py_range_nth (n : Z) (i : nat) :
  (i < Z.to_nat n)%nat -> nth_error (py_range n) i = Some (Z.of_nat i).
Proof.
  intros H. unfold py_range. rewrite nth_error_map, nth_error_seq.
  destruct (Nat.ltb_spec i (Z.to_nat n)); [reflexivity | lia].
Qed.

Lemma seq_map_nth {A : Type} (f : nat -> A) (n i : nat) :
  (i < n)%nat -> nth_error (map f (seq 0 n)) i = Some (f i).
Proof.
  intros H. rewrite nth_error_map, nth_error_seq.
  destruct (Nat.ltb_spec i n); [reflexivity | lia].
Qed.


Lemma grid_angle_zero (n : Z) : grid_angle 0 n = 0.
Proof. unfold grid_angle. unfold Rdiv. now rewrite !Rmult_0_l. Qed.


(** The position in closed form: [x] and [z] are scaled by [0.08], [y] by
    [0.08 * 0.9], and the result is laid out as [(x, z, -y)] and raised by
    [1.2]. *)
Lemma klein_position_closed (u v : R) :
  klein_position u v =
  mkVector (0.08 * fst (fst (klein_xyz u v)))
           (0.08 * snd (klein_xyz u v))
           (- (0.072 * snd (fst (klein_xyz u v))) + 1.2).
Proof.
  unfold klein_position. destruct (klein_xyz u v) as [[x y] z].
  cbn [fst snd vx vy vz]. f_equal; lra.
Qed.

Lemma klein_xyz_zero (v : R) :
  klein_xyz 0 v
  = (6 - 2 * Rtrigo_def.cos v, 0, - (2 * Rtrigo_def.sin v)).
Proof.
  unfold klein_xyz, math.cos, math.sin, math.pi.
  pose proof PI_RGT_0. rewrite flt_true by lra.
  rewrite cos_0, sin_0, neg_cos, neg_sin.
  f_equal; [f_equal |]; field.
Qed.







(** ** Klein bottle: the face pass *)

Section KleinFacesFacts.

Variable faces_new : BMesh -> list nat -> BMesh * option PyExn.

(** The attempts on a list of quads, one after the other. *)
Let run (quads : list (list nat)) (st : BMesh * list FaceStep) :=
  fold_left (try_faces_new faces_new) quads st.

Variables U V : nat.

(** The grid of vertex indices built by the vertex pass. *)
Let verts : list (list nat) :=
  map (fun r => map (fun k => (r * V + k)%nat) (seq 0 V)) (seq 0 U).

Lemma klein_face_pass_grid (i j : nat) (st : BMesh * list FaceStep) :
  (i < U)%nat -> (j < V)%nat ->
  klein_face_pass faces_new (Z.of_nat U) (Z.of_nat V) verts
                  (Z.of_nat i) (Z.of_nat j) st =
  Ok (try_faces_new faces_new st (grid_quad U V i j)).
Proof.
  intros Hi Hj. unfold klein_face_pass.
  assert (Hrow : forall r, (r < U)%nat ->
            py_index verts (Z.of_nat r) =
            Ok (map (fun k => (r * V + k)%nat) (seq 0 V))).
  { intros r Hr. apply py_index_ok. unfold verts.
    now rewrite (seq_map_nth
                   (fun r => map (fun k => (r * V + k)%nat) (seq 0 V))). }
  assert (Hcol : forall r c, (c < V)%nat ->
            py_index (map (fun k => (r * V + k)%nat) (seq 0 V))
                     (Z.of_nat c) = Ok (r * V + c)%nat).
  { intros r c Hc. apply py_index_ok. now rewrite seq_map_nth. }
  rewrite Hrow by assumption. cbn [bind].
  rewrite Hcol by assumption. cbn [bind].
  rewrite !int_mod_ok by lia. cbn [bind].
  replace ((Z.of_nat i + 1) mod Z.of_nat U)%Z
    with (Z.of_nat (S i mod U)) by (rewrite Nat2Z.inj_mod; f_equal; lia).
  replace ((Z.of_nat j + 1) mod Z.of_nat V)%Z
    with (Z.of_nat (S j mod V)) by (rewrite Nat2Z.inj_mod; f_equal; lia).
  assert (HU : (S i mod U < U)%nat) by (apply Nat.mod_upper_bound; lia).
  assert (HV : (S j mod V < V)%nat) by (apply Nat.mod_upper_bound; lia).
  rewrite Hrow by assumption. cbn [bind].
  rewrite !Hcol by assumption. cbn [bind].
  reflexivity.
Qed.

Lemma klein_face_row (i : nat) (js : list nat) :
  (i < U)%nat -> Forall (fun j => (j < V)%nat) js ->
  forall st,
    for_fold (map Z.of_nat js)
             (klein_face_pass faces_new (Z.of_nat U) (Z.of_nat V) verts
                              (Z.of_nat i)) st =
    Ok (run (map (grid_quad U V i) js) st).
Proof.
  intros Hi. induction 1 as [| j js Hj Hjs IH]; intros st; [reflexivity |].
  cbn [map for_fold]. rewrite klein_face_pass_grid by assumption.
  cbn [bind]. rewrite IH. reflexivity.
Qed.

Lemma seq_bounded (n : nat) : Forall (fun j => (j < n)%nat) (seq 0 n).
Proof. apply Forall_forall. intros j Hj. apply in_seq in Hj. lia. Qed.

Lemma klein_face_rows (rows : list nat) :
  Forall (fun i => (i < U)%nat) rows ->
  forall st,
    for_fold (map Z.of_nat rows)
             (fun i st =>
                for_fold (py_range (Z.of_nat V))
                         (klein_face_pass faces_new (Z.of_nat U)
                                          (Z.of_nat V) verts i) st) st =
    Ok (run (flat_map (fun i => map (grid_quad U V i) (seq 0 V)) rows) st).
Proof.
  induction 1 as [| i rows Hi Hrows IH]; intros st; [reflexivity |].
  cbn [map for_fold flat_map]. unfold py_range at 1. rewrite Nat2Z.id.
  rewrite klein_face_row by (auto using seq_bounded). cbn [bind].
  rewrite IH. unfold run. now rewrite fold_left_app.
Qed.

Lemma klein_faces_grid (bm : BMesh) :
  klein_faces faces_new (Z.of_nat U) (Z.of_nat V) verts bm =
  Ok (run (grid_quads U V) (bm, [])).
Proof.
  unfold klein_faces, py_range at 1. rewrite Nat2Z.id.
  apply klein_face_rows, seq_bounded.
Qed.

(** What a run of attempts records. *)
Lemma run_trace (quads : list (list nat)) :
  forall bm steps,
  exists bm' steps',
    run quads (bm, steps) = (bm', steps ++ steps')
    /\ map fs_quad steps' = quads
    /\ chained bm steps' bm'
    /\ Forall (fun s => faces_new (fs_before s) (fs_quad s) =
                        (fs_after s, fs_raised s)) steps'.
Proof.
  induction quads as [| q quads IH]; intros bm steps.
  - exists bm, []. cbn. rewrite app_nil_r. auto.
  - unfold run. cbn [fold_left]. unfold try_faces_new at 2. cbn [fst snd].
    destruct (faces_new bm q) as [bm1 exn] eqn:E.
    destruct (IH bm1 (steps ++ [mkFaceStep bm q exn bm1]))
      as [bm' [steps' [Hrun [Hq [Hch Hall]]]]].
    exists bm', (mkFaceStep bm q exn bm1 :: steps').
    fold (run quads (bm1, steps ++ [mkFaceStep bm q exn bm1])).
    rewrite Hrun, <- app_assoc. cbn [app map fs_quad chained].
    repeat split; auto. now rewrite Hq.
Qed.

End KleinFacesFacts.

Lemma grid_quads_length (U V : nat) : length (grid_quads U V) = (U * V)%nat.
Proof.
  unfold grid_quads.
  transitivity (length (seq 0 U) * V)%nat; [| now rewrite length_seq].
  induction (seq 0 U) as [| i l IH]; [reflexivity |].
  cbn [flat_map length]. rewrite length_app, length_map, length_seq, IH. lia.
Qed.

(** C5: in the face pass of [create_klein_bottle_mesh] no failure of
    [bm.faces.new] escapes: the function returns normally; the pass
    attempts every one of the [u_steps * v_steps] candidate quads, in loop
    order, whichever attempts fail; each attempt starts from the mesh the
    previous one left; and, the host leaving a mesh untouched when its
    [faces.new] raises, the mesh after a failed attempt is the mesh before
    it. *)
Theorem klein_faces_failures_swallowed
    (faces_new : BMesh -> list nat -> BMesh * option PyExn)
    (u_steps v_steps : Z) :
  (forall bm f bm' e, faces_new bm f = (bm', Some e) -> bm' = bm) ->
  exists g bm steps,
    klein_vertices u_steps v_steps = Ok g
    /\ create_klein_bottle_mesh faces_new u_steps v_steps = Ok (bm, steps)
    /\ map fs_quad steps = grid_quads (Z.to_nat u_steps) (Z.to_nat v_steps)
    /\ length steps = (Z.to_nat u_steps * Z.to_nat v_steps)%nat
    /\ chained (fst g) steps bm
    /\ Forall (fun s => faces_new (fs_before s) (fs_quad s) =
                        (fs_after s, fs_raised s)) steps
    /\ Forall (fun s => fs_raised s <> None -> fs_after s = fs_before s)
              steps.
Proof.
  intros Hhost. unfold create_klein_bottle_mesh.
  rewrite klein_vertices_grid. cbn [bind fst snd].
  set (U := Z.to_nat u_steps). set (V := Z.to_nat v_steps).
  set (bm0 := mkBMesh _ _).
  assert (E : klein_faces faces_new u_steps v_steps
                (map (fun r => map (fun k => (r * V + k)%nat) (seq 0 V))
                     (seq 0 U)) bm0 =
              Ok (fold_left (try_faces_new faces_new) (grid_quads U V)
                            (bm0, []))).
  { destruct (Z_le_gt_dec u_steps 0) as [Hu | Hu].
    - unfold klein_faces. rewrite py_range_nil by assumption.
      replace U with 0%nat by (unfold U; lia). reflexivity.
    - destruct (Z_le_gt_dec v_steps 0) as [Hv | Hv].
      + unfold klein_faces. rewrite (py_range_nil v_steps) by assumption.
        replace V with 0%nat by (unfold V; lia). cbn [for_fold].
        replace (grid_quads U 0) with (@nil (list nat)).
        * generalize (bm0, @nil FaceStep).
          induction (py_range u_steps) as [| i l IH]; intros st;
            [reflexivity | exact (IH st)].
        * unfold grid_quads.
          induction (seq 0 U) as [| n l IH]; [reflexivity |].
          cbn [seq flat_map map app]. apply IH.
      + replace u_steps with (Z.of_nat U) by (unfold U; lia).
        replace v_steps with (Z.of_nat V) by (unfold V; lia).
        apply klein_faces_grid. }
  rewrite E.
  destruct (run_trace faces_new (grid_quads U V) bm0 [])
    as [bm' [steps [Hrun [Hq [Hch Hall]]]]].
  rewrite Hrun. cbn [app].
  exists (bm0, map (fun r => map (fun k => (r * V + k)%nat) (seq 0 V))
                   (seq 0 U)), bm', steps.
  repeat split; auto.
  - rewrite <- (length_map fs_quad), Hq. apply grid_quads_length.
  - eapply Forall_impl; [| exact Hall].
    intros s Hs Hraised. cbv beta in Hs.
    destruct (fs_raised s) as [e |] eqn:Er; [| contradiction].
    apply (Hhost _ _ _ _ Hs).
Qed.

(** The modelled host leaves the mesh as it is when [faces.new] raises. *)
Lemma bmesh_faces_new_atomic (bm : BMesh) (f : list nat) (bm' : BMesh)
    (e : PyExn) :
  bmesh_faces_new bm f = (bm', Some e) -> bm' = bm.
Proof.
  unfold bmesh_faces_new.
  destruct (has_dup f || existsb (same_verts f) (bm_faces bm));
    intros H; now inversion H.
Qed.

Lemma klein_faces_failures_swallowed_witness :
  exists g bm steps,
    klein_vertices 2 2 = Ok g
    /\ create_klein_bottle_mesh bmesh_faces_new 2 2 = Ok (bm, steps)
    /\ map fs_quad steps = grid_quads (Z.to_nat 2) (Z.to_nat 2)
    /\ length steps = (Z.to_nat 2 * Z.to_nat 2)%nat
    /\ chained (fst g) steps bm
    /\ Forall (fun s => bmesh_faces_new (fs_before s) (fs_quad s) =
                        (fs_after s, fs_raised s)) steps
    /\ Forall (fun s => fs_raised s <> None -> fs_after s = fs_before s)
              steps.
Proof.
  apply (klein_faces_failures_swallowed bmesh_faces_new 2 2).
  exact bmesh_faces_new_atomic.
Defined.

(** ** Orbit keyframes *)

Module OrbitFacts.

Import stdpp.base stdpp.gmap.
Import Orbit.
Local Open Scope R_scope.

Section Loop.

Variables orbit_distance orbit_speed : R.
Variable frames : Z.
Hypothesis frames_nonzero : frames <> 0%Z.

(** The angle and the location computed for a frame. *)
Let angle (frame : Z) : R :=
  IZR frame / IZR frames * orbit_speed * 2 * math.pi.
Let place (frame : Z) : R * R * R :=
  (math.cos (angle frame) * orbit_distance,
   math.sin (angle frame) * orbit_distance, 0).

Lemma animate_orbit_pass_keys (frame : Z) (p : Planet) :
  exists p',
    animate_orbit_pass orbit_distance orbit_speed frames frame p = Ok p'
    /\ location_keys p' = <[frame := place frame]> (location_keys p)
    /\ rotation_z_keys p' = <[frame := angle frame]> (rotation_z_keys p).
Proof.
  unfold animate_orbit_pass. rewrite int_truediv_ok by assumption.
  cbn [bind]. eexists. split; [reflexivity |].
  unfold set_rotation_z, keyframe_insert_location, set_location.
  cbn [rotation_euler]. destruct (rotation_euler p) as [[rx ry] rz].
  unfold keyframe_insert_rotation_z.
  cbn [location_keys rotation_z_keys rotation_euler location snd].
  split; reflexivity.
Qed.

Lemma animate_orbit_loop (xs : list Z) :
  forall p,
  exists p',
    for_fold xs (animate_orbit_pass orbit_distance orbit_speed frames) p
    = Ok p'
    /\ (forall f, In f xs ->
                  location_keys p' !! f = Some (place f)
                  /\ rotation_z_keys p' !! f = Some (angle f))
    /\ (forall f, ~ In f xs ->
                  location_keys p' !! f = location_keys p !! f
                  /\ rotation_z_keys p' !! f = rotation_z_keys p !! f).
Proof.
  induction xs as [| x xs IH]; intros p.
  - exists p. cbn. split; [reflexivity |]. split; [tauto | auto].
  - cbn [for_fold].
    destruct (animate_orbit_pass_keys x p) as [p1 [E [Hl Hr]]].
    rewrite E. cbn [bind].
    destruct (IH p1) as [p' [E' [Hin Hout]]].
    exists p'. split; [exact E' |]. split.
    + intros f Hf. destruct (in_dec Z.eq_dec f xs) as [Hi | Hi];
        [now apply Hin |].
      destruct Hf as [-> | Hf]; [| contradiction].
      destruct (Hout f Hi) as [-> ->]. rewrite Hl, Hr.
      now rewrite !lookup_insert_eq.
    + intros f Hf. cbn [In] in Hf.
      destruct (Hout f) as [-> ->]; [tauto |]. rewrite Hl, Hr.
      rewrite !lookup_insert_ne by (intros ->; tauto). auto.
Qed.

End Loop.

Lemma py_range2_in (a b f : Z) :
  (a <= f < b)%Z -> In f (py_range2 a b).
Proof.
  intros H. unfold py_range2. apply in_map_iff.
  exists (Z.to_nat (f - a)). split; [lia |]. apply in_seq. lia.
Qed.

(** C6: after [animate_orbit], for every frame [f] in [1..frames] the
    location keyed at [f] is [(x, y, 0)] with [x^2 + y^2 = d^2], and the z
    rotation keyed at [f] is [(f / frames) * s * 2 * pi]; at the last
    frame it is [s] full turns. *)
Theorem animate_orbit_circle (planet : Planet) (d s : R) (frames f : Z) :
  (1 <= f <= frames)%Z ->
  exists planet' x y,
    animate_orbit planet d s frames = Ok planet'
    /\ location_keys planet' !! f = Some (x, y, 0)
    /\ x * x + y * y = d * d
    /\ rotation_z_keys planet' !! f
       = Some (IZR f / IZR frames * s * 2 * PI)
    /\ rotation_z_keys planet' !! frames = Some (s * (2 * PI)).
Proof.
  intros Hf. unfold animate_orbit.
  destruct (animate_orbit_loop d s frames ltac:(lia)
                               (py_range2 1 (frames + 1)) planet)
    as [p' [E [Hin _]]].
  destruct (Hin f) as [Hl Hr]; [apply py_range2_in; lia |].
  destruct (Hin frames) as [_ Hr']; [apply py_range2_in; lia |].
  eexists p', _, _. split; [exact E |]. split; [exact Hl |].
  split; [| split].
  - unfold math.cos, math.sin.
    set (a := IZR f / IZR frames * s * 2 * math.pi).
    pose proof (sin2_cos2 a) as Hsc. unfold Rsqr in Hsc.
    replace (cos a * d * (cos a * d) + sin a * d * (sin a * d))
      with (d * d * (sin a * sin a + cos a * cos a)) by ring.
    rewrite Hsc. ring.
  - exact Hr.
  - rewrite Hr'. f_equal. unfold math.pi. field.
    apply not_0_IZR. lia.
Qed.

(** Earth of the script: distance 10, speed 3, 300 frames, frame 75. *)
Lemma animate_orbit_circle_witness :
  exists planet' x y,
    animate_orbit (mkPlanet (10, 0, 0) (0, 0, 0) ∅ ∅) 10 3 300 = Ok planet'
    /\ location_keys planet' !! 75%Z = Some (x, y, 0)
    /\ x * x + y * y = 10 * 10
    /\ rotation_z_keys planet' !! 75%Z
       = Some (IZR 75 / IZR 300 * 3 * 2 * PI)
    /\ rotation_z_keys planet' !! 300%Z = Some (3 * (2 * PI)).
Proof.
  apply (animate_orbit_circle (mkPlanet (10, 0, 0) (0, 0, 0) ∅ ∅)
                              10 3 300 75).
  lia.
Defined.

End OrbitFacts.

(** ** What the scripts clear before they build *)

Module HostFacts.

Import Host.




















End HostFacts.

(** ** Vectors by reference: the functions read their arguments only *)

Module RefFacts.


Lemma update_eq (f : nat -> Vector) (l : nat) (v : Vector) :
  Ref.update f l v l = v.
Proof. unfold Ref.update. now rewrite Nat.eqb_refl. Qed.

Lemma update_ne (f : nat -> Vector) (l l' : nat) (v : Vector) :
  l' <> l -> Ref.update f l v l' = f l'.
Proof.
  intros H. unfold Ref.update.
  destruct (Nat.eqb_spec l' l); [contradiction | reflexivity].
Qed.

Ltac heap_simpl :=
  cbn [Ref.next Ref.cell];
  repeat first [rewrite update_eq | rewrite update_ne by lia].

Lemma extends_refl (h : Ref.Heap) : Ref.extends h h.
Proof. split; auto. Qed.

Lemma extends_trans (h1 h2 h3 : Ref.Heap) :
  Ref.extends h1 h2 -> Ref.extends h2 h3 -> Ref.extends h1 h3.
Proof.
  intros [Hn Hc] [Hn' Hc']. split; [lia |].
  intros l Hl. rewrite Hc' by lia. now apply Hc.
Qed.

(** [tetrahedron_vertices] on the store: it allocates, it does not write to
    an existing object, and the objects it returns hold the value-level
    vertices. *)
Lemma tetrahedron_vertices_run (h : Ref.Heap) (center : Ref.loc) (scale : R) :
  (center < Ref.next h)%nat ->
  exists vs h',
    Ref.tetrahedron_vertices center scale h = Ok (vs, h')
    /\ Ref.extends h h'
    /\ map (Ref.cell h') vs = tetrahedron_vertices (Ref.cell h center) scale.
Proof.
  intros Hc. eexists _, _. split; [reflexivity |]. split.
  - split; cbn [Ref.next Ref.cell]; [lia |].
    intros l Hl. rewrite !update_ne by lia. reflexivity.
  - cbn [map]. unfold tetrahedron_vertices. heap_simpl. reflexivity.
Qed.

Section Mandelbulb.

Variables (power bailout : R).

(** One pass on the store does what the value-level pass does. *)
Lemma mandelbulb_pass_sim (h : Ref.Heap) (pos : Ref.loc) (i : Z)
    (rs : Ref.RState) (st : MState) :
  (pos < Ref.next h)%nat ->
  Ref.sim_state h rs st ->
  match mandelbulb_pass (Ref.cell h pos) power bailout i st with
  | Raise e => Ref.mandelbulb_pass pos power bailout i rs h = Raise e
  | Ok (Return a) =>
      Ref.mandelbulb_pass pos power bailout i rs h = Ok (Return a, h)
  | Ok (Break st') =>
      exists rs',
        Ref.mandelbulb_pass pos power bailout i rs h = Ok (Break rs', h)
        /\ Ref.sim_state h rs' st'
  | Ok (Next st') =>
      exists rs' h',
        Ref.mandelbulb_pass pos power bailout i rs h = Ok (Next rs', h')
        /\ Ref.extends h h'
        /\ Ref.sim_state h' rs' st'
  end.
Proof.
  intros Hpos [Hz [Hc [Hdr Hr]]].
  unfold mandelbulb_pass, Ref.mandelbulb_pass, Ref.hbind, Ref.read.
  rewrite Hc, Hdr.
  destruct (fgt (vlength (st_z st)) bailout).
  { eexists. split; [reflexivity |]. repeat split; auto. }
  destruct (flt (vlength (st_z st)) 0.0001); [reflexivity |].
  destruct (fdiv (vz (st_z st)) (vlength (st_z st))) as [q | e];
    cbn [bind Ref.lift]; [| reflexivity].
  destruct (math.acos (py_max (-1) (py_min 1 q))) as [theta | e];
    cbn [bind Ref.lift]; [| reflexivity].
  destruct (fpow (vlength (st_z st)) power) as [zr | e];
    cbn [bind Ref.lift]; [| reflexivity].
  destruct (math.sin_of (theta * power)) as [sin_theta | e];
    cbn [bind Ref.lift]; [| reflexivity].
  destruct (math.cos_of
              (math.atan2 (vy (st_z st)) (vx (st_z st)) * power))
    as [cos_phi | e]; cbn [bind Ref.lift]; [| reflexivity].
  destruct (math.sin_of
              (math.atan2 (vy (st_z st)) (vx (st_z st)) * power))
    as [sin_phi | e]; cbn [bind Ref.lift]; [| reflexivity].
  destruct (math.cos_of (theta * power)) as [cos_theta | e];
    cbn [bind Ref.lift]; [| reflexivity].
  destruct (fpow (vlength (st_z st)) (power - 1)) as [p | e];
    cbn [bind Ref.lift Ref.new_vector Ref.rmul Ref.iadd Ref.hbind Ref.read
         Ref.write Ref.ret Ref.next Ref.cell].
  - eexists _, _. split; [reflexivity |]. split.
    + split; cbn [Ref.next Ref.cell]; [lia |].
      intros l Hl. rewrite !update_ne by lia. reflexivity.
    + repeat split;
        cbn [Ref.rs_z Ref.rs_dr Ref.rs_r st_z st_dr st_r Ref.next Ref.cell];
        [lia |].
      heap_simpl. reflexivity.
  - reflexivity.
Qed.

(** The loop on the store does what the value-level loop does: it ends
    the same way, or raises what the pass that ended the value-level loop
    raised. *)
Lemma mandelbulb_loop_sim (p : Vector) (pos : Ref.loc) (xs : list Z) :
  forall h rs st,
    (pos < Ref.next h)%nat -> Ref.cell h pos = p ->
    Ref.sim_state h rs st ->
    (exists e' h',
        Ref.for_each xs (Ref.mandelbulb_pass pos power bailout) rs h
        = Ok (e', h')
        /\ Ref.extends h h'
        /\ Ref.sim_end e'
             (snd (for_each xs (mandelbulb_pass p power bailout) st)))
    \/ (exists ex,
           Ref.for_each xs (Ref.mandelbulb_pass pos power bailout) rs h
           = Raise ex
           /\ snd (for_each xs (mandelbulb_pass p power bailout) st)
              = Raised ex).
Proof.
  induction xs as [| i xs IH]; intros h rs st Hpos Hp Hsim.
  - left. exists (Exhausted rs), h. split; [reflexivity |].
    split; [apply extends_refl |]. destruct Hsim as [_ [_ [Hdr Hr]]].
    split; assumption.
  - cbn [for_each Ref.for_each]. unfold Ref.hbind.
    pose proof (mandelbulb_pass_sim h pos i rs st Hpos Hsim) as Hpass.
    rewrite Hp in Hpass.
    destruct (mandelbulb_pass p power bailout i st) as [[st' | st' | a] | ex].
    + destruct Hpass as [rs' [h1 [E [Hext Hsim']]]]. rewrite E.
      cbn [snd]. destruct Hext as [Hn Hcell].
      destruct (IH h1 rs' st') as [[e' [h' [E' [Hext' Hend]]]] | [ex [E' He]]];
        try assumption; [lia | now rewrite Hcell | |].
      * left. exists e', h'. split; [exact E' |]. split; [| exact Hend].
        apply (extends_trans h h1 h'); [split; assumption | exact Hext'].
      * right. exists ex. split; assumption.
    + destruct Hpass as [rs' [E Hsim']]. rewrite E.
      left. exists (Broke rs'), h.
      split; [reflexivity |]. split; [apply extends_refl |].
      destruct Hsim' as [_ [_ [Hdr Hr]]]. split; assumption.
    + rewrite Hpass. left. exists (Returned a), h.
      split; [reflexivity |]. split; [apply extends_refl | reflexivity].
    + rewrite Hpass. right. exists ex. split; reflexivity.
Qed.

(** [mandelbulb_distance] on the store returns what the value-level
    function returns on the contents of [pos], and leaves every object that
    existed before the call as it was; where the value-level function
    raises, it raises the same. *)
Lemma mandelbulb_distance_run (h : Ref.Heap) (pos : Ref.loc) (iterations : Z) :
  (pos < Ref.next h)%nat ->
  (exists v h',
      mandelbulb_distance (Ref.cell h pos) power iterations bailout = Ok v
      /\ Ref.mandelbulb_distance pos power iterations bailout h = Ok (v, h')
      /\ Ref.extends h h')
  \/ (exists e,
         mandelbulb_distance (Ref.cell h pos) power iterations bailout
         = Raise e
         /\ Ref.mandelbulb_distance pos power iterations bailout h
            = Raise e).
Proof.
  intros Hpos.
  unfold mandelbulb_distance, mandelbulb_loop, Ref.mandelbulb_distance.
  unfold Ref.hbind at 1. cbn [Ref.copy Ref.hbind Ref.read Ref.new_vector].
  set (h1 := Ref.mkHeap (Ref.update (Ref.cell h) (Ref.next h) (Ref.cell h pos))
                        (S (Ref.next h))).
  assert (Hext1 : Ref.extends h h1).
  { unfold h1. split; cbn [Ref.next Ref.cell]; [lia |].
    intros l Hl. now rewrite update_ne by lia. }
  destruct (mandelbulb_loop_sim (Ref.cell h pos) pos (py_range iterations) h1
              (Ref.mkRState (Ref.next h) 1 0)
              (mkMState (Ref.cell h pos) 1 0))
    as [[e' [h' [E' [Hext' Hend]]]] | [ex [E' He]]].
  - unfold h1. cbn [Ref.next]. lia.
  - unfold h1. cbn [Ref.cell]. now rewrite update_ne by lia.
  - unfold h1.
    repeat split; cbn [Ref.rs_z Ref.next Ref.cell st_z];
      [lia | apply update_eq].
  - unfold Ref.hbind. rewrite E'.
    assert (Hext : Ref.extends h h') by (now apply (extends_trans h h1 h')).
    destruct e' as [rs | rs | a | ex1];
      destruct (snd (for_each (py_range iterations)
                       (mandelbulb_pass (Ref.cell h pos) power bailout)
                       (mkMState (Ref.cell h pos) 1 0)))
        as [st | st | b | ex2];
      cbn [Ref.sim_end] in Hend; try contradiction.
    + destruct Hend as [-> ->]. left.
      destruct (mandelbulb_estimate_cases (st_r st) (st_dr st))
        as [[_ [_ Ev]] | [_ Ev]]; rewrite Ev; cbn [Ref.lift];
        eexists _, h'; auto.
    + destruct Hend as [-> ->]. left.
      destruct (mandelbulb_estimate_cases (st_r st) (st_dr st))
        as [[_ [_ Ev]] | [_ Ev]]; rewrite Ev; cbn [Ref.lift];
        eexists _, h'; auto.
    + subst b. left. exists a, h'. auto.
  - unfold Ref.hbind. rewrite E', He. right. exists ex. auto.
Qed.

End Mandelbulb.

(** C7: both functions are deterministic.  Evaluated in any two stores on
    arguments (a [Vector] object and the numeric parameters) with equal
    contents, [mandelbulb_distance] returns equal numbers, or raises the
    same exception in both, and [tetrahedron_vertices] returns vertex
    lists with equal contents: the value-level results.  Neither call
    changes an object that existed before it, so a second evaluation on
    the same object, in the store the first one left, gives the same
    result again; a call that raises does so again in every store that
    still holds the objects unchanged.  With a power between 1 and 1000 and a bailout of at
    most 2, the values of the script included, [mandelbulb_distance]
    returns a number. *)
Theorem pure_functions_deterministic (h1 h2 : Ref.Heap) (a1 a2 : Ref.loc)
    (power : R) (iterations : Z) (bailout scale : R) :
  (a1 < Ref.next h1)%nat -> (a2 < Ref.next h2)%nat ->
  Ref.cell h1 a1 = Ref.cell h2 a2 ->
  ((exists v h1' h2',
       Ref.mandelbulb_distance a1 power iterations bailout h1 = Ok (v, h1')
       /\ Ref.mandelbulb_distance a2 power iterations bailout h2
          = Ok (v, h2')
       /\ mandelbulb_distance (Ref.cell h1 a1) power iterations bailout
          = Ok v
       /\ Ref.extends h1 h1' /\ Ref.extends h2 h2'
       /\ exists h1'',
            Ref.mandelbulb_distance a1 power iterations bailout h1'
            = Ok (v, h1''))
   \/ (exists e,
          Ref.mandelbulb_distance a1 power iterations bailout h1 = Raise e
          /\ Ref.mandelbulb_distance a2 power iterations bailout h2
             = Raise e
          /\ mandelbulb_distance (Ref.cell h1 a1) power iterations bailout
             = Raise e
          /\ forall h1',
               Ref.extends h1 h1' ->
               Ref.mandelbulb_distance a1 power iterations bailout h1'
               = Raise e))
  /\ (1 <= power <= 1000 -> bailout <= 2 ->
      exists v,
        mandelbulb_distance (Ref.cell h1 a1) power iterations bailout
        = Ok v)
  /\ (exists vs1 h1' vs2 h2',
         Ref.tetrahedron_vertices a1 scale h1 = Ok (vs1, h1')
         /\ Ref.tetrahedron_vertices a2 scale h2 = Ok (vs2, h2')
         /\ map (Ref.cell h1') vs1 = map (Ref.cell h2') vs2
         /\ map (Ref.cell h1') vs1
            = tetrahedron_vertices (Ref.cell h1 a1) scale
         /\ Ref.extends h1 h1' /\ Ref.extends h2 h2'
         /\ exists vs1' h1'',
              Ref.tetrahedron_vertices a1 scale h1' = Ok (vs1', h1'')
              /\ map (Ref.cell h1'') vs1' = map (Ref.cell h1') vs1).
Proof.
  intros H1 H2 Heq. split; [| split].
  - destruct (mandelbulb_distance_run power bailout h1 a1 iterations H1)
      as [[v [h1' [Ev [E1 Hx1]]]] | [e [Ev E1]]];
      destruct (mandelbulb_distance_run power bailout h2 a2 iterations H2)
        as [[v2 [h2' [Ev2 [E2 Hx2]]]] | [e2 [Ev2 E2]]];
      rewrite <- Heq, Ev in Ev2; try discriminate.
    + injection Ev2 as <-. left.
      destruct Hx1 as [Hn Hc].
      destruct (mandelbulb_distance_run power bailout h1' a1 iterations
                                        ltac:(lia))
        as [[v3 [h1'' [Ev3 [E3 _]]]] | [e3 [Ev3 _]]];
        rewrite (Hc a1 H1), Ev in Ev3; [| discriminate].
      injection Ev3 as <-.
      exists v, h1', h2'.
      split; [exact E1 |]. split; [exact E2 |]. split; [exact Ev |].
      split; [split; assumption |]. split; [exact Hx2 |].
      exists h1''. exact E3.
    + injection Ev2 as <-. right. exists e.
      split; [exact E1 |]. split; [exact E2 |]. split; [exact Ev |].
      intros h1' [Hn Hc].
      destruct (mandelbulb_distance_run power bailout h1' a1 iterations
                                        ltac:(lia))
        as [[v3 [h1'' [Ev3 _]]] | [e3 [Ev3 E3]]];
        rewrite (Hc a1 H1), Ev in Ev3; [discriminate |].
      injection Ev3 as <-. exact E3.
  - intros Hp Hb. now apply mandelbulb_distance_safe.
  - destruct (tetrahedron_vertices_run h1 a1 scale H1)
      as [vs1 [h1' [E1 [Hx1 Hv1]]]].
    destruct (tetrahedron_vertices_run h2 a2 scale H2)
      as [vs2 [h2' [E2 [Hx2 Hv2]]]].
    destruct Hx1 as [Hn Hc].
    destruct (tetrahedron_vertices_run h1' a1 scale ltac:(lia))
      as [vs3 [h1'' [E3 [_ Hv3]]]].
    exists vs1, h1', vs2, h2'.
    split; [exact E1 |]. split; [exact E2 |].
    split; [now rewrite Hv1, Hv2, Heq |]. split; [exact Hv1 |].
    split; [split; assumption |]. split; [exact Hx2 |].
    exists vs3, h1''. split; [exact E3 |].
    now rewrite Hv3, Hv1, (Hc a1 H1).
Qed.

(** Two stores that hold the same point at different references. *)
Lemma pure_functions_deterministic_witness :
  let h1 := Ref.single (mkVector 1 0 0) in
  let h2 := Ref.mkHeap (fun _ => mkVector 1 0 0) 3%nat in
  (exists v h1' h2',
      Ref.mandelbulb_distance 0%nat 8 15 2 h1 = Ok (v, h1')
      /\ Ref.mandelbulb_distance 2%nat 8 15 2 h2 = Ok (v, h2')
      /\ mandelbulb_distance (Ref.cell h1 0%nat) 8 15 2 = Ok v
      /\ Ref.extends h1 h1' /\ Ref.extends h2 h2'
      /\ exists h1'',
           Ref.mandelbulb_distance 0%nat 8 15 2 h1' = Ok (v, h1''))
  /\ (exists vs1 h1' vs2 h2',
         Ref.tetrahedron_vertices 0%nat 4 h1 = Ok (vs1, h1')
         /\ Ref.tetrahedron_vertices 2%nat 4 h2 = Ok (vs2, h2')
         /\ map (Ref.cell h1') vs1 = map (Ref.cell h2') vs2
         /\ map (Ref.cell h1') vs1
            = tetrahedron_vertices (Ref.cell h1 0%nat) 4
         /\ Ref.extends h1 h1' /\ Ref.extends h2 h2'
         /\ exists vs1' h1'',
              Ref.tetrahedron_vertices 0%nat 4 h1' = Ok (vs1', h1'')
              /\ map (Ref.cell h1'') vs1' = map (Ref.cell h1') vs1).
Proof.
  intros h1 h2.
  destruct (pure_functions_deterministic h1 h2 0%nat 2%nat 8 15 2 4)
    as [Hd [Hs Ht]].
  - unfold h1. cbn. lia.
  - unfold h2. cbn. lia.
  - reflexivity.
  - split; [| exact Ht].
    destruct Hd as [Hok | [e [_ [_ [Hraise _]]]]]; [exact Hok |].
    destruct (Hs ltac:(lra) ltac:(lra)) as [v Hv].
    rewrite Hv in Hraise. discriminate.
Defined.

End RefFacts.

(** * Worked examples *)

Example tetra_name_example : tetra_name 5 1023 = "Tetra_L5_N1023"%string.
Proof. reflexivity. Qed.

(** One level of subdivision creates four tetrahedra, named in creation
    order. *)
Example sierpinski_depth_one_names (c : Vector) :
  map obj_name (create_sierpinski_pyramid c 4 1 true) =
  ["Tetra_L1_N0"; "Tetra_L1_N1"; "Tetra_L1_N2"; "Tetra_L1_N3"]%string.
Proof.
  unfold create_sierpinski_pyramid.
  rewrite (sierpinski_recursive_spec true 1 1) by lia.
  reflexivity.
Qed.

(** With no iterations the base tetrahedron itself is created. *)
Example sierpinski_depth_zero (c : Vector) (s : R) :
  create_sierpinski_pyramid c s 0 false =
  [create_single_tetrahedron c s "Tetra_L0_N0"].
Proof.
  unfold create_sierpinski_pyramid.
  now rewrite sierpinski_recursive_leaf by lia.
Qed.

(** At the origin the first pass returns [0]. *)
Example mandelbulb_distance_origin :
  mandelbulb_distance (mkVector 0 0 0) 8 15 2 = Ok 0.
Proof.
  unfold mandelbulb_distance, mandelbulb_loop.
  change (py_range 15) with (0%Z :: map Z.of_nat (seq 1 14)).
  cbn [for_each]. unfold mandelbulb_pass at 1. cbn [st_z st_dr].
  rewrite vlength_x by lra.
  rewrite fgt_false, flt_true by lra. reflexivity.
Qed.

(** Outside the bailout radius the first pass breaks, with [dr = 1]. *)
Example mandelbulb_distance_far :
  mandelbulb_distance (mkVector 3 0 0) 8 15 2 = Ok (0.5 * ln 3 * 3 / 1).
Proof.
  unfold mandelbulb_distance, mandelbulb_loop.
  change (py_range 15) with (0%Z :: map Z.of_nat (seq 1 14)).
  cbn [for_each]. unfold mandelbulb_pass at 1. cbn [st_z st_dr].
  rewrite vlength_x by lra.
  rewrite fgt_true by lra. cbn [snd st_r st_dr].
  destruct (mandelbulb_estimate_cases 3 1) as [[_ [_ E]] | [H _]];
    [exact E | lra].
Qed.

(** On a 2 by 2 grid the four candidate quads use the same four vertices:
    the first face is created, the other three attempts fail and are
    dropped. *)
Example klein_two_by_two :
  exists bm steps,
    create_klein_bottle_mesh bmesh_faces_new 2 2 = Ok (bm, steps)
    /\ map fs_quad steps
       = [[0; 2; 3; 1]; [1; 3; 2; 0]; [2; 0; 1; 3]; [3; 1; 0; 2]]%nat
    /\ map fs_raised steps
       = [None; Some ValueError; Some ValueError; Some ValueError]
    /\ bm_faces bm = [[0; 2; 3; 1]]%nat
    /\ length (bm_verts bm) = 4%nat.
Proof.
  unfold create_klein_bottle_mesh. rewrite klein_vertices_grid.
  cbn [bind fst snd].
  assert (Hlen : length (flat_map (klein_row 2 2) (py_range 2)) = 4%nat)
    by reflexivity.
  revert Hlen. generalize (flat_map (klein_row 2 2) (py_range 2)).
  intros vs Hlen. eexists _, _. split; [vm_compute; reflexivity |].
  cbn [map fs_quad fs_raised bm_faces bm_verts]. auto.
Qed.

(** Mandelbulb.py deletes the cube of the default scene and keeps its
    camera; KleinBottle.py deletes both; spacelight.py, started while the
    cube is being edited, raises at its first line. *)
Example mandelbulb_keeps_camera :
  (exists sc', Host.Mandelbulb_start Host.default_scene
               = Ok (sc', Some Host.CreateGeometry)
               /\ Host.object_names sc' = ["Camera"%string])
  /\ (exists sc', Host.KleinBottle_start Host.default_scene
                  = Ok (sc', Some Host.CreateGeometry)
                  /\ Host.object_names sc' = [])
  /\ Host.spacelight_start
       (Host.mkScene Host.EDIT (Host.sc_objects Host.default_scene)
                     (Host.sc_materials Host.default_scene)
                     (Host.sc_active Host.default_scene))
     = Raise RuntimeError.
Proof.
  split; [| split]; [eexists; split; reflexivity .. | reflexivity].
Qed.

(** * Further properties *)

(** ** Mandelbulb: edge cases and invariants of the estimate *)

(** X1: with no iteration to run ([iterations <= 0]) the estimate is [0] at
    every point: [r] keeps its initial [0.0]. *)
Theorem mandelbulb_distance_no_iterations (pos : Vector) (power : R)
    (iterations : Z) (bailout : R) :
  (iterations <= 0)%Z ->
  mandelbulb_distance pos power iterations bailout = Ok 0.
Proof.
  intros Hk. unfold mandelbulb_distance, mandelbulb_loop.
  rewrite py_range_nil by assumption. cbn [for_each snd st_r st_dr].
  unfold mandelbulb_estimate. rewrite fgt_false by lra. reflexivity.
Qed.

Lemma mandelbulb_distance_no_iterations_witness :
  mandelbulb_distance (mkVector 1 2 3) 8 0 2 = Ok 0.
Proof.
  apply (mandelbulb_distance_no_iterations (mkVector 1 2 3) 8 0 2). lia.
Defined.

Lemma py_range_cons (n : Z) :
  (1 <= n)%Z -> exists rest, py_range n = 0%Z :: rest.
Proof.
  intros Hn. unfold py_range.
  destruct (Z.to_nat n) as [| m] eqn:E; [lia |].
  cbn [seq map]. eauto.
Qed.

(** X2: a start point outside the bailout radius escapes in the first pass
    with [dr = 1]: the estimate is [0.5 * ln |pos| * |pos|], whatever the
    power and the iteration count, and it is positive when the radius
    exceeds 1. *)
Theorem mandelbulb_distance_escaped (pos : Vector) (power : R)
    (iterations : Z) (bailout : R) :
  (1 <= iterations)%Z ->
  0.0001 <= bailout ->
  vlength pos > bailout ->
  mandelbulb_distance pos power iterations bailout
  = Ok (0.5 * ln (vlength pos) * vlength pos / 1)
  /\ (1 <= bailout -> 0.5 * ln (vlength pos) * vlength pos / 1 > 0).
Proof.
  intros Hk Hb Hr. split.
  - unfold mandelbulb_distance, mandelbulb_loop.
    destruct (py_range_cons iterations Hk) as [rest ->].
    cbn [for_each]. unfold mandelbulb_pass at 1. cbn [st_z st_dr].
    rewrite fgt_true by assumption. cbn [snd st_r st_dr].
    destruct (mandelbulb_estimate_cases (vlength pos) 1)
      as [[_ [_ E]] | [H _]]; [exact E | lra].
  - intros Hb1. assert (Hln : 0 < ln (vlength pos)).
    { rewrite <- ln_1. apply ln_increasing; lra. }
    nra.
Qed.

Lemma mandelbulb_distance_escaped_witness :
  mandelbulb_distance (mkVector 3 0 0) 8 15 2
  = Ok (0.5 * ln (vlength (mkVector 3 0 0)) * vlength (mkVector 3 0 0) / 1)
  /\ (1 <= 2 ->
      0.5 * ln (vlength (mkVector 3 0 0)) * vlength (mkVector 3 0 0) / 1 > 0).
Proof.
  apply (mandelbulb_distance_escaped (mkVector 3 0 0) 8 15 2);
    [lia | lra | rewrite vlength_x; lra].
Defined.







(** A start point within [0.0001] of the origin returns [0] in the first
    pass. *)
Lemma mandelbulb_distance_small (pos : Vector) (power : R) (iterations : Z)
    (bailout : R) :
  (1 <= iterations)%Z -> vlength pos < 0.0001 -> vlength pos <= bailout ->
  mandelbulb_distance pos power iterations bailout = Ok 0.
Proof.
  intros Hk Hs Hb. unfold mandelbulb_distance, mandelbulb_loop.
  destruct (py_range_cons iterations Hk) as [rest ->].
  cbn [for_each]. unfold mandelbulb_pass at 1. cbn [st_z st_dr].
  rewrite fgt_false, flt_true by lra. reflexivity.
Qed.

Lemma vlength_div (co : Vector) (k : R) :
  k <> 0 ->
  vlength (mkVector (vx co / k) (vy co / k) (vz co / k))
  = vlength co / Rabs k.
Proof.
  intros Hk. unfold vlength. cbn [vx vy vz].
  replace (vx co / k * (vx co / k) + vy co / k * (vy co / k)
           + vz co / k * (vz co / k))
    with ((vx co * vx co + vy co * vy co + vz co * vz co) / Rsqr k)
    by (unfold Rsqr; field; exact Hk).
  rewrite sqrt_div_alt by (apply Rlt_0_sqr; exact Hk).
  now rewrite sqrt_Rsqr_abs.
Qed.

Lemma vadd_zero (co n : Vector) : vadd co (vscale 0 n) = co.
Proof.
  destruct co as [x y z]. unfold vadd, vscale. cbn [vx vy vz].
  f_equal; ring.
Qed.

(** One vertex, for a non-zero scale: it is moved along its normal, and
    not at all when it lies within [0.0001 * |scale|] of the origin,
    unless the distance estimate raises. *)
Lemma displace_vertex_cases (scale power : R) (co normal : Vector) :
  scale <> 0 ->
  (exists t,
      displace_vertex scale power (co, normal)
      = Ok (vadd co (vscale t normal), normal)
      /\ (vlength co < 0.0001 * Rabs scale -> t = 0))
  \/ (0.0001 * Rabs scale <= vlength co
      /\ ~ 1 <= power <= 1000
      /\ (displace_vertex scale power (co, normal) = Raise OverflowError
          \/ displace_vertex scale power (co, normal) = Raise ValueError)).
Proof.
  intros Hs. unfold displace_vertex, vdiv. rewrite feq_false by assumption.
  cbn [bind].
  set (pos := mkVector (vx co / scale) (vy co / scale) (vz co / scale)).
  destruct (Rlt_dec (vlength co) (0.0001 * Rabs scale)) as [Hsmall | Hbig].
  - left. assert (Hpos : vlength pos < 0.0001).
    { unfold pos. rewrite vlength_div by assumption.
      assert (Ha : 0 < Rabs scale) by (now apply Rabs_pos_lt).
      apply (Rmult_lt_reg_r (Rabs scale)); [exact Ha |].
      unfold Rdiv. rewrite Rmult_assoc, Rinv_l by lra. lra. }
    rewrite mandelbulb_distance_small by (try lia; lra). cbn [bind].
    exists (- 0 * scale * 0.3). split; [reflexivity |]. intros _. ring.
  - destruct (mandelbulb_distance pos power 12 2) as [dist | e] eqn:E;
      cbn [bind].
    + left. eexists. split; [reflexivity | intros H; contradiction].
    + right. split; [lra |]. split.
      * intros Hp.
        destruct (mandelbulb_distance_safe pos power 12 2 Hp ltac:(lra))
          as [v Ev].
        rewrite E in Ev. discriminate.
      * destruct (mandelbulb_distance_raise _ _ _ _ _ E) as [-> | ->]; auto.
Qed.

(** X4: the vertex pass of [create_mandelbulb].  With [scale = 0] the first
    vertex raises [ZeroDivisionError] (an empty mesh passes).  With a
    non-zero scale the pass either goes through all the vertices, each of
    which keeps its normal, moves along that normal only, and stays where
    it is when it lies within [0.0001 * |scale|] of the origin, or it
    stops at a vertex whose distance estimate raises [OverflowError] or
    [ValueError]; with a power between 1 and 1000 it goes through. *)
Theorem displace_vertices_behaviour (scale power : R)
    (verts : list (Vector * Vector)) :
  (scale = 0
   /\ displace_vertices scale power verts
      = match verts with [] => Ok [] | _ => Raise ZeroDivisionError end)
  \/ (scale <> 0
      /\ ((exists verts',
              displace_vertices scale power verts = Ok verts'
              /\ Forall2 (fun v v' =>
                            snd v' = snd v
                            /\ (exists t,
                                   fst v' = vadd (fst v) (vscale t (snd v)))
                            /\ (vlength (fst v) < 0.0001 * Rabs scale ->
                                fst v' = fst v))
                         verts verts')
          \/ (~ 1 <= power <= 1000
              /\ (displace_vertices scale power verts = Raise OverflowError
                  \/ displace_vertices scale power verts
                     = Raise ValueError)))).
Proof.
  destruct (Req_dec_T scale 0) as [-> | Hs]; [left | right];
    (split; [assumption || reflexivity |]).
  - destruct verts as [| [co n] rest]; [reflexivity |].
    cbn [displace_vertices]. unfold displace_vertex, vdiv, feq.
    destruct (Req_dec_T 0 0) as [_ | H]; [reflexivity | contradiction].
  - induction verts as [| [co n] rest IH].
    + left. exists []. split; [reflexivity | constructor].
    + cbn [displace_vertices].
      destruct (displace_vertex_cases scale power co n Hs)
        as [[t [Et Ht]] | [_ [Hp [Et | Et]]]]; rewrite Et; cbn [bind];
        [| right; split; [exact Hp | auto] ..].
      destruct IH as [[rest' [Er Hall]] | [Hp [Er | Er]]]; rewrite Er;
        cbn [bind]; [| right; split; [exact Hp | auto] ..].
      left. eexists. split; [reflexivity |].
      constructor; [| exact Hall]. cbn [fst snd].
      split; [reflexivity |]. split; [now exists t |].
      intros Hsmall. rewrite (Ht Hsmall). apply vadd_zero.
Qed.

(** ** Sierpinski: edge cases, names and extent *)

(** X5: with [iterations <= 0] (zero or negative) the recursion stops at
    once: exactly one tetrahedron is created, the base one, under the name
    [Tetra_L0_N0], whatever [hollow] is. *)
Theorem create_sierpinski_pyramid_no_iterations (base_center : Vector)
    (size : R) (iterations : Z) (hollow : bool) :
  (iterations <= 0)%Z ->
  create_sierpinski_pyramid base_center size iterations hollow
  = [create_single_tetrahedron base_center size "Tetra_L0_N0"].
Proof.
  intros Hn. unfold create_sierpinski_pyramid.
  now rewrite sierpinski_recursive_leaf by lia.
Qed.

Lemma create_sierpinski_pyramid_no_iterations_witness :
  create_sierpinski_pyramid (mkVector 0 0 0) 4 (-3) true
  = [create_single_tetrahedron (mkVector 0 0 0) 4 "Tetra_L0_N0"].
Proof.
  apply (create_sierpinski_pyramid_no_iterations (mkVector 0 0 0) 4 (-3) true).
  lia.
Defined.

Lemma str_of_Z_inj (a b : Z) : str_of_Z a = str_of_Z b -> a = b.
Proof.
  unfold str_of_Z. intros H.
  assert (Hnn : forall z, Z.to_int z <> Decimal.Pos Decimal.Nil
                          /\ Z.to_int z <> Decimal.Neg Decimal.Nil).
  { intros [| p | p]; cbn; split; try discriminate;
      intros E; injection E as E;
      now apply DecimalPos.Unsigned.to_uint_nonnil in E. }
  apply (f_equal NilZero.int_of_string) in H.
  rewrite !NilZero.isi in H by apply Hnn.
  injection H as H. apply (f_equal Z.of_int) in H.
  now rewrite !DecimalZ.of_to in H.
Qed.

Lemma append_inj_l (s a b : string) :
  (s ++ a)%string = (s ++ b)%string -> a = b.
Proof.
  induction s as [| c s IH]; cbn; [auto |]. intros H. injection H as H. auto.
Qed.

Lemma tetra_name_inj (lvl a b : Z) :
  tetra_name lvl a = tetra_name lvl b -> a = b.
Proof.
  unfold tetra_name. intros H.
  apply append_inj_l, append_inj_l, append_inj_l in H.
  now apply str_of_Z_inj.
Qed.

Lemma build_leaves_names (lvl : Z) (ts : list (Vector * R)) :
  forall cnt,
    map obj_name (build_leaves lvl cnt ts)
    = map (fun i => tetra_name lvl (cnt + Z.of_nat i)) (seq 0 (length ts)).
Proof.
  induction ts as [| t ts IH]; intros cnt; [reflexivity |].
  cbn [build_leaves map length seq]. rewrite IH. f_equal.
  - cbn [create_single_tetrahedron obj_name]. f_equal. lia.
  - rewrite <- seq_shift, map_map. apply map_ext. intros i. f_equal. lia.
Qed.

Lemma NoDup_map_injective {A B : Type} (f : A -> B) (l : list A) :
  (forall x y, f x = f y -> x = y) -> NoDup l -> NoDup (map f l).
Proof.
  intros Hinj. induction 1 as [| x l Hx Hl IH]; cbn [map]; constructor; auto.
  rewrite in_map_iff. intros [y [E Hy]]. apply Hinj in E. now subst.
Qed.

(** X6: the objects are named [Tetra_L<n>_N<i>] with [n] the iteration
    count and [i] running from 0 in creation order, so the names are
    pairwise distinct. *)
Theorem create_sierpinski_pyramid_names (base_center : Vector) (size : R)
    (iterations : Z) (hollow : bool) :
  (0 <= iterations)%Z ->
  let names :=
    map obj_name
        (create_sierpinski_pyramid base_center size iterations hollow) in
  names = map (fun i => tetra_name iterations (Z.of_nat i))
              (seq 0 (4 ^ Z.to_nat iterations))
  /\ NoDup names.
Proof.
  intros Hn names. subst names. unfold create_sierpinski_pyramid.
  rewrite (sierpinski_recursive_spec hollow iterations (Z.to_nat iterations))
    by lia.
  cbn [fst]. rewrite build_leaves_names, dfs_leaves_length.
  split; [reflexivity |].
  apply NoDup_map_injective; [| apply seq_NoDup].
  intros i j H. apply tetra_name_inj in H. lia.
Qed.

Lemma create_sierpinski_pyramid_names_witness :
  let names :=
    map obj_name (create_sierpinski_pyramid (mkVector 0 0 0) 4 5 false) in
  names = map (fun i => tetra_name 5 (Z.of_nat i)) (seq 0 (4 ^ Z.to_nat 5))
  /\ NoDup names.
Proof.
  apply (create_sierpinski_pyramid_names (mkVector 0 0 0) 4 5 false). lia.
Defined.

Lemma sqrt23_pos : 0 < R_sqrt.sqrt (2 / 3).
Proof. apply sqrt_lt_R0. lra. Qed.

(** The heights of the centers along the recursion: a leaf center is not
    below the root center, and a leaf of scale [k'] leaves room for
    [2 * k' * sqrt (2/3)] under the bound. *)
Lemma dfs_leaves_height (n : nat) :
  forall c k,
    0 <= k ->
    Forall (fun t =>
              0 <= snd t
              /\ vz c <= vz (fst t)
              /\ vz (fst t) + 2 * snd t * R_sqrt.sqrt (2 / 3)
                 <= vz c + 2 * k * R_sqrt.sqrt (2 / 3))
           (dfs_leaves n c k).
Proof.
  pose proof sqrt23_pos as Hq.
  induction n as [| n IH]; intros c k Hk.
  - cbn [dfs_leaves]. constructor; [| constructor]. cbn [fst snd]. lra.
  - cbn [dfs_leaves]. apply Forall_flat_map.
    rewrite tetrahedron_vertices_closed.
    assert (Hstep : forall v,
               vz c <= vz v ->
               vz v <= vz c + k * R_sqrt.sqrt (2 / 3) ->
               Forall (fun t =>
                         0 <= snd t
                         /\ vz c <= vz (fst t)
                         /\ vz (fst t) + 2 * snd t * R_sqrt.sqrt (2 / 3)
                            <= vz c + 2 * k * R_sqrt.sqrt (2 / 3))
                      (dfs_leaves n v (k / 2))).
    { intros v Hlo Hhi. eapply Forall_impl; [| apply (IH v (k / 2)); lra].
      intros t [H0 [H1 H2]]. repeat split; lra. }
    assert (Hkq : 0 <= k * R_sqrt.sqrt (2 / 3)) by nra.
    repeat constructor; apply Hstep; cbn [vz]; lra.
Qed.

(** X7: for [iterations >= 0] and a non-negative size, every vertex of every
    created tetrahedron lies between the height of the base center and
    [2 * size * sqrt (2/3)] above it: the fractal is at most twice as tall
    as the base tetrahedron. *)
Theorem create_sierpinski_pyramid_height (base_center : Vector) (size : R)
    (iterations : Z) (hollow : bool) :
  (0 <= iterations)%Z -> 0 <= size ->
  Forall (fun o =>
            Forall (fun v =>
                      vz base_center <= vz v
                      <= vz base_center + 2 * size * R_sqrt.sqrt (2 / 3))
                   (obj_verts o))
         (create_sierpinski_pyramid base_center size iterations hollow).
Proof.
  intros Hn Hs. pose proof sqrt23_pos as Hq.
  unfold create_sierpinski_pyramid.
  rewrite (sierpinski_recursive_spec hollow iterations (Z.to_nat iterations))
    by lia.
  cbn [fst]. generalize 0%Z.
  pose proof (dfs_leaves_height (Z.to_nat iterations) base_center size Hs)
    as Hleaves.
  induction Hleaves as [| t ts [H0 [H1 H2]] Hts IH]; intros cnt;
    cbn [build_leaves]; constructor; [| apply IH].
  cbn [create_single_tetrahedron obj_verts].
  rewrite tetrahedron_vertices_closed.
  assert (Hkq : 0 <= snd t * R_sqrt.sqrt (2 / 3)) by nra.
  repeat (apply Forall_cons; [cbn [vz]; lra |]). apply Forall_nil.
Qed.

Lemma create_sierpinski_pyramid_height_witness :
  Forall (fun o =>
            Forall (fun v =>
                      vz (mkVector 0 0 0) <= vz v
                      <= vz (mkVector 0 0 0) + 2 * 4 * R_sqrt.sqrt (2 / 3))
                   (obj_verts o))
         (create_sierpinski_pyramid (mkVector 0 0 0) 4 5 false).
Proof.
  apply (create_sierpinski_pyramid_height (mkVector 0 0 0) 4 5 false);
    [lia | lra].
Defined.

Lemma sqrt3_pos : 0 < R_sqrt.sqrt 3.
Proof. apply sqrt_lt_R0. lra. Qed.

(** X8: the mesh of one tetrahedron is a closed, consistently wound
    surface on its four vertices (every directed edge of a face occurs
    once, and its reverse once), and for a positive scale every face is
    wound so that its normal points away from the centroid. *)
Theorem create_single_tetrahedron_surface (center : Vector) (scale : R)
    (name : string) :
  scale > 0 ->
  let o := create_single_tetrahedron center scale name in
  length (obj_verts o) = 4%nat
  /\ Forall (Forall (fun i => (i < 4)%nat)) (obj_faces o)
  /\ closed_surface (obj_faces o) = true
  /\ Forall (faces_away (obj_verts o) (centroid (obj_verts o)))
            (obj_faces o).
Proof.
  intros Hs o. subst o. cbn [create_single_tetrahedron obj_verts obj_faces].
  split; [reflexivity |].
  split; [repeat (apply Forall_cons;
                  [repeat (apply Forall_cons; [lia |]); apply Forall_nil |]);
          apply Forall_nil |].
  split; [reflexivity |].
  rewrite tetrahedron_vertices_closed.
  pose proof sqrt3_sq as Ha. pose proof sqrt23_sq as Hb.
  pose proof sqrt3_pos as Ha0. pose proof sqrt23_pos as Hb0.
  set (a := R_sqrt.sqrt 3) in *. set (b := R_sqrt.sqrt (2 / 3)) in *.
  assert (Hsab : 0 < scale * scale * scale * (a * b)).
  { repeat apply Rmult_lt_0_compat; assumption. }
  assert (E3 : scale * scale * scale * (a * a * a * b)
               = 3 * (scale * scale * scale * (a * b))).
  { replace (a * a * a * b) with ((a * a) * (a * b)) by ring.
    rewrite Ha. ring. }
  repeat (apply Forall_cons;
          [unfold faces_away, centroid, vdot, vcross, vsub;
           cbn [map nth_error length fold_right vx vy vz INR]; lra |]).
  apply Forall_nil.
Qed.

Lemma create_single_tetrahedron_surface_witness :
  let o := create_single_tetrahedron (mkVector 0 0 0) 4 "Tetrahedron" in
  length (obj_verts o) = 4%nat
  /\ Forall (Forall (fun i => (i < 4)%nat)) (obj_faces o)
  /\ closed_surface (obj_faces o) = true
  /\ Forall (faces_away (obj_verts o) (centroid (obj_verts o)))
            (obj_faces o).
Proof.
  apply (create_single_tetrahedron_surface (mkVector 0 0 0) 4 "Tetrahedron").
  lra.
Defined.

(** ** Gradient materials *)

Lemma for_fold_app {I S : Type} (body : I -> S -> result S)
    (xs ys : list I) (s : S) :
  for_fold (xs ++ ys) body s
  = bind (for_fold xs body s) (for_fold ys body).
Proof.
  revert s. induction xs as [| x xs IH]; intros s; [reflexivity |].
  cbn [app for_fold]. destruct (body x s) as [s' | e]; cbn [bind]; auto.
Qed.

Lemma mix_between (a b t : R) :
  0 <= t <= 1 -> between a b (a * (1 - t) + b * t).
Proof.
  intros Ht. unfold between, Rmin, Rmax.
  destruct (Rle_dec a b); nra.
Qed.

Lemma mix_color_between (c0 c1 : R * R * R) (t : R) :
  0 <= t <= 1 -> color_between c0 c1 (mix_color c0 c1 t).
Proof.
  intros Ht. destruct c0 as [[r0 g0] b0], c1 as [[r1 g1] b1].
  unfold color_between. cbn [mix_color fst snd].
  repeat split; apply mix_between; assumption.
Qed.

Lemma mix_color_start (c0 c1 : R * R * R) : mix_color c0 c1 0 = c0.
Proof.
  destruct c0 as [[r0 g0] b0], c1 as [[r1 g1] b1]. cbn [mix_color].
  f_equal; [f_equal |]; ring.
Qed.

Lemma mix_color_end (c0 c1 : R * R * R) : mix_color c0 c1 1 = c1.
Proof.
  destruct c0 as [[r0 g0] b0], c1 as [[r1 g1] b1]. cbn [mix_color].
  f_equal; [f_equal |]; ring.
Qed.

Lemma gradient_loop (count : Z) (c0 c1 : R * R * R) (xs : list Z) :
  forall acc,
    for_fold xs (gradient_pass count c0 c1) acc
    = Ok (acc ++ map (gradient_material count c0 c1) xs).
Proof.
  induction xs as [| i xs IH]; intros acc.
  - cbn. now rewrite app_nil_r.
  - cbn [for_fold]. unfold gradient_pass at 1.
    rewrite int_truediv_ok by lia. cbn [bind]. rewrite IH.
    cbn [map]. now rewrite <- app_assoc.
Qed.

(** X9: [create_gradient_materials] never divides by zero.  It returns
    [count] materials (none for [count <= 0]); the first has the start
    color; for [count >= 2] the last has the end color (a single material
    has the start color); every color component lies between the start and
    end components. *)
Theorem create_gradient_materials_colors (count : Z)
    (color_start color_end : R * R * R) :
  exists materials,
    create_gradient_materials count color_start color_end = Ok materials
    /\ length materials = Z.to_nat count
    /\ (forall m, nth_error materials 0 = Some m ->
                  mat_color m = color_start)
    /\ (forall m, (2 <= count)%Z ->
                  nth_error materials (Z.to_nat count - 1) = Some m ->
                  mat_color m = color_end)
    /\ Forall (fun m => color_between color_start color_end (mat_color m))
              materials.
Proof.
  unfold create_gradient_materials. rewrite gradient_loop. cbn [app].
  eexists. split; [reflexivity |].
  split; [now rewrite length_map, py_range_length |].
  split; [| split].
  - intros m Hm. rewrite nth_error_map in Hm.
    destruct (nth_error (py_range count) 0) as [i |] eqn:Ei;
      [| discriminate].
    assert (Hlt : (0 < Z.to_nat count)%nat).
    { rewrite <- py_range_length. apply nth_error_Some. congruence. }
    rewrite py_range_nth in Ei by assumption.
    injection Ei as <-. injection Hm as <-.
    cbn [gradient_material mat_color Z.of_nat].
    unfold Rdiv. rewrite Rmult_0_l. apply mix_color_start.
  - intros m Hc Hm. rewrite nth_error_map in Hm.
    rewrite py_range_nth in Hm by lia. injection Hm as <-.
    cbn [gradient_material mat_color].
    replace (Z.max (count - 1) 1) with (count - 1)%Z by lia.
    replace (Z.of_nat (Z.to_nat count - 1)) with (count - 1)%Z by lia.
    unfold Rdiv. rewrite Rinv_r by (apply not_0_IZR; lia).
    apply mix_color_end.
  - apply Forall_forall. intros m Hm. apply in_map_iff in Hm.
    destruct Hm as [i [<- Hi]]. cbn [gradient_material mat_color].
    apply mix_color_between.
    unfold py_range in Hi. apply in_map_iff in Hi.
    destruct Hi as [k [<- Hk]]. apply in_seq in Hk.
    assert (Hd : (0 < Z.max (count - 1) 1)%Z) by lia.
    assert (Hd' : 0 < IZR (Z.max (count - 1) 1)) by (now apply IZR_lt).
    assert (Hk0 : 0 <= IZR (Z.of_nat k)) by (apply IZR_le; lia).
    assert (Hk1 : IZR (Z.of_nat k) <= IZR (Z.max (count - 1) 1))
      by (apply IZR_le; lia).
    split.
    + apply Rmult_le_pos; [exact Hk0 |]. left. now apply Rinv_0_lt_compat.
    + apply (Rmult_le_reg_r (IZR (Z.max (count - 1) 1))); [exact Hd' |].
      unfold Rdiv. rewrite Rmult_assoc, Rinv_l by lra. lra.
Qed.

(** ** Materials by rank *)

Section SortedFacts.

Context {A : Type}.
Variable key : A -> R.

Lemma insert_by_perm (x : A) (l : list A) :
  Permutation.Permutation (insert_by key x l) (x :: l).
Proof.
  induction l as [| y l IH]; cbn [insert_by];
    [apply Permutation.Permutation_refl |].
  destruct (flt (key x) (key y)); [apply Permutation.Permutation_refl |].
  eapply Permutation.perm_trans;
    [apply Permutation.perm_skip, IH | apply Permutation.perm_swap].
Qed.

Lemma insert_by_sorted (x : A) (l : list A) :
  Sorted.Sorted (fun a b => key a <= key b) l ->
  Sorted.Sorted (fun a b => key a <= key b) (insert_by key x l).
Proof.
  induction 1 as [| y l Hl IH Hy]; cbn [insert_by].
  - repeat constructor.
  - destruct (Rlt_dec (key x) (key y)) as [Hlt | Hge].
    + rewrite flt_true by assumption.
      constructor; [now constructor |]. constructor. lra.
    + rewrite flt_false by lra. constructor; [exact IH |].
      destruct l as [| z l]; cbn [insert_by].
      * constructor. lra.
      * inversion Hy; subst.
        destruct (flt (key x) (key z)); constructor; lra.
Qed.

Lemma py_sorted_from (l : list A) :
  forall acc,
    Sorted.Sorted (fun a b => key a <= key b) acc ->
    Permutation.Permutation
      (fold_left (fun acc x => insert_by key x acc) l acc) (acc ++ l)
    /\ Sorted.Sorted (fun a b => key a <= key b)
                     (fold_left (fun acc x => insert_by key x acc) l acc).
Proof.
  induction l as [| x l IH]; intros acc Hacc.
  - cbn. rewrite app_nil_r.
    split; [apply Permutation.Permutation_refl | exact Hacc].
  - cbn [fold_left].
    destruct (IH (insert_by key x acc) (insert_by_sorted x acc Hacc))
      as [Hp Hs].
    split; [| exact Hs].
    eapply Permutation.perm_trans; [exact Hp |].
    eapply Permutation.perm_trans;
      [apply Permutation.Permutation_app_tail, insert_by_perm |].
    apply Permutation.Permutation_middle.
Qed.

(** [sorted] returns the elements it was given, in ascending key order. *)
Lemma py_sorted_spec (l : list A) :
  Permutation.Permutation (py_sorted key l) l
  /\ Sorted.Sorted (fun a b => key a <= key b) (py_sorted key l).
Proof. apply (py_sorted_from l []). constructor. Qed.

Lemma insert_by_last (x : A) (l : list A) :
  Forall (fun y => key y <= key x) l -> insert_by key x l = l ++ [x].
Proof.
  induction 1 as [| y l Hy Hl IH]; [reflexivity |].
  cbn [insert_by app]. rewrite flt_false by assumption. now rewrite IH.
Qed.

(** [sorted] is stable: a list already in ascending key order (equal keys
    included) comes back as it is. *)
Lemma py_sorted_stable (l : list A) :
  Sorted.StronglySorted (fun a b => key a <= key b) l ->
  py_sorted key l = l.
Proof.
  intros Hl. unfold py_sorted.
  enough (H : forall acc,
             Forall (fun y => Forall (fun x => key y <= key x) l) acc ->
             fold_left (fun acc x => insert_by key x acc) l acc = acc ++ l)
    by (apply (H []); constructor).
  induction Hl as [| x l Hl IH Hx]; intros acc Hacc.
  - cbn. now rewrite app_nil_r.
  - cbn [fold_left]. rewrite insert_by_last.
    + rewrite IH; [now rewrite <- app_assoc |].
      apply Forall_app. split.
      * eapply Forall_impl; [| exact Hacc].
        intros y Hy. now inversion Hy.
      * constructor; [exact Hx | constructor].
    + eapply Forall_impl; [| exact Hacc]. intros y Hy. now inversion Hy.
Qed.

End SortedFacts.

Lemma py_int_nonneg (x : R) (z : Z) :
  0 <= x -> IZR z <= x < IZR z + 1 -> py_int x = z.
Proof.
  intros Hx Hz. unfold py_int. rewrite flt_false by assumption.
  symmetry. apply Int_part_spec. lra.
Qed.

(** *** The material index under rounding *)

Lemma py_int_floor (x : R) : 0 <= x -> IZR (py_int x) <= x < IZR (py_int x) + 1.
Proof.
  intros Hx. unfold py_int. rewrite flt_false by assumption.
  destruct (base_Int_part x) as [H1 H2]. lra.
Qed.

Lemma py_int_mono (x y : R) : 0 <= x <= y -> (py_int x <= py_int y)%Z.
Proof.
  intros [Hx Hxy].
  pose proof (py_int_floor x Hx) as [H1 _].
  pose proof (py_int_floor y ltac:(lra)) as [_ H2].
  assert (H : IZR (py_int x) < IZR (py_int y + 1))
    by (rewrite plus_IZR; lra).
  apply lt_IZR in H. lia.
Qed.

Lemma Rabs_bound (x y : R) : Rabs x <= y -> - y <= x <= y.
Proof. unfold Rabs. destruct (Rcase_abs x); lra. Qed.

Section Rounding.

Variable rnd : R -> R.

(** What is assumed of the rounding: it is monotone, it keeps zero, and on
    the magnitudes that occur here its relative error is at most
    [2^-53]. *)
Hypothesis rnd_mono : forall x y, x <= y -> rnd x <= rnd y.
Hypothesis rnd_zero : rnd 0 = 0.
Hypothesis rnd_error :
  forall x, / 2 ^ 60 <= x <= 2 ^ 60 -> Rabs (rnd x - x) <= x / 2 ^ 53.

Lemma rnd_nonneg (x : R) : 0 <= x -> 0 <= rnd x.
Proof. intros Hx. rewrite <- rnd_zero. now apply rnd_mono. Qed.

Lemma rounded_product_nonneg (n m i : Z) :
  (0 <= i)%Z -> (0 < n)%Z -> (0 <= m)%Z ->
  0 <= rnd (rnd (IZR i / IZR n) * IZR m).
Proof.
  intros Hi Hn Hm. apply rnd_nonneg.
  assert (0 <= IZR i) by (apply IZR_le; lia).
  assert (0 < IZR n) by (apply IZR_lt; lia).
  assert (0 <= IZR m) by (apply IZR_le; lia).
  apply Rmult_le_pos; [| assumption]. apply rnd_nonneg.
  unfold Rdiv. apply Rmult_le_pos; [assumption |].
  left. now apply Rinv_0_lt_compat.
Qed.

(** The index is a valid one, and it does not decrease with the rank. *)
Lemma material_index_bounds (n m i j : Z) :
  (1 <= m)%Z -> (0 <= i <= j)%Z -> (0 < n)%Z ->
  (0 <= material_index rnd n m i <= material_index rnd n m j)%Z
  /\ (material_index rnd n m j <= m - 1)%Z.
Proof.
  intros Hm Hij Hn. unfold material_index.
  assert (Hn' : 0 < IZR n) by (apply IZR_lt; lia).
  assert (Hm' : 0 <= IZR m) by (apply IZR_le; lia).
  assert (Hi' : 0 <= IZR i) by (apply IZR_le; lia).
  assert (Hij' : IZR i <= IZR j) by (apply IZR_le; lia).
  assert (Hinv : 0 < / IZR n) by (now apply Rinv_0_lt_compat).
  pose proof (rounded_product_nonneg n m i ltac:(lia) Hn ltac:(lia)) as H0.
  assert (Hle : rnd (rnd (IZR i / IZR n) * IZR m)
                <= rnd (rnd (IZR j / IZR n) * IZR m)).
  { apply rnd_mono. apply Rmult_le_compat_r; [assumption |].
    apply rnd_mono. unfold Rdiv. apply Rmult_le_compat_r; lra. }
  pose proof (py_int_mono _ _ (conj H0 Hle)) as Hmono.
  assert (Hpos : (0 <= py_int (rnd (rnd (IZR i / IZR n) * IZR m)))%Z).
  { pose proof (py_int_floor _ H0) as [_ H1].
    assert (H : IZR (0 - 1)
                < IZR (py_int (rnd (rnd (IZR i / IZR n) * IZR m))))
      by (rewrite minus_IZR; lra).
    apply lt_IZR in H. lia. }
  lia.
Qed.

(** For fewer than [2^50] object-material pairs the index is the integer
    quotient [i * m / n], or one less where the quotient is exact. *)
Lemma material_index_close (n m i : Z) :
  (1 <= m)%Z -> (0 <= i < n)%Z -> (n * m <= 2 ^ 50)%Z ->
  (i * m / n - 1 <= material_index rnd n m i <= i * m / n)%Z
  /\ ((i * m) mod n <> 0 -> material_index rnd n m i = i * m / n)%Z.
Proof.
  intros Hm Hi Hnm.
  assert (Hk : (0 <= i * m / n < m)%Z).
  { split; [apply Z.div_pos; nia |].
    apply Z.div_lt_upper_bound; [lia | nia]. }
  destruct (Z.eq_dec i 0) as [-> | Hi0].
  { unfold material_index.
    replace (IZR 0 / IZR n) with 0 by (unfold Rdiv; ring).
    rewrite rnd_zero, Rmult_0_l, rnd_zero.
    replace (py_int 0) with 0%Z
      by (symmetry; apply py_int_nonneg; lra).
    rewrite Z.mul_0_l, Z.div_0_l by lia.
    split; [lia |]. intros _. lia. }
  set (N := (i * m)%Z). set (k := (N / n)%Z). set (rho := (N mod n)%Z).
  assert (Hdiv : N = (n * k + rho)%Z) by (apply Z.div_mod; lia).
  assert (Hrho : (0 <= rho < n)%Z) by (apply Z.mod_pos_bound; lia).
  assert (Hn' : 1 <= IZR n) by (apply IZR_le; lia).
  assert (Hm' : 1 <= IZR m) by (apply IZR_le; lia).
  assert (Hi' : 1 <= IZR i) by (apply IZR_le; lia).
  assert (Hin : IZR i < IZR n) by (apply IZR_lt; lia).
  assert (Hnm' : IZR n * IZR m <= 2 ^ 50).
  { rewrite <- mult_IZR.
    assert (E : IZR (2 ^ Z.of_nat 50) = 2 ^ 50)
      by (rewrite <- pow_IZR; reflexivity).
    rewrite <- E. apply IZR_le. exact Hnm. }
  assert (E53 : 2 ^ 53 = 8 * 2 ^ 50) by (simpl; lra).
  assert (E60 : 2 ^ 60 = 1024 * 2 ^ 50) by (simpl; lra).
  set (T := 2 ^ 50) in *.
  assert (HT1 : 1 <= T) by (apply pow_R1_Rle; lra).
  assert (HTi : 0 < / T <= 1).
  { split; [apply Rinv_0_lt_compat; lra |].
    rewrite <- Rinv_1. apply Rinv_le_contravar; lra. }
  assert (HTT : T * / T = 1) by (apply Rinv_r; lra).
  assert (HnT : IZR n <= T).
  { apply Rle_trans with (IZR n * IZR m); [| assumption].
    rewrite <- (Rmult_1_r (IZR n)) at 1.
    apply Rmult_le_compat_l; lra. }
  assert (HNT : IZR N <= T).
  { apply Rle_trans with (IZR n * IZR m); [| assumption].
    rewrite <- mult_IZR. apply IZR_le. unfold N.
    apply Z.mul_le_mono_nonneg_r; lia. }
  assert (HN1 : 1 <= IZR N).
  { apply IZR_le. unfold N.
    assert (1 * 1 <= i * m)%Z by (apply Z.mul_le_mono_nonneg; lia). lia. }
  assert (Hinv : 0 < / IZR n) by (apply Rinv_0_lt_compat; lra).
  assert (Hnn : IZR n * / IZR n = 1) by (apply Rinv_r; lra).
  set (e := / 8 * / T).
  assert (He : 0 < e <= / 8).
  { unfold e. split; [apply Rmult_lt_0_compat; lra |].
    rewrite <- (Rmult_1_r (/ 8)) at 2.
    apply Rmult_le_compat_l; lra. }
  assert (HeT : T * e = / 8).
  { unfold e. rewrite (Rmult_comm (/ 8)), <- Rmult_assoc, HTT. ring. }
  set (q := IZR i / IZR n).
  assert (Hq : / T <= q < 1).
  { unfold q, Rdiv. split.
    - apply Rle_trans with (1 * / IZR n);
        [| apply Rmult_le_compat_r; lra].
      rewrite Rmult_1_l. apply Rinv_le_contravar; lra.
    - apply (Rmult_lt_reg_r (IZR n)); [lra |].
      rewrite Rmult_assoc, (Rmult_comm (/ IZR n)), Hnn. lra. }
  assert (E60i : / 2 ^ 60 = / 1024 * / T)
    by (rewrite E60; apply Rinv_mult).
  assert (Hq60 : / 2 ^ 60 <= q <= 2 ^ 60).
  { rewrite E60i, E60. split; [| lra].
    apply Rle_trans with (1 * / T); [| lra].
    apply Rmult_le_compat_r; lra. }
  pose proof (rnd_error q Hq60) as Eq.
  apply Rabs_bound in Eq. unfold Rdiv in Eq.
  rewrite E53, Rinv_mult in Eq. fold e in Eq.
  set (q' := rnd q) in *.
  set (p := q' * IZR m).
  set (x := q * IZR m).
  assert (Hx : x * IZR n = IZR N).
  { unfold x, q, N, Rdiv. rewrite mult_IZR.
    replace (IZR i * / IZR n * IZR m * IZR n)
      with (IZR i * IZR m * (IZR n * / IZR n)) by ring.
    rewrite Hnn. ring. }
  assert (Hxq : q * 1 <= x) by (apply Rmult_le_compat_l; lra).
  assert (Hxm : x < 1 * IZR m)
    by (apply Rmult_lt_compat_r; lra).
  assert (Hxe : 0 <= x * e) by (apply Rmult_le_pos; lra).
  assert (Hxe8 : x * e <= x * / 8)
    by (apply Rmult_le_compat_l; lra).
  assert (Hpx : p - x = (q' - q) * IZR m) by (unfold p, x; ring).
  assert (Hp : - (x * e) <= p - x <= x * e).
  { rewrite Hpx. replace (x * e) with (q * e * IZR m) by (unfold x; ring).
    split.
    - rewrite Ropp_mult_distr_l. apply Rmult_le_compat_r; lra.
    - apply Rmult_le_compat_r; lra. }
  assert (HmT : IZR m <= T).
  { apply Rle_trans with (IZR n * IZR m); [| assumption].
    rewrite <- (Rmult_1_l (IZR m)) at 1.
    apply Rmult_le_compat_r; lra. }
  assert (Hp60 : / 2 ^ 60 <= p <= 2 ^ 60).
  { rewrite E60i, E60. split; [| lra].
    apply Rle_trans with (/ 2 * / T); [| lra].
    apply Rmult_le_compat_r; lra. }
  pose proof (rnd_error p Hp60) as Ep.
  apply Rabs_bound in Ep. unfold Rdiv in Ep.
  rewrite E53, Rinv_mult in Ep. fold e in Ep.
  set (y := rnd p) in *.
  assert (Hpe : p * e <= (x + x * e) * e)
    by (apply Rmult_le_compat_r; lra).
  assert (Hxee : x * e * e <= x * e * / 8)
    by (apply Rmult_le_compat_l; lra).
  assert (Hy : - (3 * (x * e)) <= y - x <= 3 * (x * e)) by (split; lra).
  assert (Hdelta : 3 * (x * e) * IZR n < / 2).
  { replace (3 * (x * e) * IZR n) with (3 * (IZR N * e))
      by (rewrite <- Hx; ring).
    assert (IZR N * e <= T * e) by (apply Rmult_le_compat_r; lra).
    lra. }
  assert (Hxk : x * IZR n = IZR k * IZR n + IZR rho).
  { rewrite Hx, Hdiv, plus_IZR, mult_IZR. ring. }
  assert (Hrho' : 0 <= IZR rho <= IZR n - 1).
  { split; [apply IZR_le; lia |].
    rewrite <- minus_IZR. apply IZR_le. lia. }
  assert (Hy0 : 0 <= y) by lra.
  pose proof (py_int_floor y Hy0) as [Hf1 Hf2].
  set (f := py_int y) in *.
  assert (Hyn1 : (x - 3 * (x * e)) * IZR n <= y * IZR n)
    by (apply Rmult_le_compat_r; lra).
  assert (Hyn2 : y * IZR n <= (x + 3 * (x * e)) * IZR n)
    by (apply Rmult_le_compat_r; lra).
  assert (Hfn1 : IZR f * IZR n <= y * IZR n)
    by (apply Rmult_le_compat_r; lra).
  assert (Hfn2 : y * IZR n < (IZR f + 1) * IZR n)
    by (apply Rmult_lt_compat_r; lra).
  assert (Hfk : (f <= k)%Z).
  { assert (H : IZR f < IZR (k + 1)).
    { rewrite plus_IZR. apply (Rmult_lt_reg_r (IZR n)); lra. }
    apply lt_IZR in H. lia. }
  assert (Hkf : (k - 1 <= f)%Z).
  { assert (H : IZR (k - 1) < IZR (f + 1)).
    { rewrite minus_IZR, plus_IZR.
      apply (Rmult_lt_reg_r (IZR n)); lra. }
    apply lt_IZR in H. lia. }
  unfold material_index. fold q q' p y f.
  assert (Hkm : (k < m)%Z) by (unfold k, N; lia).
  rewrite Z.min_l by lia.
  fold N k. split; [lia |].
  intros Hne. fold rho in Hne.
  assert (Hr1 : 1 <= IZR rho) by (apply IZR_le; lia).
  assert (H : IZR k < IZR (f + 1)).
  { rewrite plus_IZR. apply (Rmult_lt_reg_r (IZR n)); lra. }
  apply lt_IZR in H. lia.
Qed.

End Rounding.

Section AssignFacts.

Variable rnd : R -> R.

Hypothesis rnd_mono : forall x y, x <= y -> rnd x <= rnd y.
Hypothesis rnd_zero : rnd 0 = 0.

Lemma assign_from_run (N : nat) (materials : list Material)
    (objs : list Object) :
  materials <> [] ->
  forall s,
    (s + length objs <= N)%nat ->
    exists assigned,
      assign_from rnd (Z.of_nat N) materials (Z.of_nat s) objs = Ok assigned
      /\ Forall2 (fun io a =>
                    fst a = snd io
                    /\ nth_error materials
                         (Z.to_nat (material_index rnd
                                      (Z.of_nat N)
                                      (Z.of_nat (length materials))
                                      (fst io)))
                       = Some (snd a))
                 (combine (map Z.of_nat (seq s (length objs))) objs)
                 assigned.
Proof.
  intros Hm. induction objs as [| o objs IH]; intros s Hs.
  - exists []. split; [reflexivity | constructor].
  - cbn [length] in Hs. cbn [assign_from]. unfold assign_pass.
    rewrite int_truediv_ok by lia. cbn [bind].
    fold (material_index rnd (Z.of_nat N) (Z.of_nat (length materials))
                         (Z.of_nat s)).
    assert (Hlen : (1 <= Z.of_nat (length materials))%Z)
      by (destruct materials; [contradiction | cbn [length]; lia]).
    destruct (material_index_bounds rnd rnd_mono rnd_zero (Z.of_nat N)
                (Z.of_nat (length materials)) (Z.of_nat s) (Z.of_nat s)
                Hlen ltac:(lia) ltac:(lia)) as [[H0 _] H1].
    set (k := material_index rnd (Z.of_nat N) (Z.of_nat (length materials))
                             (Z.of_nat s)) in *.
    destruct (nth_error materials (Z.to_nat k)) as [mat |] eqn:Ek;
      [| apply nth_error_None in Ek; lia].
    assert (Epi : py_index materials k = Ok mat)
      by (rewrite <- (Z2Nat.id k) by lia; now apply py_index_ok).
    rewrite Epi. cbn [bind].
    destruct (IH (S s) ltac:(lia)) as [rest [Er Hr]].
    replace (Z.of_nat s + 1)%Z with (Z.of_nat (S s)) by lia.
    rewrite Er. cbn [bind]. eexists. split; [reflexivity |].
    cbn [length seq map combine]. constructor; [| exact Hr].
    cbn [fst snd]. split; [reflexivity | exact Ek].
Qed.

End AssignFacts.

(** X10: [assign_materials_by_depth] ranks the objects by ascending
    [location.z] (a sorted rearrangement of the objects it was given) and
    gives the object of rank [i] the material of index
    [min(int((i / n) * m), m - 1)], for [n] objects and [m >= 1] materials,
    the quotient and the product each rounded to a float.  Whatever the
    rounding, as long as it is monotone and keeps zero, that index is
    always within the list and never decreases with the rank.  When the
    rounding has a relative error of at most [2^-53] and there are at most
    [2^50] object-material pairs, the index is the integer quotient
    [i * m / n], or one less than it where [n] divides [i * m], and it is
    the quotient wherever [n] does not divide [i * m].  With no object the
    function does nothing; with objects but no material it raises
    [IndexError]. *)
Theorem assign_materials_by_depth_ranks (location_z : Object -> R)
    (rnd : R -> R) (objects : list Object) (materials : list Material) :
  (forall x y, x <= y -> rnd x <= rnd y) ->
  rnd 0 = 0 ->
  let sorted_objs := py_sorted location_z objects in
  let n := Z.of_nat (length objects) in
  let m := Z.of_nat (length materials) in
  Permutation.Permutation sorted_objs objects
  /\ Sorted.Sorted (fun a b => location_z a <= location_z b) sorted_objs
  /\ match materials with
     | [] =>
         assign_materials_by_depth location_z rnd objects materials
         = match objects with [] => Ok [] | _ => Raise IndexError end
     | _ =>
         (exists assigned,
             assign_materials_by_depth location_z rnd objects materials
             = Ok assigned
             /\ Forall2 (fun io a =>
                           fst a = snd io
                           /\ nth_error materials
                                (Z.to_nat (material_index rnd n m (fst io)))
                              = Some (snd a))
                        (enumerate sorted_objs) assigned)
         /\ forall i j,
              (0 <= i <= j)%Z -> (j < n)%Z ->
              (0 <= material_index rnd n m i
               <= material_index rnd n m j)%Z
              /\ (material_index rnd n m j <= m - 1)%Z
              /\ ((forall x, / 2 ^ 60 <= x <= 2 ^ 60 ->
                             Rabs (rnd x - x) <= x / 2 ^ 53) ->
                  (n * m <= 2 ^ 50)%Z ->
                  (i * m / n - 1 <= material_index rnd n m i
                   <= i * m / n)%Z
                  /\ ((i * m) mod n <> 0 ->
                      material_index rnd n m i = i * m / n)%Z)
     end.
Proof.
  intros rnd_mono rnd_zero sorted_objs n m.
  destruct (py_sorted_spec location_z objects) as [Hperm Hsort].
  split; [exact Hperm |]. split; [exact Hsort |].
  assert (Hlen : length sorted_objs = length objects)
    by (apply Permutation.Permutation_length, Hperm).
  unfold assign_materials_by_depth. fold sorted_objs.
  destruct materials as [| mat0 materials'].
  - destruct objects as [| o objects'].
    + reflexivity.
    + destruct sorted_objs as [| o1 rest]; [discriminate Hlen |].
      cbn [assign_from]. unfold assign_pass.
      rewrite int_truediv_ok by (cbn [length]; lia). cbn [bind length].
      change (IZR (Z.of_nat 0)) with 0. rewrite Rmult_0_r, rnd_zero.
      replace (py_int 0) with 0%Z; [reflexivity |].
      symmetry. apply py_int_nonneg; lra.
  - split.
    + destruct (assign_from_run rnd rnd_mono rnd_zero
                                (length sorted_objs) (mat0 :: materials')
                                sorted_objs ltac:(discriminate) 0%nat
                                ltac:(lia))
        as [assigned [E H]].
      exists assigned. change (Z.of_nat 0) with 0%Z in E.
      split; [exact E |]. unfold enumerate, n, m.
      rewrite <- Hlen. exact H.
    + intros i j Hij Hj.
      assert (Hm : (1 <= m)%Z) by (unfold m; cbn [length]; lia).
      destruct (material_index_bounds rnd rnd_mono rnd_zero n m i j Hm Hij
                                      ltac:(lia)) as [H1 H2].
      split; [exact H1 |]. split; [exact H2 |].
      intros rnd_error Hnm.
      apply (material_index_close rnd rnd_zero rnd_error);
        [exact Hm | lia | exact Hnm].
Qed.

(** Three objects and two materials, with the rounding that rounds
    nothing: the object of rank 1 gets the material of index 0. *)
Lemma assign_materials_by_depth_ranks_witness :
  let location_z := fun o : Object => 0 in
  let rnd := fun x : R => x in
  let objects := [mkObject "a" [] []; mkObject "b" [] [];
                  mkObject "c" [] []] in
  let materials := [mkMaterial "m0" (0, 0, 0); mkMaterial "m1" (1, 1, 1)] in
  (forall x y : R, x <= y -> rnd x <= rnd y)
  /\ rnd 0 = 0
  /\ Permutation.Permutation (py_sorted location_z objects) objects
  /\ (exists assigned,
         assign_materials_by_depth location_z rnd objects materials
         = Ok assigned)
  /\ material_index rnd 3 2 1 = 0%Z.
Proof.
  intros location_z rnd objects materials.
  assert (H1 : forall x y : R, x <= y -> rnd x <= rnd y)
    by (intros; assumption).
  assert (H2 : rnd 0 = 0) by reflexivity.
  assert (H3 : forall x, / 2 ^ 60 <= x <= 2 ^ 60 ->
                         Rabs (rnd x - x) <= x / 2 ^ 53).
  { intros x [Hx _]. unfold rnd. rewrite Rminus_diag, Rabs_R0.
    assert (0 < / 2 ^ 60) by (apply Rinv_0_lt_compat, pow_lt; lra).
    assert (0 < / 2 ^ 53) by (apply Rinv_0_lt_compat, pow_lt; lra).
    unfold Rdiv. apply Rmult_le_pos; lra. }
  split; [exact H1 |]. split; [exact H2 |].
  destruct (assign_materials_by_depth_ranks location_z rnd objects materials
                                            H1 H2)
    as [Hp [_ [[assigned [E _]] Hidx]]].
  split; [exact Hp |]. split; [exists assigned; exact E |].
  destruct (Hidx 1%Z 1%Z ltac:(lia) ltac:(cbn; lia)) as [_ [_ Hc]].
  destruct (Hc H3 ltac:(cbn; lia)) as [_ He].
  apply He. vm_compute. discriminate.
Defined.

(** ** Klein bottle: grid, seams and extent *)

(** The face pass is the sequence of guarded attempts on [grid_quads],
    whatever the host does. *)
Lemma create_klein_bottle_mesh_run
    (faces_new : BMesh -> list nat -> BMesh * option PyExn)
    (u_steps v_steps : Z) :
  create_klein_bottle_mesh faces_new u_steps v_steps
  = Ok (fold_left (try_faces_new faces_new)
                  (grid_quads (Z.to_nat u_steps) (Z.to_nat v_steps))
                  (mkBMesh (flat_map (klein_row u_steps v_steps)
                                     (py_range u_steps)) [], [])).
Proof.
  unfold create_klein_bottle_mesh.
  rewrite klein_vertices_grid. cbn [bind fst snd].
  set (U := Z.to_nat u_steps). set (V := Z.to_nat v_steps).
  set (bm0 := mkBMesh _ _).
  destruct (Z_le_gt_dec u_steps 0) as [Hu | Hu].
  - unfold klein_faces. rewrite py_range_nil by assumption.
    replace U with 0%nat by (unfold U; lia). reflexivity.
  - destruct (Z_le_gt_dec v_steps 0) as [Hv | Hv].
    + unfold klein_faces. rewrite (py_range_nil v_steps) by assumption.
      replace V with 0%nat by (unfold V; lia). cbn [for_fold].
      replace (grid_quads U 0) with (@nil (list nat)).
      * generalize (bm0, @nil FaceStep).
        induction (py_range u_steps) as [| i l IH]; intros st;
          [reflexivity | exact (IH st)].
      * unfold grid_quads.
        induction (seq 0 U) as [| n l IH]; [reflexivity |].
        cbn [seq flat_map map app]. apply IH.
    + replace u_steps with (Z.of_nat U) at 1 by (unfold U; lia).
      replace v_steps with (Z.of_nat V) at 1 by (unfold V; lia).
      apply klein_faces_grid.
Qed.

Lemma grid_quads_in (U V : nat) (q : list nat) :
  In q (grid_quads U V) ->
  exists i j, (i < U)%nat /\ (j < V)%nat /\ q = grid_quad U V i j.
Proof.
  unfold grid_quads. intros H. apply in_flat_map in H.
  destruct H as [i [Hi H]]. apply in_map_iff in H.
  destruct H as [j [<- Hj]]. apply in_seq in Hi. apply in_seq in Hj.
  exists i, j. repeat split; lia.
Qed.

(** The cells of a grid at least two wide each way have four different
    corners, all of them vertices of the mesh. *)
Lemma grid_quad_valid (U V i j : nat) :
  (2 <= U)%nat -> (2 <= V)%nat -> (i < U)%nat -> (j < V)%nat ->
  NoDup (grid_quad U V i j)
  /\ Forall (fun k => (k < U * V)%nat) (grid_quad U V i j).
Proof.
  intros HU HV Hi Hj. unfold grid_quad.
  assert (Hi1 : (S i mod U < U)%nat) by (apply Nat.mod_upper_bound; lia).
  assert (Hj1 : (S j mod V < V)%nat) by (apply Nat.mod_upper_bound; lia).
  assert (Hine : S i mod U <> i).
  { destruct (Nat.eq_dec (S i) U) as [E | E].
    - rewrite E, Nat.Div0.mod_same. lia.
    - rewrite Nat.mod_small by lia. lia. }
  assert (Hjne : S j mod V <> j).
  { destruct (Nat.eq_dec (S j) V) as [E | E].
    - rewrite E, Nat.Div0.mod_same. lia.
    - rewrite Nat.mod_small by lia. lia. }
  set (i' := (S i mod U)%nat) in *. set (j' := (S j mod V)%nat) in *.
  split.
  - repeat constructor; cbn [In]; nia.
  - repeat constructor; nia.
Qed.

(** X11: on a grid at least two steps wide each way, every quad the face
    pass hands to [bm.faces.new] has four different corners, all of them
    indices of vertices of the mesh; there are [u_steps * v_steps] such
    attempts, whatever the host does with them. *)
Theorem klein_faces_quads_valid
    (faces_new : BMesh -> list nat -> BMesh * option PyExn)
    (u_steps v_steps : Z) :
  (2 <= u_steps)%Z -> (2 <= v_steps)%Z ->
  exists bm steps,
    create_klein_bottle_mesh faces_new u_steps v_steps = Ok (bm, steps)
    /\ length steps = (Z.to_nat u_steps * Z.to_nat v_steps)%nat
    /\ Forall (fun s =>
                 NoDup (fs_quad s)
                 /\ Forall (fun k =>
                              (k < Z.to_nat u_steps * Z.to_nat v_steps)%nat)
                           (fs_quad s))
              steps.
Proof.
  intros Hu Hv. rewrite create_klein_bottle_mesh_run.
  set (U := Z.to_nat u_steps). set (V := Z.to_nat v_steps).
  destruct (run_trace faces_new (grid_quads U V)
                      (mkBMesh (flat_map (klein_row u_steps v_steps)
                                         (py_range u_steps)) []) [])
    as [bm [steps [Hrun [Hq _]]]].
  rewrite Hrun. cbn [app]. exists bm, steps. split; [reflexivity |].
  split; [now rewrite <- (length_map fs_quad), Hq, grid_quads_length |].
  apply Forall_forall. intros s Hs.
  assert (Hin : In (fs_quad s) (grid_quads U V))
    by (rewrite <- Hq; now apply in_map).
  apply grid_quads_in in Hin. destruct Hin as [i [j [Hi [Hj ->]]]].
  apply grid_quad_valid; unfold U, V in *; lia.
Qed.

Lemma klein_faces_quads_valid_witness :
  exists bm steps,
    create_klein_bottle_mesh bmesh_faces_new 200 100 = Ok (bm, steps)
    /\ length steps = (Z.to_nat 200 * Z.to_nat 100)%nat
    /\ Forall (fun s =>
                 NoDup (fs_quad s)
                 /\ Forall (fun k => (k < Z.to_nat 200 * Z.to_nat 100)%nat)
                           (fs_quad s))
              steps.
Proof. apply (klein_faces_quads_valid bmesh_faces_new 200 100); lia. Defined.

(** On a grid one step wide a cell has a corner twice: its first two
    corners coincide when there is one row, its first and last when there
    is one column. *)
Lemma grid_quad_degenerate (U V i j : nat) :
  (i < U)%nat -> (j < V)%nat -> U = 1%nat \/ V = 1%nat ->
  has_dup (grid_quad U V i j) = true.
Proof.
  intros Hi Hj [-> | ->].
  - replace i with 0%nat by lia. unfold grid_quad.
    change (1 mod 1)%nat with 0%nat. cbn [has_dup existsb].
    now rewrite Nat.eqb_refl.
  - replace j with 0%nat by lia. unfold grid_quad.
    change (1 mod 1)%nat with 0%nat. cbn [has_dup existsb].
    rewrite (Nat.eqb_refl (i * 1 + 0)). now rewrite !orb_true_r.
Qed.

(** Attempts on quads that repeat a vertex all fail on the modelled host
    and leave the mesh as it is. *)
Lemma bmesh_all_fail (quads : list (list nat)) :
  Forall (fun q => has_dup q = true) quads ->
  forall bm steps,
  exists steps',
    fold_left (try_faces_new bmesh_faces_new) quads (bm, steps)
    = (bm, steps ++ steps')
    /\ length steps' = length quads
    /\ Forall (fun s => fs_raised s = Some ValueError) steps'.
Proof.
  induction 1 as [| q quads Hq Hqs IH]; intros bm steps.
  - exists []. cbn. rewrite app_nil_r. auto.
  - cbn [fold_left].
    assert (Et : try_faces_new bmesh_faces_new (bm, steps) q
                 = (bm, steps ++ [mkFaceStep bm q (Some ValueError) bm])).
    { unfold try_faces_new, bmesh_faces_new. cbn [fst snd].
      now rewrite Hq. }
    rewrite Et.
    destruct (IH bm (steps ++ [mkFaceStep bm q (Some ValueError) bm]))
      as [steps' [E [Hl Hf]]].
    exists (mkFaceStep bm q (Some ValueError) bm :: steps').
    rewrite E, <- app_assoc. cbn [app length]. split; [reflexivity |].
    split; [now rewrite Hl |]. constructor; [reflexivity | exact Hf].
Qed.

Lemma klein_rows_length (u_steps v_steps : Z) (l : list Z) :
  length (flat_map (klein_row u_steps v_steps) l)
  = (length l * Z.to_nat v_steps)%nat.
Proof.
  induction l as [| i l IH]; [reflexivity |].
  cbn [flat_map length]. rewrite length_app, IH.
  unfold klein_row at 1. now rewrite length_map, py_range_length.
Qed.

(** X12: a grid one step wide ([u_steps = 1] or [v_steps = 1]) gets its
    vertices but no face: every candidate quad repeats a vertex, the host
    refuses it with [ValueError], and the error is swallowed. *)
Theorem klein_one_step_no_faces (u_steps v_steps : Z) :
  u_steps = 1%Z \/ v_steps = 1%Z ->
  exists bm steps,
    create_klein_bottle_mesh bmesh_faces_new u_steps v_steps
    = Ok (bm, steps)
    /\ length (bm_verts bm) = (Z.to_nat u_steps * Z.to_nat v_steps)%nat
    /\ bm_faces bm = []
    /\ length steps = (Z.to_nat u_steps * Z.to_nat v_steps)%nat
    /\ Forall (fun s => fs_raised s = Some ValueError) steps.
Proof.
  intros H1. rewrite create_klein_bottle_mesh_run.
  set (U := Z.to_nat u_steps). set (V := Z.to_nat v_steps).
  set (bm0 := mkBMesh _ _).
  destruct (bmesh_all_fail (grid_quads U V)) with (bm := bm0)
    (steps := @nil FaceStep) as [steps [E [Hl Hf]]].
  - apply Forall_forall. intros q Hq. apply grid_quads_in in Hq.
    destruct Hq as [i [j [Hi [Hj ->]]]].
    apply grid_quad_degenerate; [exact Hi | exact Hj |].
    unfold U, V. destruct H1 as [-> | ->]; [left | right]; reflexivity.
  - rewrite E. cbn [app]. exists bm0, steps. split; [reflexivity |].
    split; [| split; [reflexivity | split; [| exact Hf]]].
    + unfold bm0. cbn [bm_verts].
      now rewrite klein_rows_length, py_range_length.
    + now rewrite Hl, grid_quads_length.
Qed.

Lemma klein_one_step_no_faces_witness :
  exists bm steps,
    create_klein_bottle_mesh bmesh_faces_new 1 5 = Ok (bm, steps)
    /\ length (bm_verts bm) = (Z.to_nat 1 * Z.to_nat 5)%nat
    /\ bm_faces bm = []
    /\ length steps = (Z.to_nat 1 * Z.to_nat 5)%nat
    /\ Forall (fun s => fs_raised s = Some ValueError) steps.
Proof. apply (klein_one_step_no_faces 1 5). now left. Defined.

Lemma cos_shift (x : R) : Rtrigo_def.cos (x + 2 * PI) = Rtrigo_def.cos x.
Proof. rewrite cos_plus, cos_2PI, sin_2PI. ring. Qed.

Lemma sin_shift (x : R) : Rtrigo_def.sin (x + 2 * PI) = Rtrigo_def.sin x.
Proof. rewrite sin_plus, cos_2PI, sin_2PI. ring. Qed.

Lemma klein_xyz_period_v (u v : R) : klein_xyz u (v + 2 * PI) = klein_xyz u v.
Proof.
  unfold klein_xyz, math.cos, math.sin, math.pi.
  replace (v + 2 * PI + PI) with (v + PI + 2 * PI) by ring.
  now rewrite !cos_shift, !sin_shift.
Qed.

(** X13: around the tube the surface closes without a seam: the position
    that index [j + v_steps] would give is the position of index [j], so
    the wrap [(j + 1) % v_steps] of the face pass joins matching
    vertices. *)
Theorem klein_position_wrap_v (u : R) (v_steps j : Z) :
  v_steps <> 0%Z ->
  klein_position u (grid_angle (j + v_steps) v_steps)
  = klein_position u (grid_angle j v_steps).
Proof.
  intros Hv.
  assert (E : grid_angle (j + v_steps) v_steps
              = grid_angle j v_steps + 2 * PI).
  { unfold grid_angle, math.pi. rewrite plus_IZR. field.
    now apply not_0_IZR. }
  rewrite E. unfold klein_position. now rewrite klein_xyz_period_v.
Qed.

Lemma klein_position_wrap_v_witness :
  klein_position 1 (grid_angle (3 + 100) 100)
  = klein_position 1 (grid_angle 3 100).
Proof. apply (klein_position_wrap_v 1 100 3). lia. Defined.

Lemma klein_xyz_full_turn (v : R) :
  klein_xyz (2 * PI) v = (6 + 2 * Rtrigo_def.cos v, 0, 0).
Proof.
  unfold klein_xyz, math.cos, math.sin, math.pi.
  pose proof PI_RGT_0. rewrite flt_false by lra.
  rewrite cos_2PI, sin_2PI.
  f_equal; [f_equal |]; field.
Qed.

(** X14: along the tube the surface does not close: after a full turn
    ([u = 2*pi], which the wrap [(i + 1) % u_steps] identifies with row 0)
    the parametrisation gives a point different from the one at [u = 0],
    for every [v]. *)
Theorem klein_position_seam_u (u_steps : Z) (v : R) :
  (0 < u_steps)%Z ->
  klein_position (grid_angle u_steps u_steps) v
  <> klein_position (grid_angle 0 u_steps) v.
Proof.
  intros Hu.
  assert (E : grid_angle u_steps u_steps = 2 * PI).
  { unfold grid_angle, math.pi. field. apply not_0_IZR. lia. }
  rewrite E, grid_angle_zero, !klein_position_closed.
  rewrite klein_xyz_zero, klein_xyz_full_turn. cbn [fst snd].
  intros H. injection H as Hx Hy.
  pose proof (sin2_cos2 v) as Hsc. unfold Rsqr in Hsc.
  assert (Hc : Rtrigo_def.cos v = 0) by lra.
  assert (Hs : Rtrigo_def.sin v = 0) by lra.
  rewrite Hc, Hs in Hsc. lra.
Qed.

Lemma klein_position_seam_u_witness :
  klein_position (grid_angle 200 200) 0
  <> klein_position (grid_angle 0 200) 0.
Proof. apply (klein_position_seam_u 200 0). lia. Defined.

Lemma klein_position_box (u v : R) :
  - 1.44 <= vx (klein_position u v) <= 1.44
  /\ - 0.48 <= vy (klein_position u v) <= 0.48
  /\ 0.048 <= vz (klein_position u v) <= 2.352.
Proof.
  rewrite klein_position_closed. cbn [vx vy vz].
  unfold klein_xyz, math.cos, math.sin, math.pi.
  pose proof (COS_bound u) as Hcu. pose proof (SIN_bound u) as Hsu.
  pose proof (COS_bound v) as Hcv. pose proof (SIN_bound v) as Hsv.
  pose proof (COS_bound (v + PI)) as Hcp.
  pose proof (SIN_bound (v + PI)) as Hsp.
  set (cu := Rtrigo_def.cos u) in *. set (su := Rtrigo_def.sin u) in *.
  set (cv := Rtrigo_def.cos v) in *. set (sv := Rtrigo_def.sin v) in *.
  set (cp := Rtrigo_def.cos (v + PI)) in *.
  set (sp := Rtrigo_def.sin (v + PI)) in *.
  assert (Hr : 2 <= 4 * (1 - cu / 2) <= 6) by lra.
  set (r := 4 * (1 - cu / 2)) in *.
  assert (H1 : - 2 <= cu * (1 + su) <= 2) by nra.
  assert (H2 : - 6 <= r * cp <= 6) by nra.
  assert (H3 : - 6 <= r * sp <= 6) by nra.
  assert (H4 : - 1 <= cu * cv <= 1) by nra.
  assert (H5 : - 1 <= su * sv <= 1) by nra.
  assert (H6 : - 6 <= r * (cu * cv) <= 6) by nra.
  assert (H7 : - 6 <= r * (su * sv) <= 6) by nra.
  destruct (flt u PI); cbn [fst snd];
    rewrite ?Rmult_assoc; repeat split; lra.
Qed.

(** X15: whatever the grid, every vertex of the mesh lies in the box
    [|x| <= 1.44], [|y| <= 0.48], [0.048 <= z <= 2.352]: after the shift by
    [1.2] the whole sculpture stands above the ground plane [z = 0]. *)
Theorem klein_vertices_box (u_steps v_steps : Z) :
  exists bm verts,
    klein_vertices u_steps v_steps = Ok (bm, verts)
    /\ Forall (fun p =>
                 - 1.44 <= vx p <= 1.44
                 /\ - 0.48 <= vy p <= 0.48
                 /\ 0.048 <= vz p <= 2.352)
              (bm_verts bm).
Proof.
  rewrite klein_vertices_grid. eexists _, _. split; [reflexivity |].
  cbn [bm_verts]. apply Forall_flat_map, Forall_forall. intros i _.
  unfold klein_row. apply Forall_map, Forall_forall. intros j _.
  apply klein_position_box.
Qed.

(** ** Orbit animation: which keys are written, and where it ends *)

Module OrbitMoreFacts.

Import stdpp.base stdpp.gmap.
Import Orbit.
Local Open Scope R_scope.

Lemma py_range2_spec (a b f : Z) :
  In f (py_range2 a b) <-> (a <= f < b)%Z.
Proof.
  split; [| apply OrbitFacts.py_range2_in].
  unfold py_range2. intros H. apply in_map_iff in H.
  destruct H as [k [<- Hk]]. apply in_seq in Hk. lia.
Qed.

(** X16: [animate_orbit] writes a location key and a z-rotation key at
    every frame of [1..frames] and at no other frame: keys that the planet
    had outside that range are kept as they were.  With [frames <= 0] it
    changes nothing, and it divides by [frames] in no case where that is
    zero. *)
Theorem animate_orbit_keys (planet : Planet) (d s : R) (frames : Z) :
  exists planet',
    animate_orbit planet d s frames = Ok planet'
    /\ (forall f,
           (1 <= f <= frames)%Z ->
           is_Some (location_keys planet' !! f)
           /\ is_Some (rotation_z_keys planet' !! f))
    /\ (forall f,
           ~ (1 <= f <= frames)%Z ->
           location_keys planet' !! f = location_keys planet !! f
           /\ rotation_z_keys planet' !! f = rotation_z_keys planet !! f)
    /\ ((frames <= 0)%Z -> planet' = planet).
Proof.
  unfold animate_orbit.
  destruct (Z_le_gt_dec frames 0) as [H0 | H0].
  - exists planet.
    replace (py_range2 1 (frames + 1)) with (@nil Z)
      by (unfold py_range2; now replace (Z.to_nat (frames + 1 - 1))
                                  with 0%nat by lia).
    split; [reflexivity |]. split; [intros f Hf; lia |]. auto.
  - destruct (OrbitFacts.animate_orbit_loop d s frames ltac:(lia)
                (py_range2 1 (frames + 1)) planet)
      as [p' [E [Hin Hout]]].
    exists p'. split; [exact E |]. split; [| split].
    + intros f Hf. destruct (Hin f) as [Hl Hr];
        [apply py_range2_spec; lia |].
      rewrite Hl, Hr. split; eexists; reflexivity.
    + intros f Hf. apply Hout. rewrite py_range2_spec. lia.
    + intros Hle. lia.
Qed.


Lemma animate_orbit_pass_state (d s : R) (frames f : Z) (p : Planet) :
  frames <> 0%Z ->
  exists p',
    animate_orbit_pass d s frames f p = Ok p'
    /\ location p'
       = (math.cos (IZR f / IZR frames * s * 2 * math.pi) * d,
          math.sin (IZR f / IZR frames * s * 2 * math.pi) * d, 0)
    /\ rotation_euler p'
       = (fst (fst (rotation_euler p)), snd (fst (rotation_euler p)),
          IZR f / IZR frames * s * 2 * math.pi).
Proof.
  intros Hf. unfold animate_orbit_pass. rewrite int_truediv_ok by assumption.
  cbn [bind]. eexists. split; [reflexivity |].
  unfold set_rotation_z, keyframe_insert_location, set_location,
    keyframe_insert_rotation_z.
  cbn [rotation_euler location]. destruct (rotation_euler p) as [[rx ry] rz].
  cbn [location rotation_euler fst snd]. split; reflexivity.
Qed.

Lemma py_range2_last (n : Z) :
  (1 <= n)%Z -> py_range2 1 (n + 1) = py_range2 1 n ++ [n].
Proof.
  intros Hn. unfold py_range2.
  replace (Z.to_nat (n + 1 - 1)) with (Z.to_nat (n - 1) + 1)%nat by lia.
  rewrite seq_app, map_app. cbn [seq map]. do 2 f_equal. lia.
Qed.

(** X17: after [animate_orbit] over [frames >= 1] frames the planet is left
    at the angle [s * 2 * pi]; when the speed [s] is a whole number of
    revolutions the last keyframe puts it exactly at [(d, 0, 0)], the place
    where [create_planet] created it, so the animation loops. *)
Theorem animate_orbit_final (planet : Planet) (d s : R) (frames : Z) :
  (1 <= frames)%Z ->
  exists planet',
    animate_orbit planet d s frames = Ok planet'
    /\ location planet'
       = (math.cos (IZR frames / IZR frames * s * 2 * math.pi) * d,
          math.sin (IZR frames / IZR frames * s * 2 * math.pi) * d, 0)
    /\ location_keys planet' !! frames = Some (location planet')
    /\ snd (rotation_euler planet') = s * (2 * PI)
    /\ (forall k : nat, s = INR k ->
                        Rtrigo_def.cos (s * (2 * PI)) * d = d
                        /\ Rtrigo_def.sin (s * (2 * PI)) * d = 0
                        /\ location_keys planet' !! frames
                           = Some (Rtrigo_def.cos (s * (2 * PI)) * d,
                                   Rtrigo_def.sin (s * (2 * PI)) * d, 0)).
Proof.
  intros Hf. unfold animate_orbit. rewrite py_range2_last by assumption.
  rewrite for_fold_app.
  destruct (OrbitFacts.animate_orbit_loop d s frames ltac:(lia)
              (py_range2 1 frames) planet) as [p1 [E1 _]].
  rewrite E1. cbn [bind for_fold].
  destruct (animate_orbit_pass_state d s frames frames p1 ltac:(lia))
    as [p' [E [Hloc Hrot]]].
  destruct (OrbitFacts.animate_orbit_pass_keys d s frames ltac:(lia)
              frames p1) as [p'' [E' [Hk _]]].
  rewrite E in E'. injection E' as <-.
  rewrite E. cbn [bind]. exists p'. split; [reflexivity |].
  assert (Ea : IZR frames / IZR frames * s * 2 * math.pi = s * (2 * PI)).
  { unfold math.pi. field. apply not_0_IZR. lia. }
  split; [exact Hloc |].
  split; [rewrite Hk, lookup_insert_eq, Hloc; reflexivity |].
  split; [rewrite Hrot; cbn [snd]; exact Ea |].
  intros k ->.
  assert (Hc : Rtrigo_def.cos (INR k * (2 * PI)) = 1).
  { replace (INR k * (2 * PI)) with (0 + 2 * INR k * PI) by ring.
    rewrite cos_period. apply cos_0. }
  assert (Hs : Rtrigo_def.sin (INR k * (2 * PI)) = 0).
  { replace (INR k * (2 * PI)) with (0 + 2 * INR k * PI) by ring.
    rewrite sin_period. apply sin_0. }
  rewrite Hc, Hs. split; [ring |]. split; [ring |].
  rewrite Hk, lookup_insert_eq. rewrite Ea. unfold math.cos, math.sin.
  now rewrite Hc, Hs.
Qed.

(** Earth of the script: three revolutions in 300 frames. *)
Lemma animate_orbit_final_witness :
  exists planet',
    animate_orbit (mkPlanet (10, 0, 0) (0, 0, 0) ∅ ∅) 10 3 300 = Ok planet'
    /\ location planet'
       = (math.cos (IZR 300 / IZR 300 * 3 * 2 * math.pi) * 10,
          math.sin (IZR 300 / IZR 300 * 3 * 2 * math.pi) * 10, 0)
    /\ location_keys planet' !! 300%Z = Some (location planet')
    /\ snd (rotation_euler planet') = 3 * (2 * PI)
    /\ (forall k : nat, 3 = INR k ->
                        Rtrigo_def.cos (3 * (2 * PI)) * 10 = 10
                        /\ Rtrigo_def.sin (3 * (2 * PI)) * 10 = 0
                        /\ location_keys planet' !! 300%Z
                           = Some (Rtrigo_def.cos (3 * (2 * PI)) * 10,
                                   Rtrigo_def.sin (3 * (2 * PI)) * 10, 0)).
Proof.
  apply (animate_orbit_final (mkPlanet (10, 0, 0) (0, 0, 0) ∅ ∅) 10 3 300).
  lia.
Defined.

End OrbitMoreFacts.

(** ** The orbit path *)

Lemma orbit_path_points_run (d : R) (segments : Z) (indices : list Z) :
  segments <> 0%Z ->
  orbit_path_points d segments indices
  = Ok (map (fun i =>
               (math.cos (IZR i / IZR segments * 2 * math.pi) * d,
                math.sin (IZR i / IZR segments * 2 * math.pi) * d, 0, 1))
            indices).
Proof.
  intros Hs. induction indices as [| i rest IH]; [reflexivity |].
  cbn [orbit_path_points map]. unfold orbit_path_point.
  rewrite int_truediv_ok by assumption. cbn [bind]. now rewrite IH.
Qed.

(** X18: [create_orbit_path] with [segments >= 1] sets [segments + 1]
    control points, all on the circle of radius [d] in the plane [z = 0]
    with weight 1; the first is [(d, 0, 0, 1)] and the last one lies on the
    first, at the angle [2 * pi].  With [segments = 0] the single point
    raises [ZeroDivisionError]. *)
Theorem create_orbit_path_circle (d : R) (segments : Z) :
  (0 <= segments)%Z ->
  match segments with
  | 0%Z => create_orbit_path d segments = Raise ZeroDivisionError
  | _ =>
      exists points first last,
        create_orbit_path d segments = Ok points
        /\ length points = S (Z.to_nat segments)
        /\ Forall (fun co =>
                     let '(x, y, z, w) := co in
                     x * x + y * y = d * d /\ z = 0 /\ w = 1)
                  points
        /\ nth_error points 0 = Some first
        /\ nth_error points (Z.to_nat segments) = Some last
        /\ fst (fst (fst first)) = d /\ snd (fst (fst first)) = 0
        /\ fst (fst (fst last)) = d /\ snd (fst (fst last)) = 0
  end.
Proof.
  intros Hs. destruct segments as [| p | p]; [reflexivity | | lia].
  unfold create_orbit_path. rewrite orbit_path_points_run by lia.
  set (pt := fun i : Z => _).
  exists (map pt (py_range (1 + Z.pos p))), (pt 0%Z), (pt (Z.pos p)).
  split; [reflexivity |].
  split; [rewrite length_map, py_range_length; lia |].
  split; [| split; [| split]].
  - apply Forall_map, Forall_forall. intros i _. unfold pt.
    split; [| split; reflexivity].
    unfold math.cos, math.sin.
    set (a := IZR i / IZR (Z.pos p) * 2 * math.pi).
    pose proof (sin2_cos2 a) as Hsc. unfold Rsqr in Hsc.
    replace (cos a * d * (cos a * d) + sin a * d * (sin a * d))
      with (d * d * (sin a * sin a + cos a * cos a)) by ring.
    rewrite Hsc. ring.
  - rewrite nth_error_map, py_range_nth by lia. reflexivity.
  - rewrite nth_error_map, py_range_nth by lia. cbn [option_map].
    do 2 f_equal. lia.
  - unfold pt. cbn [fst snd]. unfold math.cos, math.sin, math.pi.
    replace (IZR 0 / IZR (Z.pos p) * 2 * PI) with 0
      by (unfold Rdiv; ring).
    replace (IZR (Z.pos p) / IZR (Z.pos p) * 2 * PI) with (2 * PI)
      by (field; apply not_0_IZR; lia).
    rewrite cos_0, sin_0, cos_2PI, sin_2PI. repeat split; ring.
Qed.

Lemma create_orbit_path_circle_witness :
  exists points first last,
    create_orbit_path 10 64 = Ok points
    /\ length points = S (Z.to_nat 64)
    /\ Forall (fun co =>
                 let '(x, y, z, w) := co in
                 x * x + y * y = 10 * 10 /\ z = 0 /\ w = 1)
              points
    /\ nth_error points 0 = Some first
    /\ nth_error points (Z.to_nat 64) = Some last
    /\ fst (fst (fst first)) = 10 /\ snd (fst (fst first)) = 0
    /\ fst (fst (fst last)) = 10 /\ snd (fst (fst last)) = 0.
Proof. apply (create_orbit_path_circle 10 64). lia. Defined.

(** ** Keyframe animations *)

Lemma py_range3_spec (a b step f : Z) :
  (0 < step)%Z ->
  In f (py_range3 a b step)
  <-> ((a <= f < b)%Z /\ ((f - a) mod step = 0)%Z).
Proof.
  intros Hs. unfold py_range3. rewrite in_map_iff. split.
  - intros [k [<- Hk]]. apply in_seq in Hk.
    assert (Hq : (Z.of_nat k < (b - a + step - 1) / step)%Z) by lia.
    assert (Hm := Z.mul_div_le (b - a + step - 1) step Hs).
    split; [nia |].
    replace (a + step * Z.of_nat k - a)%Z with (Z.of_nat k * step)%Z by ring.
    apply Z.mod_mul. lia.
  - intros [Hf Hm]. exists (Z.to_nat ((f - a) / step)).
    assert (Hd := Z.div_mod (f - a) step ltac:(lia)).
    assert (Hq : (0 <= (f - a) / step)%Z) by (apply Z.div_pos; lia).
    split; [lia |]. apply in_seq.
    assert (Hlt : ((f - a) / step < (b - a + step - 1) / step)%Z).
    { apply Z.div_lt_upper_bound; [lia |].
      assert (Hm' := Z.mul_succ_div_gt (b - a + step - 1) step Hs).
      nia. }
    lia.
Qed.

Lemma for_fold_inv {I S : Type} (body : I -> S -> result S)
    (P : list I -> S -> Prop) (xs : list I) (s0 : S) :
  P [] s0 ->
  (forall done i s, In i xs -> P done s ->
                    exists s', body i s = Ok s' /\ P (done ++ [i]) s') ->
  exists s', for_fold xs body s0 = Ok s' /\ P xs s'.
Proof.
  intros H0 Hstep.
  assert (G : forall rest done s,
             (forall i, In i rest -> In i xs) -> P done s ->
             exists s', for_fold rest body s = Ok s' /\ P (done ++ rest) s').
  { induction rest as [| i rest IH]; intros done s Hin HP.
    - exists s. rewrite app_nil_r. now split.
    - destruct (Hstep done i s (Hin i (or_introl eq_refl)) HP)
        as [s1 [E1 HP1]].
      destruct (IH (done ++ [i]) s1 (fun j Hj => Hin j (or_intror Hj)) HP1)
        as [s' [E' HP']].
      exists s'. cbn [for_fold]. rewrite E1. cbn [bind]. rewrite E'.
      split; [reflexivity |]. now rewrite <- app_assoc in HP'. }
  apply (G xs [] s0); auto.
Qed.

Lemma for_fold_range_inv {St : Type} (body : Z -> St -> result St)
    (P : Z -> St -> Prop) (s0 : St) (n : Z) :
  (0 <= n)%Z ->
  P 0%Z s0 ->
  (forall k s, (1 <= k <= n)%Z -> P (k - 1)%Z s ->
               exists s', body k s = Ok s' /\ P k s') ->
  exists s', for_fold (py_range2 1 (n + 1)) body s0 = Ok s' /\ P n s'.
Proof.
  intros Hn H0 Hstep.
  assert (G : forall m : nat,
             (Z.of_nat m <= n)%Z ->
             exists s', for_fold (py_range2 1 (Z.of_nat m + 1)) body s0
                        = Ok s'
                        /\ P (Z.of_nat m) s').
  { induction m as [| m IH]; intros Hm.
    - exists s0. split; [reflexivity | exact H0].
    - destruct (IH ltac:(lia)) as [s1 [E1 HP1]].
      rewrite OrbitMoreFacts.py_range2_last by lia.
      replace (Z.of_nat (S m)) with (Z.of_nat m + 1)%Z by lia.
      destruct (Hstep (Z.of_nat m + 1)%Z s1 ltac:(lia)) as [s' [E' HP']].
      { now replace (Z.of_nat m + 1 - 1)%Z with (Z.of_nat m) by lia. }
      exists s'. rewrite for_fold_app, E1. cbn [bind for_fold].
      rewrite E'. now split. }
  destruct (G (Z.to_nat n) ltac:(lia)) as [s' [E HP]].
  rewrite Z2Nat.id in E, HP by lia. now exists s'.
Qed.

Module AnimFacts.

Import stdpp.base stdpp.gmap stdpp.strings.
Import Anim.
Local Open Scope R_scope.











(** One pass of [animate_hip] on the armature object: the bob is added to
    the height the object has. *)
Lemma animate_hip_pass_object (frames f : Z) (t : Target) :
  frames <> 0%Z ->
  exists t',
    animate_hip_pass true frames f t = Ok t'
    /\ snd (location t')
       = snd (location t)
         + Rabs (Rtrigo_def.sin (IZR (f - 1) / IZR frames * 2 * PI * 2))
           * 0.05
    /\ keys t' Location 2
       = <[f := snd (location t')]> (keys t Location 2).
Proof.
  intros Hf. unfold animate_hip_pass. rewrite int_truediv_ok by assumption.
  cbn [bind]. eexists. split; [reflexivity |].
  unfold math.sin, math.pi. split; reflexivity.
Qed.

(** One pass of [animate_hip] on the hip bone: the bob is the height. *)
Lemma animate_hip_pass_bone (frames f : Z) (t : Target) :
  frames <> 0%Z ->
  exists t',
    animate_hip_pass false frames f t = Ok t'
    /\ keys t' Location 2
       = <[f := Rabs (Rtrigo_def.sin (IZR (f - 1) / IZR frames * 2 * PI * 2))
                * 0.05]> (keys t Location 2).
Proof.
  intros Hf. unfold animate_hip_pass. rewrite int_truediv_ok by assumption.
  cbn [bind]. eexists. split; reflexivity.
Qed.

Lemma hip_bob_first (frames : Z) :
  Rabs (Rtrigo_def.sin (IZR (1 - 1) / IZR frames * 2 * PI * 2)) * 0.05 = 0.
Proof.
  replace (IZR (1 - 1) / IZR frames * 2 * PI * 2) with 0.
  - rewrite sin_0, Rabs_R0. ring.
  - change (1 - 1)%Z with 0%Z. unfold Rdiv. ring.
Qed.

(** X20: [animate_hip] takes the height of its target from the target
    itself when that is the armature object, so the bob accumulates: the
    first key is the object's height, each later key is the key before it
    plus the bob of its frame, and the object is left at its last key.  On
    the hip bone every key is the bob itself, between 0 and 0.05, and the
    first one is 0. *)
Theorem animate_hip_object_drift (frames : Z) (target : Target) :
  (1 <= frames)%Z ->
  (exists target',
      animate_hip_target true frames target = Ok target'
      /\ keys target' Location 2 !! 1%Z = Some (snd (location target))
      /\ keys target' Location 2 !! frames = Some (snd (location target'))
      /\ forall f, (1 <= f < frames)%Z ->
           exists z,
             keys target' Location 2 !! f = Some z
             /\ keys target' Location 2 !! (f + 1)%Z
                = Some (z + Rabs (Rtrigo_def.sin
                                    (IZR f / IZR frames * 2 * PI * 2))
                            * 0.05))
  /\ (exists target',
         animate_hip_target false frames target = Ok target'
         /\ keys target' Location 2 !! 1%Z = Some 0
         /\ forall f, (1 <= f <= frames)%Z ->
              exists z,
                keys target' Location 2 !! f = Some z /\ 0 <= z <= 0.05).
Proof.
  intros Hfr. split.
  - destruct (for_fold_range_inv (animate_hip_pass true frames)
                (fun k s =>
                   (k = 0%Z -> s = target)
                   /\ ((1 <= k)%Z ->
                       keys s Location 2 !! 1%Z
                       = Some (snd (location target))
                       /\ keys s Location 2 !! k = Some (snd (location s)))
                   /\ forall f, (1 <= f < k)%Z ->
                        exists z,
                          keys s Location 2 !! f = Some z
                          /\ keys s Location 2 !! (f + 1)%Z
                             = Some (z + Rabs (Rtrigo_def.sin
                                                 (IZR f / IZR frames
                                                  * 2 * PI * 2))
                                         * 0.05))
                target frames ltac:(lia)) as [t' [E [_ [H1 Hs]]]].
    + split; [reflexivity |]. split; intros; lia.
    + intros k s Hk [H0 [H1 Hs]].
      destruct (animate_hip_pass_object frames k s ltac:(lia))
        as [s' [E [Hz Hkeys]]].
      exists s'. split; [exact E |].
      split; [intros; lia |]. split.
      * intros _. rewrite Hkeys. split; [| apply lookup_insert_eq].
        destruct (Z.eq_dec k 1%Z) as [-> | Hne].
        -- rewrite lookup_insert_eq, Hz, hip_bob_first.
           rewrite (H0 eq_refl). f_equal. ring.
        -- rewrite lookup_insert_ne by congruence.
           apply (H1 ltac:(lia)).
      * intros f Hf. rewrite Hkeys.
        destruct (Z.eq_dec (f + 1)%Z k) as [Ek | Hne].
        -- exists (snd (location s)).
           rewrite lookup_insert_ne by lia.
           split; [replace f with (k - 1)%Z by lia; apply (H1 ltac:(lia)) |].
           rewrite Ek, lookup_insert_eq, Hz.
           replace (k - 1)%Z with f by lia. reflexivity.
        -- destruct (Hs f ltac:(lia)) as [z [Ha Hb]]. exists z.
           now rewrite !lookup_insert_ne by lia.
    + exists t'. unfold animate_hip_target. split; [exact E |].
      destruct (H1 ltac:(lia)) as [Ha Hb]. auto.
  - destruct (for_fold_inv (animate_hip_pass false frames)
                (fun done s =>
                   forall f, In f done ->
                     keys s Location 2 !! f
                     = Some (Rabs (Rtrigo_def.sin
                                     (IZR (f - 1) / IZR frames * 2 * PI * 2))
                             * 0.05))
                (py_range2 1 (frames + 1)) target) as [t' [E HP]].
    + intros f [].
    + intros done i s Hi HP.
      apply OrbitMoreFacts.py_range2_spec in Hi.
      destruct (animate_hip_pass_bone frames i s ltac:(lia))
        as [s' [E K]].
      exists s'. split; [exact E |]. intros f Hin. rewrite K.
      destruct (Z.eq_dec f i) as [-> | Hne].
      * now rewrite lookup_insert_eq.
      * rewrite lookup_insert_ne by congruence.
        apply in_app_or in Hin. destruct Hin as [Hin | [Hin | []]].
        -- now apply HP.
        -- congruence.
    + exists t'. unfold animate_hip_target. split; [exact E |]. split.
      * rewrite HP by (apply OrbitMoreFacts.py_range2_spec; lia).
        now rewrite hip_bob_first.
      * intros f Hf. eexists. split.
        -- apply HP. apply OrbitMoreFacts.py_range2_spec. lia.
        -- set (a := IZR (f - 1) / IZR frames * 2 * PI * 2).
           assert (Hs := SIN_bound a).
           assert (Ha := Rabs_pos (Rtrigo_def.sin a)).
           assert (Hb : Rabs (Rtrigo_def.sin a) <= 1)
             by (apply Rabs_le; lra).
           lra.
Qed.

(** One pass of the orbit of basicanimations.py: keys on the x and y
    channels only. *)
Lemma object_orbit_pass_keys (radius : R) (offset duration f : Z)
    (t : Target) :
  duration <> 0%Z ->
  exists t',
    Anim.animate_orbit_pass radius offset duration f t = Ok t'
    /\ keys t' Location 0
       = <[f := Rtrigo_def.cos ((IZR f / IZR duration * 360 + IZR offset)
                                * PI / 180) * radius]>
           (keys t Location 0)
    /\ keys t' Location 1
       = <[f := Rtrigo_def.sin ((IZR f / IZR duration * 360 + IZR offset)
                                * PI / 180) * radius]>
           (keys t Location 1)
    /\ snd (location t') = snd (location t)
    /\ forall p i, ~ (p = Location /\ (i < 2)%nat) ->
                   keys t' p i = keys t p i.
Proof.
  intros Hd. unfold Anim.animate_orbit_pass.
  rewrite int_truediv_ok by assumption.
  cbn [bind]. eexists. split; [reflexivity |].
  unfold math.sin, math.cos, math.pi.
  split; [reflexivity |]. split; [reflexivity |]. split; [reflexivity |].
  intros p i Hpi.
  destruct p; try reflexivity.
  destruct i as [| [| i]]; try reflexivity; exfalso; apply Hpi; split;
    auto; lia.
Qed.

Lemma orbit_radius_min (obj : Target) : 0.1 <= orbit_radius obj.
Proof.
  unfold orbit_radius, flt. destruct (Rlt_dec _ 0.1); lra.
Qed.

(** X21: [animate_orbit] of basicanimations.py never raises; it keys the x
    and y channels at the odd frames up to [duration], every keyed point
    lying on the circle around the z axis whose radius is at least 0.1 (the
    object's distance from the axis, or 3 when that is below 0.1); the z
    channel, the other curves and the object's height are left alone, and
    the result depends on [index] only modulo 6. *)
Theorem object_orbit_circle (obj : Target) (duration index : Z) :
  exists obj',
    Anim.animate_orbit obj duration index = Ok obj'
    /\ 0.1 <= orbit_radius obj
    /\ (forall f, (1 <= f <= duration)%Z -> Z.odd f = true ->
          exists x y,
            keys obj' Location 0 !! f = Some x
            /\ keys obj' Location 1 !! f = Some y
            /\ x * x + y * y = orbit_radius obj * orbit_radius obj)
    /\ (forall f, ~ ((1 <= f <= duration)%Z /\ Z.odd f = true) ->
          keys obj' Location 0 !! f = keys obj Location 0 !! f
          /\ keys obj' Location 1 !! f = keys obj Location 1 !! f)
    /\ (forall p i, ~ (p = Location /\ (i < 2)%nat) ->
          keys obj' p i = keys obj p i)
    /\ snd (location obj') = snd (location obj)
    /\ Anim.animate_orbit obj duration (index + 6)
       = Anim.animate_orbit obj duration index.
Proof.
  set (radius := orbit_radius obj).
  set (offset := ((index * 60) mod 360)%Z).
  assert (Hin : forall f, In f (py_range3 1 (duration + 1) 2)
                          <-> ((1 <= f <= duration)%Z /\ Z.odd f = true)).
  { intros f. rewrite py_range3_spec by lia.
    rewrite Zodd_mod. rewrite Z.eqb_eq.
    assert (H2 := Z.mod_pos_bound f 2 ltac:(lia)).
    assert (H3 := Z.mod_pos_bound (f - 1) 2 ltac:(lia)).
    assert (Hd1 := Z.div_mod f 2 ltac:(lia)).
    assert (Hd2 := Z.div_mod (f - 1) 2 ltac:(lia)).
    split; intros [Ha Hb]; (split; [lia |]); lia. }
  destruct (for_fold_inv (Anim.animate_orbit_pass radius offset duration)
              (fun done s =>
                 (forall f, In f done ->
                    keys s Location 0 !! f
                    = Some (Rtrigo_def.cos
                              ((IZR f / IZR duration * 360 + IZR offset)
                               * PI / 180) * radius)
                    /\ keys s Location 1 !! f
                       = Some (Rtrigo_def.sin
                                 ((IZR f / IZR duration * 360 + IZR offset)
                                  * PI / 180) * radius))
                 /\ (forall f, ~ In f done ->
                       keys s Location 0 !! f = keys obj Location 0 !! f
                       /\ keys s Location 1 !! f = keys obj Location 1 !! f)
                 /\ (forall p i, ~ (p = Location /\ (i < 2)%nat) ->
                       keys s p i = keys obj p i)
                 /\ snd (location s) = snd (location obj))
              (py_range3 1 (duration + 1) 2) obj)
    as [obj' [E [Hk [Hn [Ho Hz]]]]].
  - split; [intros f [] |]. repeat split.
  - intros done i s Hi [Hk [Hn [Ho Hz]]].
    apply Hin in Hi.
    destruct (object_orbit_pass_keys radius offset duration i s ltac:(lia))
      as [s' [E [K0 [K1 [Kz Ko]]]]].
    exists s'. split; [exact E |]. rewrite K0, K1.
    split; [| split; [| split]].
    + intros f Hf. destruct (Z.eq_dec f i) as [-> | Hne].
      * now rewrite !lookup_insert_eq.
      * rewrite !lookup_insert_ne by congruence.
        apply in_app_or in Hf. destruct Hf as [Hf | [Hf | []]].
        -- now apply Hk.
        -- congruence.
    + intros f Hf.
      assert (Hne : i <> f).
      { intros ->. apply Hf. apply in_or_app. right. now left. }
      rewrite !lookup_insert_ne by assumption.
      apply Hn. intros Hd. apply Hf. apply in_or_app. now left.
    + intros p j Hp. rewrite Ko by assumption. now apply Ho.
    + now rewrite Kz.
  - exists obj'. split; [exact E |].
    split; [apply orbit_radius_min |].
    split.
    { intros f Hf Hodd. destruct (Hk f) as [K0 K1]; [now apply Hin |].
      do 2 eexists. split; [exact K0 |]. split; [exact K1 |].
      set (a := (IZR f / IZR duration * 360 + IZR offset) * PI / 180).
      assert (Hsc := sin2_cos2 a). unfold Rsqr in Hsc. fold radius.
      replace (Rtrigo_def.cos a * radius * (Rtrigo_def.cos a * radius)
               + Rtrigo_def.sin a * radius * (Rtrigo_def.sin a * radius))
        with ((Rtrigo_def.sin a * Rtrigo_def.sin a
               + Rtrigo_def.cos a * Rtrigo_def.cos a) * (radius * radius))
        by ring.
      rewrite Hsc. ring. }
    split.
    { intros f Hf. apply Hn. intros Hd. apply Hf. now apply Hin. }
    split; [exact Ho |]. split; [exact Hz |].
    unfold Anim.animate_orbit.
    replace (((index + 6) * 60) mod 360)%Z with ((index * 60) mod 360)%Z;
      [reflexivity |].
    replace ((index + 6) * 60)%Z with (index * 60 + 1 * 360)%Z by ring.
    now rewrite Z_mod_plus_full.
Qed.

(** One pass of [animate_wave]: a key on the z channel only. *)
Lemma animate_wave_pass_keys (original_z : R) (offset duration f : Z)
    (t : Target) :
  duration <> 0%Z ->
  exists t',
    animate_wave_pass original_z offset duration f t = Ok t'
    /\ keys t' Location 2
       = <[f := original_z
                + Rtrigo_def.sin (IZR (f + offset) / IZR duration * PI * 4)
                  * 1.5]> (keys t Location 2)
    /\ fst (location t') = fst (location t)
    /\ forall p i, ~ (p = Location /\ i = 2%nat) ->
                   keys t' p i = keys t p i.
Proof.
  intros Hd. unfold animate_wave_pass.
  rewrite int_truediv_ok by assumption.
  cbn [bind]. eexists. split; [reflexivity |].
  split; [reflexivity |].
  split; [cbn; destruct (location t) as [[x y] z]; reflexivity |].
  intros p i Hpi. destruct p; try reflexivity.
  destruct i as [| [| [| i]]]; try reflexivity.
  exfalso. apply Hpi. now split.
Qed.

(** X22: [animate_wave] never raises; it keys the z channel at the frames
    1, 6, 11, ... up to [duration], each key within 1.5 of the height the
    object had, and leaves the other frames, the other curves and the
    object's x and y alone. *)
Theorem animate_wave_keys (obj : Target) (duration index : Z) :
  exists obj',
    animate_wave obj duration index = Ok obj'
    /\ (forall f, (1 <= f <= duration)%Z -> ((f - 1) mod 5 = 0)%Z ->
          exists z,
            keys obj' Location 2 !! f = Some z
            /\ snd (location obj) - 1.5 <= z <= snd (location obj) + 1.5)
    /\ (forall f, ~ ((1 <= f <= duration)%Z /\ ((f - 1) mod 5 = 0)%Z) ->
          keys obj' Location 2 !! f = keys obj Location 2 !! f)
    /\ (forall p i, ~ (p = Location /\ i = 2%nat) ->
          keys obj' p i = keys obj p i)
    /\ fst (location obj') = fst (location obj).
Proof.
  set (z0 := snd (location obj)). set (offset := (index * 10)%Z).
  assert (Hin : forall f, In f (py_range3 1 (duration + 1) 5)
                          <-> ((1 <= f <= duration)%Z
                               /\ ((f - 1) mod 5 = 0)%Z)).
  { intros f. rewrite py_range3_spec by lia. split; intros [Ha Hb];
      (split; [lia | assumption]). }
  destruct (for_fold_inv (animate_wave_pass z0 offset duration)
              (fun done s =>
                 (forall f, In f done ->
                    keys s Location 2 !! f
                    = Some (z0 + Rtrigo_def.sin
                                   (IZR (f + offset) / IZR duration * PI * 4)
                                 * 1.5))
                 /\ (forall f, ~ In f done ->
                       keys s Location 2 !! f = keys obj Location 2 !! f)
                 /\ (forall p i, ~ (p = Location /\ i = 2%nat) ->
                       keys s p i = keys obj p i)
                 /\ fst (location s) = fst (location obj))
              (py_range3 1 (duration + 1) 5) obj)
    as [obj' [E [Hk [Hn [Ho Hxy]]]]].
  - split; [intros f [] |]. repeat split.
  - intros done i s Hi [Hk [Hn [Ho Hxy]]].
    apply Hin in Hi.
    destruct (animate_wave_pass_keys z0 offset duration i s ltac:(lia))
      as [s' [E [K2 [Kxy Ko]]]].
    exists s'. split; [exact E |]. rewrite K2.
    split; [| split; [| split]].
    + intros f Hf. destruct (Z.eq_dec f i) as [-> | Hne].
      * now rewrite lookup_insert_eq.
      * rewrite lookup_insert_ne by congruence.
        apply in_app_or in Hf. destruct Hf as [Hf | [Hf | []]].
        -- now apply Hk.
        -- congruence.
    + intros f Hf.
      assert (Hne : i <> f).
      { intros ->. apply Hf. apply in_or_app. right. now left. }
      rewrite lookup_insert_ne by assumption.
      apply Hn. intros Hd. apply Hf. apply in_or_app. now left.
    + intros p j Hp. rewrite Ko by assumption. now apply Ho.
    + now rewrite Kxy.
  - exists obj'. split; [exact E |].
    split.
    { intros f Hf Hm. eexists. split; [apply Hk; now apply Hin |].
      assert (Hs := SIN_bound (IZR (f + offset) / IZR duration * PI * 4)).
      lra. }
    split.
    { intros f Hf. apply Hn. intros Hd. apply Hf. now apply Hin. }
    split; [exact Ho | exact Hxy].
Qed.


(** X23: [animate_bounce] leaves the object where it was and keys its
    height at the last frame; the peak, 2 above, is keyed at
    [duration // 2] unless that is the last frame, and for a duration of 2
    or 3 it replaces the key of frame 1.  The x and y channels are keyed
    at [duration // 2] and [duration] only. *)
Theorem animate_bounce_round_trip (obj : Target) (duration : Z) :
  location (animate_bounce obj duration) = location obj
  /\ keys (animate_bounce obj duration) Location 2 !! duration
     = Some (snd (location obj))
  /\ ((duration / 2)%Z <> duration ->
      keys (animate_bounce obj duration) Location 2 !! (duration / 2)%Z
      = Some (snd (location obj) + 2))
  /\ (duration = 2%Z \/ duration = 3%Z ->
      keys (animate_bounce obj duration) Location 2 !! 1%Z
      = Some (snd (location obj) + 2))
  /\ (duration <> 2%Z -> duration <> 3%Z ->
      keys (animate_bounce obj duration) Location 2 !! 1%Z
      = Some (snd (location obj)))
  /\ (forall i f, (i < 2)%nat -> f <> (duration / 2)%Z -> f <> duration ->
        keys (animate_bounce obj duration) Location i !! f
        = keys obj Location i !! f).
Proof.
  unfold animate_bounce. destruct obj as [[[x y] z] rot sc ks].
  cbn [location snd fst keyframe_insert key_channel set_location_z
       set_location rotation_euler scale keys Path_eqb andb Nat.eqb
       component property].
  split; [reflexivity |].
  split; [apply lookup_insert_eq |].
  split.
  { intros Hne. rewrite lookup_insert_ne by congruence.
    apply lookup_insert_eq. }
  split.
  { intros Hd. assert (Hh : (duration / 2)%Z = 1%Z).
    { destruct Hd as [-> | ->]; reflexivity. }
    rewrite lookup_insert_ne by (destruct Hd; lia).
    rewrite Hh. apply lookup_insert_eq. }
  split.
  { intros H2 H3.
    assert (Hh : (duration / 2)%Z <> 1%Z).
    { intros Hh. assert (Hm := Z.div_mod duration 2 ltac:(lia)).
      assert (Hb := Z.mod_pos_bound duration 2 ltac:(lia)). lia. }
    destruct (Z.eq_dec duration 1%Z) as [-> | H1].
    - apply lookup_insert_eq.
    - rewrite !lookup_insert_ne by congruence. apply lookup_insert_eq. }
  intros i f Hi Hf1 Hf2.
  destruct i as [| [| i]]; [| | lia];
    cbn [Nat.eqb]; now rewrite !lookup_insert_ne by congruence.
Qed.

(** X24: [animate_scale_pulse] leaves the object at its scale, touches no
    curve but those of the scale, and on each of the three scale channels
    keys the original value at the last frame; one and a half times that
    value is keyed at [duration // 2] unless that is the last frame, and
    for a duration of 2 or 3 it replaces the key of frame 1. *)
Theorem animate_scale_pulse_round_trip (obj : Target) (duration : Z) :
  scale (animate_scale_pulse obj duration) = scale obj
  /\ (forall p j, p <> Scale ->
        keys (animate_scale_pulse obj duration) p j = keys obj p j)
  /\ forall i, (i < 3)%nat ->
       keys (animate_scale_pulse obj duration) Scale i !! duration
       = Some (component i (scale obj))
       /\ ((duration / 2)%Z <> duration ->
           keys (animate_scale_pulse obj duration) Scale i
             !! (duration / 2)%Z
           = Some (component i (scale obj) * 1.5))
       /\ (duration = 2%Z \/ duration = 3%Z ->
           keys (animate_scale_pulse obj duration) Scale i !! 1%Z
           = Some (component i (scale obj) * 1.5))
       /\ (duration <> 2%Z -> duration <> 3%Z ->
           keys (animate_scale_pulse obj duration) Scale i !! 1%Z
           = Some (component i (scale obj))).
Proof.
  unfold animate_scale_pulse. destruct obj as [loc rot [[x y] z] ks].
  cbn [location snd fst keyframe_insert key_channel set_scale
       rotation_euler scale keys Path_eqb andb Nat.eqb
       component property].
  split; [reflexivity |].
  split; [intros p j Hp; destruct p; try reflexivity; congruence |].
  assert (Hdiv : duration <> 2%Z -> duration <> 3%Z ->
                 (duration / 2)%Z <> 1%Z).
  { intros H2 H3 Hh. assert (Hm := Z.div_mod duration 2 ltac:(lia)).
    assert (Hb := Z.mod_pos_bound duration 2 ltac:(lia)). lia. }
  assert (Hhalf : duration = 2%Z \/ duration = 3%Z ->
                  (duration / 2)%Z = 1%Z).
  { intros [-> | ->]; reflexivity. }
  intros i Hi.
  assert (Hc : i = 0%nat \/ i = 1%nat \/ i = 2%nat) by lia.
  split; [destruct Hc as [-> | [-> | ->]]; cbn [Nat.eqb component fst snd];
          apply lookup_insert_eq |].
  split.
  { intros Hne.
    destruct Hc as [-> | [-> | ->]]; cbn [Nat.eqb component fst snd];
      (rewrite lookup_insert_ne by congruence); apply lookup_insert_eq. }
  split.
  { intros Hd. assert (Hh := Hhalf Hd).
    assert (Hn : duration <> 1%Z) by (destruct Hd; lia).
    destruct Hc as [-> | [-> | ->]]; cbn [Nat.eqb component fst snd];
      (rewrite lookup_insert_ne by congruence); rewrite Hh;
      apply lookup_insert_eq. }
  intros H2 H3. assert (Hh := Hdiv H2 H3).
  destruct (Z.eq_dec duration 1%Z) as [-> | H1];
    destruct Hc as [-> | [-> | ->]]; cbn [Nat.eqb component fst snd];
    try apply lookup_insert_eq;
    (rewrite !lookup_insert_ne by congruence); apply lookup_insert_eq.
Qed.


(** The hips of the walk cycle, over its 24 frames. *)
Lemma animate_hip_object_drift_witness :
  (exists target',
      animate_hip_target true 24
        (mkTarget (0, 0, 1) (0, 0, 0) (1, 1, 1) (fun _ _ => ∅))
      = Ok target'
      /\ keys target' Location 2 !! 1%Z = Some 1
      /\ keys target' Location 2 !! 24%Z = Some (snd (location target'))
      /\ forall f, (1 <= f < 24)%Z ->
           exists z,
             keys target' Location 2 !! f = Some z
             /\ keys target' Location 2 !! (f + 1)%Z
                = Some (z + Rabs (Rtrigo_def.sin
                                    (IZR f / IZR 24 * 2 * PI * 2))
                            * 0.05))
  /\ (exists target',
         animate_hip_target false 24
           (mkTarget (0, 0, 1) (0, 0, 0) (1, 1, 1) (fun _ _ => ∅))
         = Ok target'
         /\ keys target' Location 2 !! 1%Z = Some 0
         /\ forall f, (1 <= f <= 24)%Z ->
              exists z,
                keys target' Location 2 !! f = Some z /\ 0 <= z <= 0.05).
Proof.
  apply (animate_hip_object_drift 24
           (mkTarget (0, 0, 1) (0, 0, 0) (1, 1, 1) (fun _ _ => ∅))).
  lia.
Defined.

End AnimFacts.
